(** * VirtualMemory: a hierarchical demand-paged translator

    Shallow embedding of [VirtualMemory.cpp] and verification of the
    properties its specification states about it.

    Conventions of the embedding.
    - Frame indices, page numbers, physical and virtual addresses and
      words are integers of [Z].  The unsigned 64-bit arithmetic and
      the cast to [int] of [cyclic_distance] are written out.  The
      other quantities are computed in [Z] as they stand: the counters
      [int i] and [int j] of the loops over the words of a frame, the
      frame indices kept in [word_t] and [int] variables, and the
      physical addresses [frame * PAGE_SIZE + offset], which the code
      passes as [uint64_t].  These are the values of the code as long
      as [PAGE_SIZE] and [NUM_FRAMES] are at most 2^30 (a counter ends
      at [PAGE_SIZE], and [maxFrame + 1] reaches [NUM_FRAMES]) and
      every frame met is a frame of the memory.  The theorems about
      these functions assume the two bounds, [OFFSET_WIDTH <= 30] and
      [NUM_FRAMES <= 2^30], and speak of the states reached from
      [VMinitialize], in which every frame met is a frame of the
      memory; the runs shown to break a property of the specification
      are given up to their first call outside the memory, if any.
    - The physical memory is threaded explicitly through every
      function; each call of a primitive of the physical memory is
      recorded in a log carried by the memory, newest event first.
      The primitives are defined at every address, so that the log
      shows a call that leaves the memory; [event_in_memory] is the
      range section 6 of the specification gives for a call.
    - The recursion of [find_next_frame] runs on the number of levels
      still below the current one, [TABLES_DEPTH - depth]: the test
      [depth == TABLES_DEPTH] is the case [O] and [depth + 1] is the
      predecessor. *)

From Stdlib Require Import ZArith List Lia Bool Sorted.
Import ListNotations.
Open Scope Z_scope.

(** ** Geometry *)

(** Modelled from the spec: the geometry constants of
    [MemoryConstants.h], which is not part of the sources.  Three
    widths are supplied by the build; the other quantities derive from
    them as section 2 of the specification says. *)
Record Geometry : Type := mkGeometry {
  OFFSET_WIDTH : Z;
  PHYSICAL_ADDRESS_WIDTH : Z;
  VIRTUAL_ADDRESS_WIDTH : Z
}.

(** ** Physical memory *)

(** Calls of the primitives of the physical memory, as they are logged. *)
Inductive PMEvent : Type :=
| EvRead (addr : Z)
| EvWrite (addr value : Z)
| EvEvict (frame page : Z)
| EvRestore (frame page : Z).

(** Modelled from the spec: the state of the physical memory of
    [PhysicalMemory.cpp], which is not part of the sources (sections 3
    and 6 of the specification): the words of the RAM by physical
    address, the backing store by page number, and the log of the calls. *)
Record PhysMem : Type := mkPhysMem {
  RAM : Z -> Z;
  swapFile : Z -> option (Z -> Z);
  events : list PMEvent
}.

Definition upd (m : Z -> Z) (a v : Z) : Z -> Z :=
  fun x => if x =? a then v else m x.

(** ** Search arguments (struct [SearchArguments]) *)

Record SearchArguments : Type := mkArgs {
  currentFrame : Z;
  maxFrame : Z;
  pageNumber : Z;
  maxCyclicFrame : Z;
  maxCyclicDist : Z;
  maxCyclicPage : Z;
  maxCyclicParent : Z;
  emptyFrame : Z;
  priority : Z
}.

Definition set_maxFrame (a : SearchArguments) (v : Z) : SearchArguments :=
  mkArgs (currentFrame a) v (pageNumber a) (maxCyclicFrame a)
         (maxCyclicDist a) (maxCyclicPage a) (maxCyclicParent a)
         (emptyFrame a) (priority a).

Definition set_maxCyclic (a : SearchArguments) (frame dist page parent : Z)
  : SearchArguments :=
  mkArgs (currentFrame a) (maxFrame a) (pageNumber a) frame dist page parent
         (emptyFrame a) (priority a).

Definition set_emptyFrame (a : SearchArguments) (v : Z) : SearchArguments :=
  mkArgs (currentFrame a) (maxFrame a) (pageNumber a) (maxCyclicFrame a)
         (maxCyclicDist a) (maxCyclicPage a) (maxCyclicParent a)
         v (priority a).

Definition set_priority (a : SearchArguments) (v : Z) : SearchArguments :=
  mkArgs (currentFrame a) (maxFrame a) (pageNumber a) (maxCyclicFrame a)
         (maxCyclicDist a) (maxCyclicPage a) (maxCyclicParent a)
         (emptyFrame a) v.

(** The aggregate [{frame, 0, pageNumber, 0, 0, 0, 0, 0, 0}]. *)
Definition init_args (frame page : Z) : SearchArguments :=
  mkArgs frame 0 page 0 0 0 0 0 0.

(** Machine arithmetic used by [cyclic_distance]. *)
Definition wrap64 (z : Z) : Z := z mod 2 ^ 64.
Definition to_int (z : Z) : Z := (z + 2 ^ 31) mod 2 ^ 32 - 2 ^ 31.

Section VirtualMemory.

Variable G : Geometry.

(** Modelled from the spec: the macro [PAGE_SIZE] of
    [MemoryConstants.h], [2^OFFSET_WIDTH]. *)
Definition PAGE_SIZE : Z := 2 ^ OFFSET_WIDTH G.

(** Modelled from the spec: the macro [NUM_FRAMES] of
    [MemoryConstants.h], [2^(PHYSICAL_ADDRESS_WIDTH - OFFSET_WIDTH)]. *)
Definition NUM_FRAMES : Z := 2 ^ (PHYSICAL_ADDRESS_WIDTH G - OFFSET_WIDTH G).

(** Modelled from the spec: the macro [VIRTUAL_MEMORY_SIZE] of
    [MemoryConstants.h], [2^VIRTUAL_ADDRESS_WIDTH]. *)
Definition VIRTUAL_MEMORY_SIZE : Z := 2 ^ VIRTUAL_ADDRESS_WIDTH G.

(** Modelled from the spec: the macro [NUM_PAGES] of
    [MemoryConstants.h], [VIRTUAL_MEMORY_SIZE / PAGE_SIZE]. *)
Definition NUM_PAGES : Z := VIRTUAL_MEMORY_SIZE / PAGE_SIZE.

(** Modelled from the spec: the macro [TABLES_DEPTH] of
    [MemoryConstants.h], the ceiling of
    [(VIRTUAL_ADDRESS_WIDTH - OFFSET_WIDTH) / OFFSET_WIDTH]. *)
Definition TABLES_DEPTH : nat :=
  Z.to_nat ((VIRTUAL_ADDRESS_WIDTH G - OFFSET_WIDTH G + OFFSET_WIDTH G - 1)
            / OFFSET_WIDTH G).

(** Modelled from the spec: [PMread] of [PhysicalMemory.h], whose
    implementation is not part of the sources (section 6 of the
    specification): the word at the physical address.  Section 6 gives
    the result for an address in [[0, NUM_FRAMES * PAGE_SIZE)] only; a
    call at another address is logged like any other, and the theorems
    speak of runs whose calls are in that range ([event_in_memory]). *)
Definition PMread (addr : Z) (pm : PhysMem) : Z * PhysMem :=
  (RAM pm addr,
   mkPhysMem (RAM pm) (swapFile pm) (EvRead addr :: events pm)).

(** Modelled from the spec: [PMwrite] of [PhysicalMemory.h] (section 6):
    stores the word at the physical address, an address of the memory
    in the runs the theorems speak of. *)
Definition PMwrite (addr value : Z) (pm : PhysMem) : PhysMem :=
  mkPhysMem (upd (RAM pm) addr value) (swapFile pm)
            (EvWrite addr value :: events pm).

(** Modelled from the spec: [PMevict] of [PhysicalMemory.h] (section 6):
    keeps the contents of the frame in the backing store under the page
    number. *)
Definition PMevict (frame page : Z) (pm : PhysMem) : PhysMem :=
  mkPhysMem (RAM pm)
            (fun q => if q =? page
                      then Some (fun off => RAM pm (frame * PAGE_SIZE + off))
                      else swapFile pm q)
            (EvEvict frame page :: events pm).

(** Modelled from the spec: [PMrestore] of [PhysicalMemory.h] (section
    6): loads into the frame the contents kept for the page, or zeros
    for a page that was never evicted. *)
Definition PMrestore (frame page : Z) (pm : PhysMem) : PhysMem :=
  mkPhysMem (fun x => if (frame * PAGE_SIZE <=? x)
                         && (x <? frame * PAGE_SIZE + PAGE_SIZE)
                      then match swapFile pm page with
                           | Some c => c (x - frame * PAGE_SIZE)
                           | None => 0
                           end
                      else RAM pm x)
            (swapFile pm)
            (EvRestore frame page :: events pm).

(** ** [init_offsets]

    The array is filled from index [TABLES_DEPTH] down to [0]; the
    accumulator holds the cells already written, so that the result is
    the array read from index [0]. *)
Fixpoint init_offsets_loop (cnt : nat) (virtualAddress : Z) (offsets : list Z)
  : list Z :=
  match cnt with
  | O => offsets
  | S c =>
      init_offsets_loop c (Z.shiftr virtualAddress (OFFSET_WIDTH G))
        (Z.land virtualAddress (PAGE_SIZE - 1) :: offsets)
  end.

Definition init_offsets (virtualAddress : Z) : list Z :=
  init_offsets_loop (S TABLES_DEPTH) virtualAddress [].

(** ** [cyclic_distance] *)
Definition cyclic_distance (page_swapped_in p : Z) : Z :=
  let abs_distance :=
    if page_swapped_in >? p then wrap64 (page_swapped_in - p)
    else wrap64 (p - page_swapped_in) in
  if abs_distance <? wrap64 (NUM_PAGES - abs_distance)
  then to_int abs_distance
  else to_int (wrap64 (NUM_PAGES - abs_distance)).

(** ** [update_max_cyclic_distance] *)
Definition update_max_cyclic_distance (args : SearchArguments)
  (rootFrame currentVirtual parent offset : Z) : SearchArguments :=
  let cyclicDist := cyclic_distance (pageNumber args) currentVirtual in
  if cyclicDist >=? maxCyclicDist args
  then set_maxCyclic args rootFrame cyclicDist currentVirtual
                     (parent * PAGE_SIZE + offset)
  else args.

(** ** [empty_frame_not_found] *)
Definition empty_frame_not_found (args : SearchArguments) (pm : PhysMem)
  : SearchArguments * PhysMem :=
  if maxFrame args + 1 <? NUM_FRAMES
  then (set_priority args 2, pm)
  else
    let pm1 := PMwrite (maxCyclicParent args) 0 pm in
    let pm2 := PMevict (maxCyclicFrame args) (maxCyclicPage args) pm1 in
    (set_priority args 3, pm2).

(** ** [find_next_frame] *)

(** First loop of [find_next_frame]: is any slot of the frame non-zero?
    The loop stops at the first non-zero slot.  [cnt] is the number of
    iterations left and [i] the counter [int i], which ends at
    [PAGE_SIZE]: an [int] when [OFFSET_WIDTH <= 30].  The address is
    the one the code passes when [rootFrame] is a frame of the memory. *)
Fixpoint is_root_empty (cnt : nat) (i : Z) (rootFrame : Z) (pm : PhysMem)
  : bool * PhysMem :=
  match cnt with
  | O => (true, pm)
  | S c =>
      let '(value, pm1) := PMread (rootFrame * PAGE_SIZE + i) pm in
      if value =? 0 then is_root_empty c (i + 1) rootFrame pm1
      else (false, pm1)
  end.

(** Second loop of [find_next_frame]; [rec] is the recursive call one
    level down.  The boolean tells that the function returned from
    inside the loop.  The counter [int i] ends at [PAGE_SIZE], as in
    the first loop. *)
Fixpoint search_children
  (rec : SearchArguments -> Z -> Z -> Z -> Z -> PhysMem
         -> SearchArguments * PhysMem)
  (cnt : nat) (i : Z) (rootFrame currentVirtual : Z)
  (args : SearchArguments) (pm : PhysMem)
  : bool * SearchArguments * PhysMem :=
  match cnt with
  | O => (false, args, pm)
  | S c =>
      let '(nextFrame, pm1) := PMread (rootFrame * PAGE_SIZE + i) pm in
      if nextFrame =? 0
      then search_children rec c (i + 1) rootFrame currentVirtual args pm1
      else
        let args1 := if nextFrame >=? maxFrame args
                     then set_maxFrame args nextFrame else args in
        let '(args2, pm2) :=
          rec args1 nextFrame
              (Z.shiftl currentVirtual (OFFSET_WIDTH G) + i) rootFrame i pm1 in
        if priority args2 =? 1 then (true, args2, pm2)
        else search_children rec c (i + 1) rootFrame currentVirtual args2 pm2
  end.

(** [below] is [TABLES_DEPTH - depth].  The frames [rootFrame] and
    [parent] come from table slots; the addresses
    [rootFrame * PAGE_SIZE + i] and [parent * PAGE_SIZE + offset] are
    the [uint64_t] values the code passes when they are frames of the
    memory, and [currentVirtual] is below 2^64 when [TABLES_DEPTH]
    slot indices fit 64 bits. *)
Fixpoint find_next_frame (below : nat) (args : SearchArguments)
  (rootFrame currentVirtual parent offset : Z) (pm : PhysMem)
  : SearchArguments * PhysMem :=
  match below with
  | O =>
      (update_max_cyclic_distance args rootFrame currentVirtual parent offset,
       pm)
  | S b =>
      let '(isCurrentRootEmpty, pm1) :=
        is_root_empty (Z.to_nat PAGE_SIZE) 0 rootFrame pm in
      if negb (rootFrame =? 0) && negb (rootFrame =? currentFrame args)
         && isCurrentRootEmpty
      then (set_priority (set_emptyFrame args rootFrame) 1,
            PMwrite (parent * PAGE_SIZE + offset) 0 pm1)
      else
        let '(returned, args1, pm2) :=
          search_children (find_next_frame b) (Z.to_nat PAGE_SIZE) 0
                          rootFrame currentVirtual args pm1 in
        if returned then (args1, pm2)
        else if rootFrame =? 0 then empty_frame_not_found args1 pm2
        else (args1, pm2)
  end.

(** ** [find_physical_address] *)

(** The frame the translator takes from the search arguments after
    [maxFrame++]; [nextFrame] is left as it is when no priority is set. *)
Definition chosen_frame (args : SearchArguments) (nextFrame : Z) : Z :=
  if priority args =? 1 then emptyFrame args
  else if priority args =? 2 then maxFrame args
  else if priority args =? 3 then maxCyclicFrame args
  else nextFrame.

(** The loop that zeroes the words of a frame, in [VMinitialize] and in
    [find_physical_address]; [cnt] is the number of iterations left and
    [j] the counter [int j], which ends at [PAGE_SIZE]: an [int] when
    [OFFSET_WIDTH <= 30]. *)
Fixpoint zero_frame (cnt : nat) (j : Z) (frame : Z) (pm : PhysMem) : PhysMem :=
  match cnt with
  | O => pm
  | S c => zero_frame c (j + 1) frame (PMwrite (frame * PAGE_SIZE + j) 0 pm)
  end.

(** Body of the loop of [find_physical_address] at index [i]; the
    result is the new [nextFrame], from which the loop rebuilds the
    search arguments.  The address of the slot is the [uint64_t] the
    code passes when [currentFrame] is a frame of the memory. *)
Definition translate_step (offsets : list Z) (i : nat)
  (args : SearchArguments) (pm : PhysMem) : Z * PhysMem :=
  let slot := currentFrame args * PAGE_SIZE + nth i offsets 0 in
  let '(nextFrame, pm1) := PMread slot pm in
  if nextFrame =? 0 then
    let '(args1, pm2) := find_next_frame TABLES_DEPTH args 0 0 0 0 pm1 in
    let args2 := set_maxFrame args1 (maxFrame args1 + 1) in
    let nextFrame' := chosen_frame args2 nextFrame in
    let pm3 := PMwrite slot nextFrame' pm2 in
    let pm4 :=
      if Z.of_nat i =? Z.of_nat TABLES_DEPTH - 1
      then PMrestore nextFrame' (pageNumber args2) pm3
      else zero_frame (Z.to_nat PAGE_SIZE) 0 nextFrame' pm3 in
    (nextFrame', pm4)
  else (nextFrame, pm1).

Fixpoint translate_loop (cnt : nat) (i : nat) (offsets : list Z)
  (pageNum : Z) (nextFrame : Z) (args : SearchArguments) (pm : PhysMem)
  : Z * PhysMem :=
  match cnt with
  | O => (nextFrame, pm)
  | S c =>
      let '(nextFrame', pm') := translate_step offsets i args pm in
      translate_loop c (S i) offsets pageNum nextFrame'
                     (init_args nextFrame' pageNum) pm'
  end.

Definition find_physical_address (virtualAddress : Z) (offsets : list Z)
  (pm : PhysMem) : Z * PhysMem :=
  let pageNum := Z.shiftr virtualAddress (OFFSET_WIDTH G) in
  translate_loop TABLES_DEPTH 0 offsets pageNum 0 (init_args 0 pageNum) pm.

(** ** Public interface *)

Definition VMinitialize (pm : PhysMem) : PhysMem :=
  zero_frame (Z.to_nat PAGE_SIZE) 0 0 pm.

(** [VMread virtualAddress value pm]: [value] is the content of the
    cell the caller passes; the result is the return code, the content
    of the cell afterwards and the physical memory.  The address of the
    word is the [uint64_t] the code passes when the translator returns
    a frame of the memory; so it is in [VMwrite]. *)
Definition VMread (virtualAddress : Z) (value : Z) (pm : PhysMem)
  : Z * Z * PhysMem :=
  if virtualAddress >=? VIRTUAL_MEMORY_SIZE then (0, value, pm)
  else if Z.shiftr virtualAddress (OFFSET_WIDTH G) >=? NUM_PAGES
  then (0, value, pm)
  else
    let offsets := init_offsets virtualAddress in
    let '(physical_address, pm1) :=
      find_physical_address virtualAddress offsets pm in
    let '(v, pm2) :=
      PMread (physical_address * PAGE_SIZE + nth TABLES_DEPTH offsets 0) pm1 in
    (1, v, pm2).

Definition VMwrite (virtualAddress : Z) (value : Z) (pm : PhysMem)
  : Z * PhysMem :=
  if virtualAddress >=? VIRTUAL_MEMORY_SIZE then (0, pm)
  else if Z.shiftr virtualAddress (OFFSET_WIDTH G) >=? NUM_PAGES
  then (0, pm)
  else
    let offsets := init_offsets virtualAddress in
    let '(physical_address, pm1) :=
      find_physical_address virtualAddress offsets pm in
    (1, PMwrite (physical_address * PAGE_SIZE + nth TABLES_DEPTH offsets 0)
                value pm1).

End VirtualMemory.

(** * Verification *)

(** ** Abstract view of the page-table tree *)

Section Tree.

Variable G : Geometry.

Local Abbreviation PS := (PAGE_SIZE G).
Local Abbreviation OW := (OFFSET_WIDTH G).

(** A path is a list of slot indices, root side first. *)
Definition valid_path (q : list Z) : Prop :=
  Forall (fun i => 0 <= i < PS) q.

(** Frame reached from frame [f] along [q]; [None] when a slot on the
    way is zero. *)
Fixpoint walk (m : Z -> Z) (f : Z) (q : list Z) : option Z :=
  match q with
  | [] => Some f
  | i :: q' =>
      let v := m (f * PS + i) in
      if v =? 0 then None else walk m v q'
  end.

(** Address of the slot that holds the frame at the end of [q]; for the
    empty path it is the slot [offset] of [parent]. *)
Fixpoint slot_addr (m : Z -> Z) (f parent offset : Z) (q : list Z) : Z :=
  match q with
  | [] => parent * PS + offset
  | i :: q' => slot_addr m (m (f * PS + i)) f i q'
  end.

(** Page number the traversal computes along a path. *)
Definition page_of_path (cv : Z) (q : list Z) : Z :=
  fold_left (fun c i => Z.shiftl c OW + i) q cv.

Definition frame_empty (m : Z -> Z) (f : Z) : Prop :=
  forall i, 0 <= i < PS -> m (f * PS + i) = 0.

(** A frame the first priority may take. *)
Definition eligible (m : Z -> Z) (protectedFrame e : Z) : Prop :=
  e <> 0 /\ e <> protectedFrame /\ frame_empty m e.

(** Leaves below a frame, in the order the traversal meets them, each
    with its frame, its page and the address of the slot pointing to it. *)
Fixpoint leaves_children (rec : Z -> Z -> Z -> Z -> list (Z * Z * Z))
  (m : Z -> Z) (cnt : nat) (i f cv : Z) : list (Z * Z * Z) :=
  match cnt with
  | O => []
  | S c =>
      (if m (f * PS + i) =? 0 then []
       else rec (m (f * PS + i)) (Z.shiftl cv OW + i) f i)
      ++ leaves_children rec m c (i + 1) f cv
  end.

Fixpoint leaves (m : Z -> Z) (below : nat) (f cv parent offset : Z)
  : list (Z * Z * Z) :=
  match below with
  | O => [(f, cv, parent * PS + offset)]
  | S b => leaves_children (leaves m b) m (Z.to_nat PS) 0 f cv
  end.

(** The recorded victim: frame, distance, page, parent slot. *)
Definition victim_of (a : SearchArguments) : Z * Z * Z * Z :=
  (maxCyclicFrame a, maxCyclicDist a, maxCyclicPage a, maxCyclicParent a).

Definition victim_step (target : Z) (v : Z * Z * Z * Z) (l : Z * Z * Z)
  : Z * Z * Z * Z :=
  let '(_, dist, _, _) := v in
  let '(frame, page, addr) := l in
  if cyclic_distance G target page >=? dist
  then (frame, cyclic_distance G target page, page, addr)
  else v.

End Tree.

(** ** Outcome of a traversal *)

Section SearchOutcome.

Variable G : Geometry.

Local Abbreviation PS := (PAGE_SIZE G).
Local Abbreviation OW := (OFFSET_WIDTH G).
Local Abbreviation TD := (TABLES_DEPTH G).
Local Abbreviation NF := (NUM_FRAMES G).

(** Outcome of a part of the traversal below frame [f]: [P] selects the
    paths whose end was tested for the first priority, [Pmax] those
    whose end was compared with [maxFrame], [lv] the leaves met. *)
Definition search_found (P : list Z -> Prop) (m : Z -> Z)
  (args : SearchArguments) (f parent offset : Z)
  (args' : SearchArguments) (pm' : PhysMem) : Prop :=
  priority args' = 1 /\
  exists q e, P q /\ valid_path G q /\ walk G m f q = Some e /\
              eligible G m (currentFrame args) e /\
              emptyFrame args' = e /\
              RAM pm' = upd m (slot_addr G m f parent offset q) 0.

Definition search_missed (P Pmax : list Z -> Prop) (lv : list (Z * Z * Z))
  (m : Z -> Z) (args : SearchArguments) (f : Z)
  (args' : SearchArguments) (pm' : PhysMem) : Prop :=
  priority args' = priority args /\
  emptyFrame args' = emptyFrame args /\
  RAM pm' = m /\
  (forall q e, P q -> valid_path G q -> walk G m f q = Some e ->
               ~ eligible G m (currentFrame args) e) /\
  maxFrame args <= maxFrame args' /\
  (forall q e, Pmax q -> valid_path G q -> walk G m f q = Some e ->
               e <= maxFrame args') /\
  (maxFrame args' = maxFrame args \/
   exists q, Pmax q /\ valid_path G q /\
             walk G m f q = Some (maxFrame args')) /\
  victim_of args' =
    fold_left (victim_step G (pageNumber args)) lv (victim_of args).

Definition search_post (P Pmax : list Z -> Prop) (lv : list (Z * Z * Z))
  (m : Z -> Z) (args : SearchArguments) (f parent offset : Z)
  (pm : PhysMem) (res : SearchArguments * PhysMem) : Prop :=
  swapFile (snd res) = swapFile pm /\
  currentFrame (fst res) = currentFrame args /\
  pageNumber (fst res) = pageNumber args /\
  (search_found P m args f parent offset (fst res) (snd res) \/
   search_missed P Pmax lv m args f (fst res) (snd res)).

(** Paths tested below a frame that has [b] levels under it. *)
Definition tested (b : nat) (q : list Z) : Prop := (length q < b)%nat.
Definition seen (b : nat) (q : list Z) : Prop := (1 <= length q <= b)%nat.

(** Paths handled by the loop over the slots from index [i] on. *)
Definition tested_from (b : nat) (i : Z) (q : list Z) : Prop :=
  match q with
  | [] => False
  | j :: q' => i <= j /\ tested b q'
  end.
Definition seen_from (b : nat) (i : Z) (q : list Z) : Prop :=
  match q with
  | [] => False
  | j :: q' => i <= j /\ (length q' <= b)%nat
  end.

End SearchOutcome.

(** ** Distance of a leaf *)

Section Victim.

Variable G : Geometry.

Local Abbreviation PS := (PAGE_SIZE G).
Local Abbreviation OW := (OFFSET_WIDTH G).
Local Abbreviation TD := (TABLES_DEPTH G).
Local Abbreviation NF := (NUM_FRAMES G).

Definition leaf_dist (target : Z) (l : Z * Z * Z) : Z :=
  cyclic_distance G target (snd (fst l)).

Definition victim_dist (v : Z * Z * Z * Z) : Z := snd (fst (fst v)).

Definition victim_of_leaf (target : Z) (l : Z * Z * Z) : Z * Z * Z * Z :=
  (fst (fst l), leaf_dist target l, snd (fst l), snd l).

End Victim.

(** ** Digits of a page number *)

Section Digits.

Variable G : Geometry.

Local Abbreviation PS := (PAGE_SIZE G).
Local Abbreviation OW := (OFFSET_WIDTH G).
Local Abbreviation TD := (TABLES_DEPTH G).
Local Abbreviation NF := (NUM_FRAMES G).

(** The [n] digits of [p] in base [PAGE_SIZE], most significant first. *)
Fixpoint digits (n : nat) (p : Z) : list Z :=
  match n with
  | O => []
  | S n' => digits n' (p / PS) ++ [p mod PS]
  end.

End Digits.

(** ** Shape of the tree, contents, reachable states *)

Section TreeInvariant.

Variable G : Geometry.

Local Abbreviation PS := (PAGE_SIZE G).
Local Abbreviation OW := (OFFSET_WIDTH G).
Local Abbreviation TD := (TABLES_DEPTH G).
Local Abbreviation NF := (NUM_FRAMES G).

(** [f] is the frame at the end of the path [q] from the root; paths
    have at most [TABLES_DEPTH] steps. *)
Definition reach (m : Z -> Z) (q : list Z) (f : Z) : Prop :=
  valid_path G q /\ (length q <= TD)%nat /\ walk G m 0 q = Some f.

(** The frames referenced by the tree are those of [Fr], each by one
    path only, and the leaves hold pages of the virtual memory. *)
Record tree_shape (m : Z -> Z) (Fr : Z -> Prop) : Prop := {
  shape_frames : forall f, Fr f <-> exists q, q <> [] /\ reach m q f;
  shape_unique : forall q1 q2 f, reach m q1 f -> reach m q2 f -> q1 = q2;
  shape_pages : forall q f, reach m q f -> length q = TD ->
                            page_of_path G 0 q < NUM_PAGES G
}.

(** Invariant between two steps of the translator: the referenced
    frames are [1 .. k]. *)
Definition tree_inv (m : Z -> Z) (k : Z) : Prop :=
  0 <= k < NF /\ tree_shape m (fun f => 1 <= f <= k).

(** Word [x] of page [p]: in the leaf frame when the page is resident,
    else in the backing store, else zero. *)
Definition content (m : Z -> Z) (sw : Z -> option (Z -> Z)) (p x : Z) : Z :=
  match walk G m 0 (digits G TD p) with
  | Some F => m (F * PS + x)
  | None => match sw p with
            | Some c => c x
            | None => 0
            end
  end.

Definition page_content (pm : PhysMem) (p x : Z) : Z :=
  content (RAM pm) (swapFile pm) p x.

Definition vmem (pm : PhysMem) (va : Z) : Z :=
  page_content pm (va / PS) (va mod PS).

Definition is_prefix (q q' : list Z) : Prop := exists r, q' = q ++ r.

(** State in which the translator installs the frame [F]: the tree
    references the frames [1 .. k'] but [F], the walk has reached [cur]
    along [pre], and the slot [o] of [cur] is empty. *)
Definition finder_post (pm : PhysMem) (pre : list Z) (cur o : Z)
  (pm2 : PhysMem) (F k k' : Z) : Prop :=
  0 <= k' < NF /\ 1 <= F <= k' /\ k <= k' /\
  tree_shape (RAM pm2) (fun f => 1 <= f <= k' /\ f <> F) /\
  reach (RAM pm2) pre cur /\
  RAM pm2 (cur * PS + o) = 0 /\
  (forall p x, 0 <= p < NUM_PAGES G -> 0 <= x < PS ->
               page_content pm2 p x = page_content pm p x).

Inductive VMop : Type :=
| OpRead (va : Z)
| OpWrite (va value : Z).

(** Virtual addresses have type [uint64_t]. *)
Definition op_addr (op : VMop) : Z :=
  match op with
  | OpRead va => va
  | OpWrite va _ => va
  end.

Definition wf_op (op : VMop) : Prop := 0 <= op_addr op < 2 ^ 64.

Definition run_op (pm : PhysMem) (op : VMop) : PhysMem :=
  match op with
  | OpRead va => snd (VMread G va 0 pm)
  | OpWrite va value => snd (VMwrite G va value pm)
  end.

Definition run_ops (ops : list VMop) (pm : PhysMem) : PhysMem :=
  fold_left run_op ops pm.

(** States after [VMinitialize] and any sequence of reads and writes. *)
Definition reachable (pm : PhysMem) : Prop :=
  exists pm0 ops, Forall wf_op ops /\ pm = run_ops ops (VMinitialize G pm0).

(** States at the head of the loop of [find_physical_address], index
    [i], with [cur] the frame reached so far. *)
Inductive walking (va : Z) : nat -> Z -> PhysMem -> Prop :=
| walking_start (pm : PhysMem) :
    reachable pm -> 0 <= va < VIRTUAL_MEMORY_SIZE G ->
    walking va 0 0 pm
| walking_step (i : nat) (cur : Z) (pm : PhysMem) :
    walking va i cur pm -> (i < TD)%nat ->
    walking va (S i)
      (fst (translate_step G (init_offsets G va) i
              (init_args cur (Z.shiftr va OW)) pm))
      (snd (translate_step G (init_offsets G va) i
              (init_args cur (Z.shiftr va OW)) pm)).

(** The frame the translator installs when the slot it reads in state
    [pm] is empty, and the state in which the finder leaves the memory. *)
Definition finder_call (va : Z) (i : nat) (cur : Z) (pm : PhysMem)
  : SearchArguments * PhysMem :=
  find_next_frame G TD (init_args cur (Z.shiftr va OW)) 0 0 0 0
    (snd (PMread (cur * PS + nth i (init_offsets G va) 0) pm)).

Definition finder_frame (va : Z) (i : nat) (cur : Z) (pm : PhysMem) : Z :=
  let args1 := fst (finder_call va i cur pm) in
  chosen_frame (set_maxFrame args1 (maxFrame args1 + 1)) 0.

(** Slot [i] of a table [g] of the tree holds the non-zero value [v]. *)
Definition table_slot (m : Z -> Z) (g i v : Z) : Prop :=
  exists q, reach m q g /\ (length q < TD)%nat /\ 0 <= i < PS /\
            m (g * PS + i) = v /\ v <> 0.

Definition referenced (m : Z -> Z) (f : Z) : Prop :=
  exists g i, table_slot m g i f.

(** No frame occurs in two slots of the tree. *)
Definition in_degree_le_1 (m : Z -> Z) : Prop :=
  forall g1 i1 g2 i2 v,
    table_slot m g1 i1 v -> table_slot m g2 i2 v -> g1 = g2 /\ i1 = i2.

(** No frame of the tree is below itself, and none refers to the root. *)
Definition acyclic (m : Z -> Z) : Prop :=
  forall q f r,
    reach m q f -> r <> [] -> valid_path G r ->
    (length (q ++ r) <= TD)%nat ->
    walk G m f r <> Some f /\ walk G m f r <> Some 0.

End TreeInvariant.

(** ** The priority rule *)

Section PriorityRule.

Variable G : Geometry.

Local Abbreviation PS := (PAGE_SIZE G).
Local Abbreviation OW := (OFFSET_WIDTH G).
Local Abbreviation TD := (TABLES_DEPTH G).
Local Abbreviation NF := (NUM_FRAMES G).

(** [M] is the largest frame referenced from the tree, 0 for a tree
    without any. *)
Definition max_seen (m : Z -> Z) (M : Z) : Prop :=
  0 <= M /\
  (forall q e, q <> [] -> reach G m q e -> e <= M) /\
  (M = 0 \/ exists q, q <> [] /\ reach G m q M).

(** No table of the tree, the root and the protected frame apart, has
    all its slots zero. *)
Definition no_empty_table (m : Z -> Z) (protectedFrame : Z) : Prop :=
  forall q e, q <> [] -> reach G m q e -> (length q < TD)%nat ->
              ~ eligible G m protectedFrame e.

(** The victim the traversal records when it visits every leaf. *)
Definition best_victim (m : Z -> Z) (page : Z) : Z * Z * Z * Z :=
  fold_left (victim_step G page) (leaves G m TD 0 0 0 0) (0, 0, 0, 0).

(** Outcome of a call of the finder on any memory, with the victim as
    the traversal records it. *)
Definition priority_rule (pm : PhysMem) (cur page : Z) : Prop :=
  let m := RAM pm in
  let res := find_next_frame G TD (init_args cur page) 0 0 0 0 pm in
  let F := chosen_frame (set_maxFrame (fst res) (maxFrame (fst res) + 1)) 0 in
  (priority (fst res) = 1 /\
   exists q e,
     q <> [] /\ (length q < TD)%nat /\ reach G m q e /\
     eligible G m cur e /\ F = e /\
     RAM (snd res) = upd m (slot_addr G m 0 0 0 q) 0 /\
     swapFile (snd res) = swapFile pm)
  \/
  (no_empty_table m cur /\
   exists M,
     max_seen m M /\ maxFrame (fst res) = M /\
     victim_of (fst res) = best_victim m page /\
     ((M + 1 < NF /\ priority (fst res) = 2 /\ F = M + 1 /\
       RAM (snd res) = m /\ swapFile (snd res) = swapFile pm)
      \/
      (NF <= M + 1 /\ priority (fst res) = 3 /\
       F = maxCyclicFrame (fst res) /\
       exists pm1,
         RAM pm1 = m /\ swapFile pm1 = swapFile pm /\
         snd res = PMevict G (maxCyclicFrame (fst res))
                     (maxCyclicPage (fst res))
                     (PMwrite (maxCyclicParent (fst res)) 0 pm1)))).

End PriorityRule.

(** ** Example configurations *)

(** The geometry of the scenarios of the specification: 16 words per
    page, 4 frames, 16 pages, one level of tables. *)
Definition G_spec : Geometry := mkGeometry 4 6 8.

(** A geometry with three levels of tables: 2 words per page, 4 frames,
    8 pages. *)
Definition G_deep : Geometry := mkGeometry 1 3 4.

(** A geometry within the ranges of the specification whose tables are
    as deep as there are frames: 2 words per page, 2 frames, 4 pages,
    two levels of tables. *)
Definition G_small : Geometry := mkGeometry 1 2 3.

(** A geometry within the ranges of the specification whose tables are
    deeper than there are frames: 2 words per page, 2 frames, 8 pages,
    three levels of tables. *)
Definition G_tiny : Geometry := mkGeometry 1 2 4.

(** A geometry with more pages than an [int] counts: 2^16 words per
    page, 16 frames, 2^33 pages, three levels of tables. *)
Definition G_wide : Geometry := mkGeometry 16 20 49.

(** A geometry with more frames than levels of tables and more pages
    than an [int] counts: 64 words per page, 8 frames, 2^33 pages, six
    levels of tables. *)
Definition G_far : Geometry := mkGeometry 6 9 39.

(** The ranges the specification gives for the constants. *)
Definition valid_geometry (G : Geometry) : Prop :=
  1 <= OFFSET_WIDTH G /\
  OFFSET_WIDTH G < PHYSICAL_ADDRESS_WIDTH G /\
  OFFSET_WIDTH G < VIRTUAL_ADDRESS_WIDTH G /\
  2 <= NUM_FRAMES G.

(** A memory that was never initialised, with an empty backing store. *)
Definition pm_garbage : PhysMem :=
  mkPhysMem (fun a => a + 1) (fun _ => None) [].

(** The call addresses a word or a frame of the physical memory, and a
    page of the virtual memory. *)
Definition event_in_memory (G : Geometry) (e : PMEvent) : bool :=
  match e with
  | EvRead addr | EvWrite addr _ =>
      (0 <=? addr) && (addr <? NUM_FRAMES G * PAGE_SIZE G)
  | EvEvict frame page | EvRestore frame page =>
      (0 <=? frame) && (frame <? NUM_FRAMES G) &&
      (0 <=? page) && (page <? NUM_PAGES G)
  end.

(** Every call logged so far stayed inside the memory. *)
Definition in_memory (G : Geometry) (pm : PhysMem) : bool :=
  forallb (event_in_memory G) (events pm).

Definition ops_three : list VMop :=
  [OpWrite 0 1; OpWrite 16 2; OpWrite 32 3].

(** Pages 0, 1 and 2 written: every frame is in use. *)
Definition pm_three : PhysMem :=
  run_ops G_spec ops_three (VMinitialize G_spec pm_garbage).

Definition ops_two : list VMop := [OpWrite 0 1; OpWrite 32 3].

(** Pages 0 and 2 written: they are at the same distance from page 1. *)
Definition pm_two : PhysMem :=
  run_ops G_spec ops_two (VMinitialize G_spec pm_garbage).

Definition ops_deep : list VMop :=
  [OpWrite 0 1; OpWrite 15 2; OpWrite 6 3; OpRead 9].

Definition pm_deep : PhysMem :=
  run_ops G_deep ops_deep (VMinitialize G_deep pm_garbage).

(** First step of the translation of address 0 in the small geometry,
    right after initialisation. *)
Definition small_step : Z * PhysMem :=
  translate_step G_small (init_offsets G_small 0) 0
    (init_args 0 (Z.shiftr 0 (OFFSET_WIDTH G_small)))
    (VMinitialize G_small pm_garbage).

(** The small geometry after [VMwrite(0, 2)]. *)
Definition pm_small2 : PhysMem :=
  run_ops G_small [OpWrite 0 2] (VMinitialize G_small pm_garbage).

(** The tiny geometry after [VMwrite(0, 1)]. *)
Definition pm_tiny : PhysMem :=
  run_ops G_tiny [OpWrite 0 1] (VMinitialize G_tiny pm_garbage).

(** Two neighbouring pages at more than 2^31 pages from page 0. *)
Definition ops_far : list VMop :=
  [OpWrite ((2 ^ 31 + 2 ^ 10) * 64) 1; OpWrite ((2 ^ 31 + 2 ^ 10 + 1) * 64) 1].

(** The two pages written: their five tables and two leaves take every
    frame but the root. *)
Definition pm_far : PhysMem :=
  run_ops G_far ops_far (VMinitialize G_far pm_garbage).

(** Second step of the translation of address 12 in the deep geometry:
    the root refers to frame 3, whose slot for the address is empty. *)
Definition deep_step : Z * PhysMem :=
  translate_step G_deep (init_offsets G_deep 12) 0
    (init_args 0 (Z.shiftr 12 (OFFSET_WIDTH G_deep))) pm_deep.

(** ** Calls of the physical memory *)

(** The writes of a loop that zeroes [cnt] words from physical address
    [a] on, newest first. *)
Definition zero_writes (a : Z) (cnt : nat) : list PMEvent :=
  rev (map (fun n => EvWrite (a + Z.of_nat n) 0) (seq 0 cnt)).

(** Addresses of the slots of the tables met less than [b] levels below
    frame [f]. *)
Definition table_addr (G : Geometry) (m : Z -> Z) (b : nat) (f : Z) (a : Z)
  : Prop :=
  exists q g j, valid_path G q /\ (length q < b)%nat /\
                walk G m f q = Some g /\ 0 <= j < PAGE_SIZE G /\
                a = g * PAGE_SIZE G + j.

(** A list of reads at addresses of [P]. *)
Definition reads_of (P : Z -> Prop) (l : list PMEvent) : Prop :=
  Forall (fun e => exists a, e = EvRead a /\ P a) l.

(** Calls of the physical memory by a traversal below a frame other
    than the root: reads of table slots, and a last write of zero, at an
    address of [wr], when the first priority was met. *)
Definition traffic_below (G : Geometry) (m : Z -> Z) (b : nat) (f : Z)
  (wr : Z -> Prop) (args : SearchArguments) (pm : PhysMem)
  (res : SearchArguments * PhysMem) : Prop :=
  exists reads,
    reads_of (table_addr G m b f) reads /\
    ((priority (fst res) = 1 /\
      exists a, wr a /\
                events (snd res) = EvWrite a 0 :: reads ++ events pm) \/
     (priority (fst res) = priority args /\
      events (snd res) = reads ++ events pm)).

(** Calls of the physical memory by a call of the finder on the root:
    reads of table slots, then nothing more (second priority), a write
    of zero to a table slot (first priority), or a write of zero to the
    parent slot of the victim followed by its eviction (third
    priority). *)
Definition finder_traffic (G : Geometry) (pm : PhysMem)
  (res : SearchArguments * PhysMem) : Prop :=
  exists reads,
    reads_of (table_addr G (RAM pm) (TABLES_DEPTH G) 0) reads /\
    ((priority (fst res) = 1 /\
      exists a, table_addr G (RAM pm) (TABLES_DEPTH G) 0 a /\
                events (snd res) = EvWrite a 0 :: reads ++ events pm) \/
     (priority (fst res) = 2 /\ events (snd res) = reads ++ events pm) \/
     (priority (fst res) = 3 /\
      events (snd res) =
      EvEvict (maxCyclicFrame (fst res)) (maxCyclicPage (fst res))
      :: EvWrite (maxCyclicParent (fst res)) 0 :: reads ++ events pm)).

(** Every call of the list stays inside the memory. *)
Definition safe (G : Geometry) (l : list PMEvent) : Prop :=
  Forall (fun e => event_in_memory G e = true) l.

(** The calls logged since the log was [old] stay inside the memory. *)
Definition safe_since (G : Geometry) (old l : list PMEvent) : Prop :=
  exists calls, l = calls ++ old /\ safe G calls.

(** The words of the leaves of the tree: the frames at the end of a
    path of [TABLES_DEPTH] slots from the root. *)
Definition leaf_word (G : Geometry) (m : Z -> Z) (a : Z) : Prop :=
  exists q F x, reach G m q F /\ length q = TABLES_DEPTH G /\
                0 <= x < PAGE_SIZE G /\ a = F * PAGE_SIZE G + x.

(** ** The cyclic distance of the specification *)

(** The distance between two pages as section 4.3 of the specification
    and the comment of [cyclic_distance] give it: the shorter of the two
    arcs between them on a ring of [NUM_PAGES] pages. *)
Definition cyclic (G : Geometry) (p1 p2 : Z) : Z :=
  Z.min (Z.abs (p1 - p2)) (NUM_PAGES G - Z.abs (p1 - p2)).

(** ** A flat memory *)

(** What an operation does to an array of words indexed by virtual
    address: a write below [VIRTUAL_MEMORY_SIZE] stores its word, any
    other operation leaves the array as it is. *)
Definition flat_op (G : Geometry) (mem : Z -> Z) (op : VMop) : Z -> Z :=
  match op with
  | OpRead _ => mem
  | OpWrite va v => if va <? VIRTUAL_MEMORY_SIZE G then upd mem va v else mem
  end.

Definition flat_run (G : Geometry) (ops : list VMop) (mem : Z -> Z) : Z -> Z :=
  fold_left (flat_op G) ops mem.

(** * Proofs *)

Ltac splits := repeat match goal with |- _ /\ _ => split end.

Ltac zbool :=
  repeat match goal with
    | |- context [?a <=? ?b] => destruct (Z.leb_spec a b)
    | |- context [?a <? ?b] => destruct (Z.ltb_spec a b)
    | |- context [?a =? ?b] => destruct (Z.eqb_spec a b)
    end;
  cbn [andb negb orb]; try lia; try reflexivity.

(** ** The traversal of [find_next_frame] *)

Section Traversal.

Variable G : Geometry.

Local Abbreviation PS := (PAGE_SIZE G).
Local Abbreviation OW := (OFFSET_WIDTH G).

Lemma walk_cons (m : Z -> Z) (f i : Z) (q : list Z) :
  m (f * PS + i) <> 0 ->
  walk G m f (i :: q) = walk G m (m (f * PS + i)) q.
Proof.
  intros H. simpl.
  destruct (Z.eqb_spec (m (f * PS + i)) 0); [easy | reflexivity].
Qed.

Lemma walk_cons_some (m : Z -> Z) (f i e : Z) (q : list Z) :
  walk G m f (i :: q) = Some e ->
  m (f * PS + i) <> 0 /\ walk G m (m (f * PS + i)) q = Some e.
Proof.
  simpl. destruct (Z.eqb_spec (m (f * PS + i)) 0); [discriminate | auto].
Qed.

Lemma walk_app (m : Z -> Z) (q1 q2 : list Z) (f : Z) :
  walk G m f (q1 ++ q2) =
  match walk G m f q1 with
  | Some g => walk G m g q2
  | None => None
  end.
Proof.
  revert f. induction q1 as [|i q1 IH]; intros f; simpl; [reflexivity|].
  destruct (m (f * PS + i) =? 0); auto.
Qed.

Lemma is_root_empty_spec (cnt : nat) (i f : Z) (pm : PhysMem) :
  RAM (snd (is_root_empty G cnt i f pm)) = RAM pm /\
  swapFile (snd (is_root_empty G cnt i f pm)) = swapFile pm /\
  (fst (is_root_empty G cnt i f pm) = true <->
   forall j, i <= j < i + Z.of_nat cnt -> RAM pm (f * PS + j) = 0).
Proof.
  revert i pm. induction cnt as [|c IH]; intros i pm.
  - simpl. repeat split; auto. intros; lia.
  - cbn [is_root_empty PMread].
    destruct (Z.eqb_spec (RAM pm (f * PS + i)) 0) as [E|E].
    + destruct (IH (i + 1)
                   (mkPhysMem (RAM pm) (swapFile pm)
                      (EvRead (f * PS + i) :: events pm))) as (A & B & C).
      cbn [RAM swapFile] in A, B, C. repeat split; auto.
      * intros H j Hj. destruct (Z.eq_dec j i) as [->|]; auto.
        apply C; auto. lia.
      * intros H. apply C. intros j Hj. apply H. lia.
    + cbn [fst snd RAM swapFile]. repeat split; auto; try discriminate.
      intros H. exfalso. apply E, H. lia.
Qed.

Section Loop.

Variable rec : SearchArguments -> Z -> Z -> Z -> Z -> PhysMem
               -> SearchArguments * PhysMem.
Variable b : nat.

Hypothesis Hrec :
  forall args f cv parent off pm,
    f <> 0 -> priority args <> 1 ->
    search_post G (tested b) (seen b) (leaves G (RAM pm) b f cv parent off)
                (RAM pm) args f parent off pm (rec args f cv parent off pm).

Lemma search_children_spec (cnt : nat) :
  forall i args pm f cv parent off,
    Z.of_nat cnt + i = PS -> 0 <= i -> priority args <> 1 ->
    (fst (fst (search_children G rec cnt i f cv args pm)) = true <->
     priority (snd (fst (search_children G rec cnt i f cv args pm))) = 1) /\
    search_post G (tested_from b i) (seen_from b i)
      (leaves_children G (leaves G (RAM pm) b) (RAM pm) cnt i f cv)
      (RAM pm) args f parent off pm
      (snd (fst (search_children G rec cnt i f cv args pm)),
       snd (search_children G rec cnt i f cv args pm)).
Proof.
  induction cnt as [|c IH]; intros i args pm f cv parent off Hcnt Hi Hp.
  - cbn. split; [split; [discriminate | congruence]|].
    unfold search_post; cbn [fst snd]. splits; auto.
    right. unfold search_missed. splits; auto; try lia.
    + intros [|j q] e Hq Hv _; cbn in Hq; [easy|].
      inversion Hv; subst. lia.
    + intros [|j q] e Hq Hv _; cbn in Hq; [easy|].
      inversion Hv; subst. lia.
  - cbn [search_children PMread].
    set (pm1 := mkPhysMem (RAM pm) (swapFile pm)
                  (EvRead (f * PS + i) :: events pm)).
    set (m := RAM pm).
    destruct (Z.eqb_spec (m (f * PS + i)) 0) as [E|E].
    + destruct (IH (i + 1) args pm1 f cv parent off) as [A B]; try lia; auto.
      change (RAM pm1) with m in B.
      split; [exact A|].
      cbn [leaves_children]. rewrite E. cbn [Z.eqb app].
      destruct B as (B1 & B2 & B3 & B4). cbn [fst snd] in *.
      unfold search_post; cbn [fst snd]. splits; auto.
      destruct B4 as [B4|B4]; [left|right].
      * destruct B4 as (C1 & q & e & C2 & C3 & C4 & C5 & C6 & C7).
        split; auto. exists q, e. splits; auto.
        destruct q as [|j q]; cbn in *; [easy|]. split; [lia|tauto].
      * destruct B4 as (C1 & C2 & C3 & C4 & C5 & C6 & C7 & C8).
        unfold search_missed. splits; auto.
        -- intros [|j q] e Hq Hv Hw; cbn in Hq; [easy|].
           destruct (Z.eq_dec j i) as [->|Hne].
           ++ cbn in Hw. rewrite E in Hw. discriminate.
           ++ apply (C4 (j :: q)); auto. cbn. split; [lia|tauto].
        -- intros [|j q] e Hq Hv Hw; cbn in Hq; [easy|].
           destruct (Z.eq_dec j i) as [->|Hne].
           ++ cbn in Hw. rewrite E in Hw. discriminate.
           ++ apply (C6 (j :: q)); auto. cbn. split; [lia|tauto].
        -- destruct C7 as [C7|(q & D1 & D2 & D3)]; [left; auto|right].
           exists q. splits; auto.
           destruct q as [|j q]; cbn in *; [easy|]. split; [lia|tauto].
    + set (v := m (f * PS + i)) in *.
      set (args1 := if v >=? maxFrame args then set_maxFrame args v else args).
      assert (Hp1 : priority args1 <> 1).
      { unfold args1. destruct (v >=? maxFrame args); auto. }
      assert (Hc1 : currentFrame args1 = currentFrame args).
      { unfold args1. destruct (v >=? maxFrame args); auto. }
      assert (Hn1 : pageNumber args1 = pageNumber args).
      { unfold args1. destruct (v >=? maxFrame args); auto. }
      assert (He1 : emptyFrame args1 = emptyFrame args).
      { unfold args1. destruct (v >=? maxFrame args); auto. }
      assert (Hv1 : victim_of args1 = victim_of args).
      { unfold args1. destruct (v >=? maxFrame args); auto. }
      assert (Hpr1 : priority args1 = priority args).
      { unfold args1. destruct (v >=? maxFrame args); auto. }
      assert (Hm1 : maxFrame args <= maxFrame args1 /\ v <= maxFrame args1 /\
                    (maxFrame args1 = maxFrame args \/ maxFrame args1 = v)).
      { unfold args1. destruct (Z.geb_spec v (maxFrame args)); cbn; lia. }
      pose proof (Hrec args1 v (Z.shiftl cv OW + i) f i pm1 E Hp1) as R.
      change (RAM pm1) with m in R.
      destruct (rec args1 v (Z.shiftl cv OW + i) f i pm1) as [args2 pm2].
      destruct R as (R1 & R2 & R3 & R4). cbn [fst snd] in R1, R2, R3, R4.
      unfold pm1 in R1; cbn [swapFile] in R1.
      cbn [leaves_children]. fold v.
      destruct (Z.eqb_spec v 0) as [|_]; [easy|].
      destruct R4 as [R4|R4].
      * destruct R4 as (C1 & q & e & C2 & C3 & C4 & C5 & C6 & C7).
        rewrite C1, Z.eqb_refl. cbn [fst snd]. split; [tauto|].
        unfold search_post; cbn [fst snd]. splits; try congruence.
        left. split; auto. exists (i :: q), e. splits; auto.
        -- cbn. split; [lia|exact C2].
        -- constructor; auto. lia.
        -- rewrite walk_cons; auto.
        -- rewrite <- Hc1. exact C5.
      * destruct R4 as (C1 & C2 & C3 & C4 & C5 & C6 & C7 & C8).
        assert (Hp2 : priority args2 <> 1) by congruence.
        destruct (Z.eqb_spec (priority args2) 1) as [|_]; [easy|].
        destruct (IH (i + 1) args2 pm2 f cv parent off) as [A B]; try lia; auto.
        split; [exact A|].
        rewrite C3 in B.
        destruct B as (B1 & B2 & B3 & B4). cbn [fst snd] in *.
        unfold search_post; cbn [fst snd]. splits; try congruence.
        destruct B4 as [B4|B4]; [left|right].
        -- destruct B4 as (D1 & q' & e & D2 & D3 & D4 & D5 & D6 & D7).
           split; auto. exists q', e. splits; auto.
           ++ destruct q' as [|j q']; cbn in *; [easy|]. split; [lia|tauto].
           ++ rewrite <- Hc1, <- R2. exact D5.
        -- destruct B4 as (D1 & D2 & D3 & D4 & D5 & D6 & D7 & D8).
           unfold search_missed. splits; try congruence; try lia.
           ++ intros [|j q] e Hq Hv Hw; cbn in Hq; [easy|].
              destruct (Z.eq_dec j i) as [->|Hne].
              ** rewrite walk_cons in Hw; auto. rewrite <- Hc1.
                 apply (C4 q e); auto. tauto. inversion Hv; auto.
              ** rewrite <- Hc1, <- R2. apply (D4 (j :: q)); auto.
                 cbn. split; [lia|tauto].
           ++ intros [|j q] e Hq Hv Hw; cbn in Hq; [easy|].
              destruct (Z.eq_dec j i) as [->|Hne].
              ** rewrite walk_cons in Hw; auto. fold v in Hw.
                 destruct q as [|k q].
                 --- cbn in Hw. injection Hw as <-. lia.
                 --- assert (e <= maxFrame args2); [|lia].
                     apply (C6 (k :: q)); auto.
                     +++ unfold seen. cbn [length] in *. lia.
                     +++ inversion Hv; auto.
              ** apply (D6 (j :: q)); auto. cbn. split; [lia|tauto].
           ++ destruct D7 as [D7|(q & E1 & E2 & E3)].
              ** rewrite D7.
                 destruct C7 as [C7|(q & E1 & E2 & E3)].
                 --- rewrite C7.
                     destruct Hm1 as (_ & _ & [Hm|Hm]); [left; auto|].
                     right. exists [i]. splits.
                     +++ cbn. lia.
                     +++ constructor; [lia|constructor].
                     +++ rewrite walk_cons; auto. cbn. fold v. congruence.
                 --- right. exists (i :: q). splits.
                     +++ unfold seen in E1. cbn. lia.
                     +++ constructor; auto. lia.
                     +++ rewrite walk_cons; auto.
              ** right. exists q. splits; auto.
                 destruct q as [|j q]; cbn in *; [easy|]. split; [lia|tauto].
           ++ rewrite D8, R3, Hn1, C8, Hv1, Hn1. rewrite fold_left_app.
              reflexivity.
Qed.

End Loop.

Hypothesis HOW : 1 <= OW.

Lemma PAGE_SIZE_pos : 2 <= PS.
Proof.
  unfold PAGE_SIZE. change 2 with (2 ^ 1) at 1.
  apply Z.pow_le_mono_r; lia.
Qed.

Lemma update_max_cyclic_distance_victim (args : SearchArguments)
  (f cv parent off : Z) :
  victim_of (update_max_cyclic_distance G args f cv parent off) =
  victim_step G (pageNumber args) (victim_of args) (f, cv, parent * PS + off).
Proof.
  unfold update_max_cyclic_distance, victim_step, victim_of.
  destruct (cyclic_distance G (pageNumber args) cv >=? maxCyclicDist args);
    reflexivity.
Qed.

Lemma update_max_cyclic_distance_fields (args : SearchArguments)
  (f cv parent off : Z) :
  let a := update_max_cyclic_distance G args f cv parent off in
  currentFrame a = currentFrame args /\ pageNumber a = pageNumber args /\
  priority a = priority args /\ emptyFrame a = emptyFrame args /\
  maxFrame a = maxFrame args.
Proof.
  unfold update_max_cyclic_distance.
  destruct (cyclic_distance G (pageNumber args) cv >=? maxCyclicDist args);
    cbn; auto.
Qed.

(** What a call of [find_next_frame] on a frame other than the root does. *)
Lemma find_next_frame_spec (b : nat) :
  forall args f cv parent off pm,
    f <> 0 -> priority args <> 1 ->
    search_post G (tested b) (seen b) (leaves G (RAM pm) b f cv parent off)
                (RAM pm) args f parent off pm
                (find_next_frame G b args f cv parent off pm).
Proof.
  pose proof PAGE_SIZE_pos as HPS.
  induction b as [|b IH]; intros args f cv parent off pm Hf Hp.
  - cbn [find_next_frame leaves].
    destruct (update_max_cyclic_distance_fields args f cv parent off)
      as (F1 & F2 & F3 & F4 & F5).
    unfold search_post; cbn [fst snd]. splits; auto.
    right. unfold search_missed. splits; auto; try lia.
    + unfold tested. intros; lia.
    + unfold seen. intros; lia.
    + cbn [fold_left]. apply update_max_cyclic_distance_victim.
  - cbn [find_next_frame leaves].
    destruct (is_root_empty_spec (Z.to_nat PS) 0 f pm) as (A1 & A2 & A3).
    destruct (is_root_empty G (Z.to_nat PS) 0 f pm) as [isEmpty pm1].
    cbn [fst snd] in A1, A2, A3.
    destruct (Z.eqb_spec f 0) as [|_]; [easy|]. cbn [negb andb].
    destruct (negb (f =? currentFrame args) && isEmpty) eqn:Hc.
    + apply andb_prop in Hc. destruct Hc as [Hc1 Hc2]. subst isEmpty.
      apply negb_true_iff in Hc1. apply Z.eqb_neq in Hc1.
      unfold search_post; cbn [fst snd PMwrite swapFile RAM currentFrame
        pageNumber set_priority set_emptyFrame]. splits; auto.
      left. split; [reflexivity|]. exists [], f. splits.
      * unfold tested; cbn; lia.
      * constructor.
      * reflexivity.
      * unfold eligible. splits; auto. intros j Hj.
        apply A3; auto. lia.
      * reflexivity.
      * cbn. rewrite A1. reflexivity.
    + destruct (search_children_spec (find_next_frame G b) b IH
                  (Z.to_nat PS) 0 args pm1 f cv parent off) as [B1 B2];
        try lia; auto.
      rewrite A1 in B2.
      destruct (search_children G (find_next_frame G b) (Z.to_nat PS) 0 f cv
                  args pm1) as [[returned args1] pm2].
      cbn [fst snd] in B1, B2.
      enough (Hres : search_post G (tested (S b)) (seen (S b))
                (leaves_children G (leaves G (RAM pm) b) (RAM pm)
                   (Z.to_nat PS) 0 f cv)
                (RAM pm) args f parent off pm (args1, pm2))
        by (destruct returned; exact Hres).
      destruct B2 as (C1 & C2 & C3 & C4).
      unfold search_post; cbn [fst snd] in *. splits; try congruence.
      destruct C4 as [C4|C4]; [left|right].
      * destruct C4 as (D1 & q & e & D2 & D3 & D4 & D5 & D6 & D7).
        split; auto. exists q, e. splits; auto.
        destruct q as [|j q]; cbn in D2; [easy|].
        unfold tested in *. cbn [length]. lia.
      * destruct C4 as (D1 & D2 & D3 & D4 & D5 & D6 & D7 & D8).
        unfold search_missed. splits; auto.
        -- intros [|j q] e Hq Hv Hw.
           ++ cbn in Hw. injection Hw as <-. intros (E1 & E2 & E3).
              apply andb_false_iff in Hc. destruct Hc as [Hc|Hc].
              ** apply negb_false_iff in Hc. apply Z.eqb_eq in Hc. easy.
              ** subst isEmpty. assert (false = true); [|discriminate].
                 apply A3. intros j Hj. apply E3. lia.
           ++ apply (D4 (j :: q)); auto. inversion Hv; subst.
              cbn [tested_from]. unfold tested in *. cbn [length] in *. lia.
        -- intros [|j q] e Hq Hv Hw; unfold seen in Hq; cbn in Hq; [lia|].
           apply (D6 (j :: q)); auto. inversion Hv; subst.
           cbn [seen_from]. lia.
        -- destruct D7 as [D7|(q & E1 & E2 & E3)]; [left; auto|right].
           exists q. splits; auto.
           destruct q as [|j q]; cbn in E1; [easy|].
           unfold seen. cbn [length]. lia.
Qed.

(** The call on the root: the loop over the slots of frame 0, then
    [empty_frame_not_found] unless the first priority was met. *)
Lemma find_next_frame_root (b : nat) (args : SearchArguments) (pm : PhysMem) :
  priority args <> 1 ->
  exists args1 pm1,
    search_post G (tested_from b 0) (seen_from b 0)
                (leaves G (RAM pm) (S b) 0 0 0 0) (RAM pm) args 0 0 0 pm
                (args1, pm1) /\
    find_next_frame G (S b) args 0 0 0 0 pm =
      if priority args1 =? 1 then (args1, pm1)
      else empty_frame_not_found G args1 pm1.
Proof.
  intros Hp. pose proof PAGE_SIZE_pos as HPS.
  cbn [find_next_frame leaves].
  destruct (is_root_empty_spec (Z.to_nat PS) 0 0 pm) as (A1 & A2 & A3).
  destruct (is_root_empty G (Z.to_nat PS) 0 0 pm) as [isEmpty pm1].
  cbn [fst snd] in A1, A2, A3. cbn [Z.eqb negb andb].
  destruct (search_children_spec (find_next_frame G b) b
              (find_next_frame_spec b)
              (Z.to_nat PS) 0 args pm1 0 0 0 0) as [B1 B2];
    try lia; auto.
  rewrite A1 in B2.
  destruct (search_children G (find_next_frame G b) (Z.to_nat PS) 0 0 0
              args pm1) as [[returned args1] pm2].
  cbn [fst snd] in B1, B2.
  exists args1, pm2. split.
  - destruct B2 as (C1 & C2 & C3 & C4).
    unfold search_post; cbn [fst snd] in *. splits; congruence.
  - destruct returned.
    + destruct B1 as [B1 _]. rewrite B1; auto.
    + destruct (Z.eqb_spec (priority args1) 1) as [E|E]; auto.
      apply B1 in E. discriminate.
Qed.

End Traversal.

(** ** Leaves and the recorded victim *)

Section Leaves.

Variable G : Geometry.

Local Abbreviation PS := (PAGE_SIZE G).
Local Abbreviation OW := (OFFSET_WIDTH G).

Lemma page_of_path_cons (cv i : Z) (q : list Z) :
  page_of_path G cv (i :: q) = page_of_path G (Z.shiftl cv OW + i) q.
Proof. reflexivity. Qed.

Lemma leaves_children_spec (rec : Z -> Z -> Z -> Z -> list (Z * Z * Z))
  (R : Z -> Z -> Z -> Z -> Z * Z * Z -> Prop) (m : Z -> Z) :
  (forall f cv parent off x,
      In x (rec f cv parent off) <-> R f cv parent off x) ->
  forall cnt i f cv x,
    In x (leaves_children G rec m cnt i f cv) <->
    exists j, i <= j < i + Z.of_nat cnt /\ m (f * PS + j) <> 0 /\
              R (m (f * PS + j)) (Z.shiftl cv OW + j) f j x.
Proof.
  intros Hrec. induction cnt as [|c IH]; intros i f cv x.
  - cbn. split; [easy|]. intros (j & Hj & _). lia.
  - cbn [leaves_children]. rewrite in_app_iff, IH. split.
    + intros [H|(j & Hj & H)].
      * destruct (Z.eqb_spec (m (f * PS + i)) 0) as [E|E]; [easy|].
        exists i. split; [lia|]. split; auto. apply Hrec; auto.
      * exists j. split; [lia|auto].
    + intros (j & Hj & Hm & H).
      destruct (Z.eq_dec j i) as [->|Hne].
      * left. destruct (Z.eqb_spec (m (f * PS + i)) 0) as [E|E]; [easy|].
        apply Hrec; auto.
      * right. exists j. split; [lia|auto].
Qed.

(** The leaves below [f] are the ends of the paths of full length. *)
Lemma leaves_spec (m : Z -> Z) (b : nat) :
  forall f cv parent off x,
    In x (leaves G m b f cv parent off) <->
    exists q, valid_path G q /\ length q = b /\
              x = (match walk G m f q with Some e => e | None => 0 end,
                   page_of_path G cv q, slot_addr G m f parent off q) /\
              walk G m f q <> None.
Proof.
  induction b as [|b IH]; intros f cv parent off x.
  - cbn. split.
    + intros [<-|[]]. exists []. splits; auto; try constructor. discriminate.
    + intros (q & Hv & Hl & -> & _). destruct q; [|discriminate]. now left.
  - cbn [leaves].
    rewrite (leaves_children_spec (leaves G m b)
               (fun f cv parent off x =>
                  exists q, valid_path G q /\ length q = b /\
                    x = (match walk G m f q with Some e => e | None => 0 end,
                         page_of_path G cv q, slot_addr G m f parent off q) /\
                    walk G m f q <> None) m IH).
    split.
    + intros (j & Hj & Hm & q & Hv & Hl & -> & Hw).
      exists (j :: q). splits.
      * constructor; auto. lia.
      * cbn. lia.
      * rewrite walk_cons; auto.
      * rewrite walk_cons; auto.
    + intros (q & Hv & Hl & -> & Hw).
      destruct q as [|j q]; [discriminate|].
      inversion Hv; subst.
      assert (Hm : m (f * PS + j) <> 0).
      { intros E. apply Hw. cbn. rewrite E. reflexivity. }
      exists j. split; [lia|]. split; auto.
      cbn in Hl. exists q. rewrite walk_cons in Hw |- *; auto.
Qed.

Lemma victim_step_cases (target : Z) (v : Z * Z * Z * Z) (l : Z * Z * Z) :
  (victim_dist v <= leaf_dist G target l /\
   victim_step G target v l = victim_of_leaf G target l) \/
  (leaf_dist G target l < victim_dist v /\ victim_step G target v l = v).
Proof.
  destruct v as [[[vf vd] vp] va]. destruct l as [[lf lp] la].
  unfold victim_step, victim_of_leaf, leaf_dist, victim_dist. cbn [fst snd].
  destruct (Z.geb_spec (cyclic_distance G target lp) vd); [left|right];
    split; auto; lia.
Qed.

(** The fold keeps the last leaf whose distance is at least the initial
    one and at least that of every other leaf. *)
Lemma victim_fold_spec (target : Z) (lv : list (Z * Z * Z))
  (v0 : Z * Z * Z * Z) :
  (fold_left (victim_step G target) lv v0 = v0 /\
   forall l, In l lv -> leaf_dist G target l < victim_dist v0) \/
  (exists l1 l l2,
      lv = l1 ++ l :: l2 /\
      fold_left (victim_step G target) lv v0 = victim_of_leaf G target l /\
      victim_dist v0 <= leaf_dist G target l /\
      (forall x, In x l1 -> leaf_dist G target x <= leaf_dist G target l) /\
      (forall x, In x l2 -> leaf_dist G target x < leaf_dist G target l)).
Proof.
  induction lv as [|x lv IH] using rev_ind.
  - left. split; [reflexivity|]. intros l [].
  - rewrite fold_left_app. cbn [fold_left].
    destruct (victim_step_cases target
                (fold_left (victim_step G target) lv v0) x) as [[A B]|[A B]];
      rewrite B.
    + right. exists lv, x, []. splits; auto.
      * destruct IH as [[C D]|(l1 & l & l2 & C & D & E & _)].
        -- rewrite C in A. exact A.
        -- rewrite D in A. unfold victim_of_leaf, victim_dist in A.
           cbn [fst snd] in A. lia.
      * intros y Hy.
        destruct IH as [[C D]|(l1 & l & l2 & C & D & E & F1 & F2)].
        -- rewrite C in A. specialize (D y Hy). lia.
        -- rewrite D in A. unfold victim_of_leaf, victim_dist in A.
           cbn [fst snd] in A. subst lv.
           apply in_app_iff in Hy. destruct Hy as [Hy|[<-|Hy]].
           ++ specialize (F1 y Hy). lia.
           ++ lia.
           ++ specialize (F2 y Hy). lia.
      * intros y [].
    + destruct IH as [[C D]|(l1 & l & l2 & C & D & E & F1 & F2)].
      * left. split; auto. intros l Hl. rewrite C in A.
        apply in_app_iff in Hl. destruct Hl as [Hl|[<-|[]]]; auto.
      * right. exists l1, l, (l2 ++ [x]). splits; auto.
        -- subst lv. rewrite <- app_assoc. reflexivity.
        -- intros y Hy. apply in_app_iff in Hy.
           destruct Hy as [Hy|[<-|[]]]; auto.
           rewrite D in A. unfold victim_of_leaf, victim_dist in A.
           cbn [fst snd] in A. exact A.
Qed.

End Leaves.

(** ** Address split *)

Section Split.

Variable G : Geometry.

Local Abbreviation PS := (PAGE_SIZE G).
Local Abbreviation OW := (OFFSET_WIDTH G).
Local Abbreviation TD := (TABLES_DEPTH G).

Hypothesis HOW : 1 <= OW.

Lemma digits_length (n : nat) (p : Z) : length (digits G n p) = n.
Proof.
  revert p. induction n as [|n IH]; intros p; cbn; auto.
  rewrite length_app, IH. cbn. lia.
Qed.

Lemma digits_valid (n : nat) (p : Z) : valid_path G (digits G n p).
Proof.
  pose proof (PAGE_SIZE_pos G HOW).
  revert p. induction n as [|n IH]; intros p; cbn; [constructor|].
  apply Forall_app. split; [apply IH|]. constructor; [|constructor].
  apply Z.mod_pos_bound. lia.
Qed.

Lemma init_offsets_loop_digits (cnt : nat) (va : Z) (acc : list Z) :
  init_offsets_loop G cnt va acc = digits G cnt va ++ acc.
Proof.
  revert va acc. induction cnt as [|c IH]; intros va acc; cbn; auto.
  rewrite IH, <- app_assoc. cbn.
  rewrite Z.shiftr_div_pow2 by lia.
  replace (PS - 1) with (Z.ones OW)
    by (unfold PAGE_SIZE; rewrite Z.ones_equiv; lia).
  rewrite Z.land_ones by lia. reflexivity.
Qed.

Lemma init_offsets_digits (va : Z) :
  init_offsets G va = digits G TD (va / PS) ++ [va mod PS].
Proof.
  unfold init_offsets. rewrite init_offsets_loop_digits, app_nil_r.
  reflexivity.
Qed.

Lemma shiftl_PS (c : Z) : Z.shiftl c OW = c * PS.
Proof. apply Z.shiftl_mul_pow2. lia. Qed.

Lemma page_of_path_snoc (cv x : Z) (q : list Z) :
  page_of_path G cv (q ++ [x]) = page_of_path G cv q * PS + x.
Proof.
  unfold page_of_path. rewrite fold_left_app. cbn. rewrite shiftl_PS.
  reflexivity.
Qed.

Lemma page_of_path_digits (n : nat) (p : Z) :
  0 <= p < PS ^ Z.of_nat n -> page_of_path G 0 (digits G n p) = p.
Proof.
  pose proof (PAGE_SIZE_pos G HOW).
  revert p. induction n as [|n IH]; intros p Hp.
  - cbn in *. lia.
  - cbn [digits]. rewrite page_of_path_snoc, IH.
    + pose proof (Z.div_mod p PS). lia.
    + rewrite Nat2Z.inj_succ, Z.pow_succ_r in Hp by lia.
      split; [apply Z.div_pos; lia|].
      apply Z.div_lt_upper_bound; lia.
Qed.

Lemma page_of_path_bound (q : list Z) :
  valid_path G q -> 0 <= page_of_path G 0 q < PS ^ Z.of_nat (length q).
Proof.
  pose proof (PAGE_SIZE_pos G HOW).
  induction q as [|x q IH] using rev_ind; intros Hv.
  - cbn. lia.
  - apply Forall_app in Hv. destruct Hv as [Hv Hx]. inversion Hx; subst.
    specialize (IH Hv). rewrite page_of_path_snoc, length_app. cbn [length].
    replace (Z.of_nat (length q + 1)) with (Z.succ (Z.of_nat (length q)))
      by lia.
    rewrite Z.pow_succ_r by lia. nia.
Qed.

Lemma digits_page_of_path (q : list Z) :
  valid_path G q -> digits G (length q) (page_of_path G 0 q) = q.
Proof.
  pose proof (PAGE_SIZE_pos G HOW).
  induction q as [|x q IH] using rev_ind; intros Hv.
  - reflexivity.
  - apply Forall_app in Hv. destruct Hv as [Hv Hx]. inversion Hx; subst.
    rewrite page_of_path_snoc, length_app. cbn [length].
    replace (length q + 1)%nat with (S (length q)) by lia.
    cbn [digits].
    replace ((page_of_path G 0 q * PS + x) / PS) with (page_of_path G 0 q).
    + rewrite IH by auto. f_equal. f_equal.
      rewrite Z.add_comm, Z.mod_add by lia. apply Z.mod_small. lia.
    + rewrite Z.add_comm, Z.div_add by lia.
      rewrite Z.div_small by lia. lia.
Qed.

Hypothesis HVAW : OW < VIRTUAL_ADDRESS_WIDTH G.

Lemma TABLES_DEPTH_pos : (1 <= TD)%nat.
Proof.
  unfold TABLES_DEPTH.
  assert (1 <= (VIRTUAL_ADDRESS_WIDTH G - OW + OW - 1) / OW); [|lia].
  apply Z.div_le_lower_bound; lia.
Qed.

Lemma NUM_PAGES_pow : NUM_PAGES G = 2 ^ (VIRTUAL_ADDRESS_WIDTH G - OW).
Proof.
  unfold NUM_PAGES, VIRTUAL_MEMORY_SIZE, PAGE_SIZE.
  rewrite <- Z.pow_sub_r; auto; lia.
Qed.

Lemma NUM_PAGES_le : NUM_PAGES G <= PS ^ Z.of_nat TD.
Proof.
  rewrite NUM_PAGES_pow. unfold PAGE_SIZE, TABLES_DEPTH.
  rewrite <- Z.pow_mul_r; try lia.
  - apply Z.pow_le_mono_r; try lia.
    rewrite Z2Nat.id by (apply Z.div_pos; lia).
    pose proof (Z.mul_div_le (VIRTUAL_ADDRESS_WIDTH G - OW + OW - 1) OW).
    pose proof (Z.mod_pos_bound (VIRTUAL_ADDRESS_WIDTH G - OW + OW - 1) OW).
    pose proof (Z.div_mod (VIRTUAL_ADDRESS_WIDTH G - OW + OW - 1) OW).
    lia.
Qed.

Lemma NUM_PAGES_pos : 0 < NUM_PAGES G.
Proof. rewrite NUM_PAGES_pow. apply Z.pow_pos_nonneg; lia. Qed.

(** Page of an address below [VIRTUAL_MEMORY_SIZE]. *)
Lemma page_in_range (va : Z) :
  0 <= va < VIRTUAL_MEMORY_SIZE G -> 0 <= va / PS < NUM_PAGES G.
Proof.
  pose proof (PAGE_SIZE_pos G HOW). intros Hva.
  split; [apply Z.div_pos; lia|].
  unfold NUM_PAGES. apply Z.div_lt_upper_bound; [lia|].
  assert (VIRTUAL_MEMORY_SIZE G = PS * (VIRTUAL_MEMORY_SIZE G / PS)); [|lia].
  unfold VIRTUAL_MEMORY_SIZE, PAGE_SIZE.
  rewrite <- Z.pow_sub_r, <- Z.pow_add_r; try lia. f_equal. lia.
Qed.

End Split.

(** ** [cyclic_distance] on page numbers *)

Section Distance.

Variable G : Geometry.

Hypothesis Hpages : NUM_PAGES G <= 2 ^ 31.

Lemma wrap64_small (z : Z) : 0 <= z <= 2 ^ 31 -> wrap64 z = z.
Proof.
  intros H. unfold wrap64. apply Z.mod_small.
  assert (2 ^ 31 < 2 ^ 64) by reflexivity. lia.
Qed.

Lemma to_int_small (z : Z) : 0 <= z < 2 ^ 31 -> to_int z = z.
Proof.
  intros H. unfold to_int.
  assert (2 ^ 32 = 2 * 2 ^ 31) by reflexivity.
  rewrite Z.mod_small; lia.
Qed.

Lemma cyclic_distance_min (p1 p2 : Z) :
  0 <= p1 < NUM_PAGES G -> 0 <= p2 < NUM_PAGES G ->
  cyclic_distance G p1 p2 =
  Z.min (Z.abs (p1 - p2)) (NUM_PAGES G - Z.abs (p1 - p2)).
Proof.
  intros H1 H2. unfold cyclic_distance.
  assert (Ha : (if p1 >? p2 then wrap64 (p1 - p2) else wrap64 (p2 - p1))
               = Z.abs (p1 - p2)).
  { destruct (Z.gtb_spec p1 p2); rewrite wrap64_small; lia. }
  rewrite Ha.
  rewrite (wrap64_small (NUM_PAGES G - Z.abs (p1 - p2))) by lia.
  destruct (Z.ltb_spec (Z.abs (p1 - p2)) (NUM_PAGES G - Z.abs (p1 - p2)));
    rewrite to_int_small; lia.
Qed.

Lemma cyclic_distance_nonneg (p1 p2 : Z) :
  0 <= p1 < NUM_PAGES G -> 0 <= p2 < NUM_PAGES G ->
  0 <= cyclic_distance G p1 p2.
Proof. intros H1 H2. rewrite cyclic_distance_min; lia. Qed.

End Distance.

(** ** The tree invariant *)

Section Invariant.

Variable G : Geometry.

Local Abbreviation PS := (PAGE_SIZE G).
Local Abbreviation OW := (OFFSET_WIDTH G).
Local Abbreviation TD := (TABLES_DEPTH G).
Local Abbreviation NF := (NUM_FRAMES G).

Hypothesis HOW : 1 <= OW.
Hypothesis HVAW : OW < VIRTUAL_ADDRESS_WIDTH G.

(** *** Contents of the virtual memory *)

Lemma addr_inj (g h x y : Z) :
  0 <= x < PS -> 0 <= y < PS -> g * PS + x = h * PS + y -> g = h /\ x = y.
Proof.
  intros Hx Hy E.
  assert (g = h) by (destruct (Z.lt_trichotomy g h) as [|[|]]; nia).
  subst. lia.
Qed.

Lemma walk_agree (m m' : Z -> Z) (q : list Z) :
  forall f,
    (forall q1 x q2 g, q = q1 ++ x :: q2 -> walk G m f q1 = Some g ->
                       m' (g * PS + x) = m (g * PS + x)) ->
    walk G m' f q = walk G m f q.
Proof.
  induction q as [|i q IH]; intros f H; [reflexivity|].
  cbn [walk]. rewrite (H [] i q f eq_refl eq_refl).
  destruct (Z.eqb_spec (m (f * PS + i)) 0) as [E|E]; [reflexivity|].
  apply IH. intros q1 x q2 g Hq Hw.
  apply (H (i :: q1) x q2 g); [cbn; congruence|].
  rewrite walk_cons; auto.
Qed.

Lemma walk_snoc (m : Z -> Z) (f g x : Z) (q : list Z) :
  walk G m f q = Some g ->
  walk G m f (q ++ [x]) =
  if m (g * PS + x) =? 0 then None else Some (m (g * PS + x)).
Proof. intros H. rewrite walk_app, H. reflexivity. Qed.

Lemma walk_prefix (m : Z -> Z) (f e : Z) (q1 q2 : list Z) :
  walk G m f (q1 ++ q2) = Some e ->
  exists g, walk G m f q1 = Some g /\ walk G m g q2 = Some e.
Proof.
  rewrite walk_app. destruct (walk G m f q1) as [g|]; [|discriminate].
  intros H. exists g. auto.
Qed.

Lemma slot_addr_snoc (m : Z -> Z) (q : list Z) :
  forall f parent off g j,
    walk G m f q = Some g ->
    slot_addr G m f parent off (q ++ [j]) = g * PS + j.
Proof.
  induction q as [|i q IH]; intros f parent off g j H.
  - cbn in *. congruence.
  - apply walk_cons_some in H. destruct H as [Hm H].
    cbn [app slot_addr]. apply IH. exact H.
Qed.

Lemma reach_prefix (m : Z -> Z) (q1 q2 : list Z) (e : Z) :
  reach G m (q1 ++ q2) e ->
  exists g, reach G m q1 g /\ walk G m g q2 = Some e.
Proof.
  intros (Hv & Hl & Hw). apply walk_prefix in Hw. destruct Hw as (g & A & B).
  exists g. split; auto. apply Forall_app in Hv. rewrite length_app in Hl.
  unfold reach. splits; try tauto. lia.
Qed.

Lemma reach_nil (m : Z -> Z) : reach G m [] 0.
Proof. unfold reach. splits; [constructor|cbn; lia|reflexivity]. Qed.

(** A referenced frame is never the root. *)
Lemma shape_root (m : Z -> Z) (Fr : Z -> Prop) (q : list Z) :
  tree_shape G m Fr -> reach G m q 0 -> q = [].
Proof.
  intros H Hq. apply (shape_unique G m Fr H q [] 0 Hq (reach_nil m)).
Qed.

Lemma is_prefix_dec (q q' : list Z) : is_prefix q q' \/ ~ is_prefix q q'.
Proof.
  revert q'. induction q as [|x q IH]; intros q'.
  - left. exists q'. reflexivity.
  - destruct q' as [|y q'].
    + right. intros (r & Hr). discriminate.
    + destruct (Z.eq_dec x y) as [->|Hne].
      * destruct (IH q') as [(r & ->)|Hn].
        -- left. exists r. reflexivity.
        -- right. intros (r & Hr). injection Hr as ->. apply Hn. now exists r.
      * right. intros (r & Hr). injection Hr as -> _. easy.
Qed.

(** *** Unlinking a frame *)

Section Unlink.

Variables (m : Z -> Z) (Fr : Z -> Prop).
Hypothesis Hshape : tree_shape G m Fr.
Variables (q0 : list Z) (j g e : Z).
Hypothesis Hg : reach G m q0 g.
Hypothesis He : reach G m (q0 ++ [j]) e.

Local Abbreviation m' := (upd m (g * PS + j) 0).

Lemma unlink_other (q : list Z) :
  valid_path G q -> (length q <= TD)%nat -> ~ is_prefix (q0 ++ [j]) q ->
  walk G m' 0 q = walk G m 0 q.
Proof.
  intros Hv Hl Hn. apply walk_agree. intros q1 x q2 h Hq Hw.
  unfold m', upd. destruct (Z.eqb_spec (h * PS + x) (g * PS + j)) as [E|E];
    [|reflexivity].
  exfalso. subst q.
  apply Forall_app in Hv. destruct Hv as [Hv1 Hv2]. inversion Hv2; subst.
  destruct He as (Hve & _). apply Forall_app in Hve.
  destruct Hve as [_ Hvj]. inversion Hvj; subst.
  apply addr_inj in E; auto. destruct E as [-> ->].
  assert (q1 = q0).
  { apply (shape_unique G m Fr Hshape q1 q0 g); auto.
    unfold reach. splits; auto. rewrite length_app in Hl. lia. }
  subst q1. apply Hn. exists q2. rewrite <- app_assoc. reflexivity.
Qed.

Lemma unlink_self (r : list Z) :
  valid_path G (q0 ++ [j] ++ r) -> (length (q0 ++ [j] ++ r) <= TD)%nat ->
  walk G m' 0 (q0 ++ [j] ++ r) = None.
Proof.
  intros Hv Hl. rewrite walk_app.
  replace (walk G m' 0 q0) with (Some g).
  - cbn. unfold m' at 1, upd at 1. rewrite Z.eqb_refl. reflexivity.
  - symmetry. destruct Hg as (A & B & C). rewrite <- C.
    apply unlink_other; auto. intros (r' & Hr).
    apply (f_equal (@length Z)) in Hr. rewrite !length_app in Hr.
    cbn in Hr. lia.
Qed.

(** The frame [e] has nothing below it inside the tree. *)
Hypothesis Hbelow :
  forall r f, r <> [] -> reach G m (q0 ++ [j] ++ r) f -> False.

Lemma unlink_reach (q : list Z) (f : Z) :
  reach G m' q f <-> reach G m q f /\ q <> q0 ++ [j].
Proof.
  unfold reach. split.
  - intros (Hv & Hl & Hw).
    destruct (is_prefix_dec (q0 ++ [j]) q) as [(r & ->)|Hn].
    + rewrite <- app_assoc in Hv, Hl, Hw.
      rewrite unlink_self in Hw; auto. discriminate.
    + rewrite unlink_other in Hw; auto. splits; auto.
      intros ->. apply Hn. exists []. now rewrite app_nil_r.
  - intros ((Hv & Hl & Hw) & Hne).
    destruct (is_prefix_dec (q0 ++ [j]) q) as [(r & ->)|Hn].
    + destruct r as [|y r]; [now rewrite app_nil_r in Hne|].
      exfalso. apply (Hbelow (y :: r) f); [discriminate|].
      rewrite <- app_assoc in Hv, Hl, Hw. unfold reach. auto.
    + rewrite unlink_other; auto.
Qed.

Lemma unlink_shape : tree_shape G m' (fun f => Fr f /\ f <> e).
Proof.
  constructor.
  - intros f. split.
    + intros [Hf Hne]. apply (shape_frames G m Fr Hshape) in Hf.
      destruct Hf as (q & Hq & Hr). exists q. split; auto.
      apply unlink_reach. split; auto. intros ->.
      destruct He as (_ & _ & A). destruct Hr as (_ & _ & B). congruence.
    + intros (q & Hq & Hr). apply unlink_reach in Hr. destruct Hr as [Hr Hne].
      split.
      * apply (shape_frames G m Fr Hshape). exists q. auto.
      * intros ->. apply Hne.
        apply (shape_unique G m Fr Hshape q (q0 ++ [j]) e); auto.
  - intros q1 q2 f H1 H2. apply unlink_reach in H1, H2.
    apply (shape_unique G m Fr Hshape q1 q2 f); tauto.
  - intros q f H. apply unlink_reach in H.
    apply (shape_pages G m Fr Hshape q f); tauto.
Qed.

Lemma unlink_walk (q : list Z) :
  valid_path G q -> (length q <= TD)%nat -> q <> q0 ++ [j] ->
  walk G m' 0 q = walk G m 0 q.
Proof.
  intros Hv Hl Hne.
  destruct (walk G m 0 q) as [f|] eqn:E.
  - apply (unlink_reach q f). unfold reach. auto.
  - destruct (walk G m' 0 q) as [f|] eqn:E'; [|reflexivity].
    assert (Hr : reach G m' q f) by (unfold reach; auto).
    apply unlink_reach in Hr. destruct Hr as [(_ & _ & Hr) _]. congruence.
Qed.

Lemma unlink_data (d : list Z) (f x : Z) :
  reach G m d f -> length d = TD -> 0 <= x < PS ->
  m' (f * PS + x) = m (f * PS + x).
Proof.
  intros Hd Hl Hx. unfold m', upd.
  destruct (Z.eqb_spec (f * PS + x) (g * PS + j)) as [E|E]; [|reflexivity].
  exfalso. destruct He as (Hve & Hle & _).
  apply Forall_app in Hve. destruct Hve as [_ Hvj]. inversion Hvj; subst.
  apply addr_inj in E; auto. destruct E as [-> ->].
  assert (d = q0) by (apply (shape_unique G m Fr Hshape d q0 g); auto).
  subst d. rewrite length_app in Hle. cbn in Hle. lia.
Qed.

End Unlink.

(** *** Installing a frame in an empty slot *)

Section Link.

Variables (m : Z -> Z) (Fr : Z -> Prop).
Hypothesis Hshape : tree_shape G m Fr.
Variables (pre : list Z) (cur o F : Z).
Hypothesis Hcur : reach G m pre cur.
Hypothesis Hlen : (length pre < TD)%nat.
Hypothesis Ho : 0 <= o < PS.
Hypothesis Hzero : m (cur * PS + o) = 0.
Hypothesis HF : ~ Fr F.
Hypothesis HF0 : F <> 0.

Variable m' : Z -> Z.
Hypothesis Hslot : m' (cur * PS + o) = F.
Hypothesis Hother :
  forall x, x <> cur * PS + o -> ~ (F * PS <= x < F * PS + PS) -> m' x = m x.
Hypothesis Hinner : (S (length pre) < TD)%nat -> frame_empty G m' F.
Hypothesis Hpage :
  S (length pre) = TD -> page_of_path G 0 (pre ++ [o]) < NUM_PAGES G.

Lemma reach_not_F (q : list Z) (h : Z) : reach G m q h -> h <> F.
Proof.
  intros Hr ->. destruct q as [|x q].
  - destruct Hr as (_ & _ & A). cbn in A. congruence.
  - apply HF. apply (shape_frames G m Fr Hshape). exists (x :: q).
    split; [discriminate|auto].
Qed.

Lemma link_other (q : list Z) :
  valid_path G q -> (length q <= TD)%nat -> ~ is_prefix (pre ++ [o]) q ->
  walk G m' 0 q = walk G m 0 q.
Proof.
  intros Hv Hl Hn. apply walk_agree. intros q1 x q2 h Hq Hw. subst q.
  apply Forall_app in Hv. destruct Hv as [Hv1 Hv2].
  apply Forall_cons_iff in Hv2. destruct Hv2 as [Hx Hv2].
  rewrite length_app in Hl. cbn in Hl.
  assert (Hr : reach G m q1 h) by (unfold reach; splits; auto; lia).
  apply Hother.
  - intros E. apply addr_inj in E; auto. destruct E as [-> ->].
    assert (q1 = pre) by (apply (shape_unique G m Fr Hshape q1 pre cur); auto).
    subst q1. apply Hn. exists q2. rewrite <- app_assoc. reflexivity.
  - intros E. apply (reach_not_F q1 h Hr). nia.
Qed.

Lemma link_pre : walk G m' 0 pre = Some cur.
Proof.
  destruct Hcur as (A & B & C). rewrite <- C. apply link_other; auto.
  intros (r & Hr). apply (f_equal (@length Z)) in Hr.
  rewrite !length_app in Hr. cbn in Hr. lia.
Qed.

Lemma link_new : walk G m' 0 (pre ++ [o]) = Some F.
Proof.
  rewrite (walk_snoc m' 0 cur o pre link_pre), Hslot.
  destruct (Z.eqb_spec F 0); [easy|reflexivity].
Qed.

Lemma link_below (r : list Z) :
  r <> [] -> valid_path G (pre ++ [o] ++ r) ->
  (length (pre ++ [o] ++ r) <= TD)%nat ->
  walk G m' 0 (pre ++ [o] ++ r) = None.
Proof.
  intros Hr Hv Hl. rewrite app_assoc, walk_app, link_new.
  destruct r as [|y r]; [easy|].
  apply Forall_app in Hv. destruct Hv as [_ Hv].
  apply Forall_app in Hv. destruct Hv as [_ Hv].
  apply Forall_cons_iff in Hv. destruct Hv as [Hy _].
  rewrite !length_app in Hl. cbn in Hl.
  cbn. rewrite Hinner; auto. lia.
Qed.

Lemma old_not_through (r : list Z) (f : Z) :
  walk G m 0 (pre ++ [o] ++ r) <> Some f.
Proof.
  destruct Hcur as (_ & _ & C).
  rewrite walk_app, C. cbn. rewrite Hzero. cbn. discriminate.
Qed.

Lemma link_reach (q : list Z) (f : Z) :
  reach G m' q f <-> reach G m q f \/ (q = pre ++ [o] /\ f = F).
Proof.
  unfold reach. split.
  - intros (Hv & Hl & Hw).
    destruct (is_prefix_dec (pre ++ [o]) q) as [(r & ->)|Hn].
    + destruct r as [|y r].
      * right. rewrite app_nil_r in *. rewrite link_new in Hw.
        split; congruence.
      * rewrite <- app_assoc in Hv, Hl, Hw.
        rewrite link_below in Hw; auto; discriminate.
    + left. rewrite link_other in Hw; auto.
  - intros [(Hv & Hl & Hw)|[-> ->]].
    + destruct (is_prefix_dec (pre ++ [o]) q) as [(r & ->)|Hn].
      * rewrite <- app_assoc in Hw. now apply old_not_through in Hw.
      * rewrite link_other; auto.
    + destruct Hcur as (A & B & C). splits.
      * apply Forall_app. split; auto.
      * rewrite length_app. cbn. lia.
      * apply link_new.
Qed.

Lemma link_shape : tree_shape G m' (fun f => Fr f \/ f = F).
Proof.
  constructor.
  - intros f. split.
    + intros [Hf| ->].
      * apply (shape_frames G m Fr Hshape) in Hf.
        destruct Hf as (q & Hq & Hr). exists q. split; auto.
        apply link_reach. auto.
      * exists (pre ++ [o]). split; [now destruct pre|].
        apply link_reach. auto.
    + intros (q & Hq & Hr). apply link_reach in Hr.
      destruct Hr as [Hr|[_ ->]]; [left|right; auto].
      apply (shape_frames G m Fr Hshape). exists q. auto.
  - intros q1 q2 f H1 H2. apply link_reach in H1, H2.
    destruct H1 as [H1|[-> ->]], H2 as [H2|[-> E]]; auto.
    + apply (shape_unique G m Fr Hshape q1 q2 f); auto.
    + subst f. now apply reach_not_F in H1.
    + now apply reach_not_F in H2.
  - intros q f H Hl. apply link_reach in H.
    destruct H as [H|[-> ->]].
    + apply (shape_pages G m Fr Hshape q f); auto.
    + apply Hpage. rewrite length_app in Hl. cbn in Hl. lia.
Qed.

Variable sw : Z -> option (Z -> Z).
Hypothesis Hleaf :
  S (length pre) = TD ->
  forall x, 0 <= x < PS ->
            m' (F * PS + x) =
            match sw (page_of_path G 0 (pre ++ [o])) with
            | Some c => c x
            | None => 0
            end.

Lemma link_content (p x : Z) :
  0 <= p < NUM_PAGES G -> 0 <= x < PS ->
  content G m' sw p x = content G m sw p x.
Proof.
  intros Hp Hx. unfold content.
  pose proof (digits_valid G HOW TD p) as Hdv.
  pose proof (digits_length G TD p) as Hdl.
  destruct (is_prefix_dec (pre ++ [o]) (digits G TD p)) as [(r & E)|Hn].
  - assert (Hold : walk G m 0 (digits G TD p) = None).
    { destruct (walk G m 0 (digits G TD p)) as [f|] eqn:Ew; auto.
      rewrite E, <- app_assoc in Ew. now apply old_not_through in Ew. }
    rewrite Hold. destruct r as [|y r].
    + rewrite app_nil_r in E. rewrite E, link_new.
      assert (Hl : S (length pre) = TD).
      { rewrite <- Hdl, E, length_app. cbn. lia. }
      rewrite (Hleaf Hl x Hx), <- E, page_of_path_digits; auto.
      pose proof (NUM_PAGES_le G HOW HVAW). lia.
    + rewrite E, <- app_assoc in Hdv, Hdl |- *.
      rewrite link_below; auto; [discriminate|lia].
  - rewrite link_other; auto; try lia.
    destruct (walk G m 0 (digits G TD p)) as [f|] eqn:Ew; auto.
    assert (Hr : reach G m (digits G TD p) f)
      by (unfold reach; splits; auto; lia).
    apply Hother.
    + intros E. apply addr_inj in E; auto. destruct E as [-> _].
      assert (E : digits G TD p = pre)
        by (apply (shape_unique G m Fr Hshape _ _ cur); auto).
      rewrite <- E in Hlen. lia.
    + intros E. apply (reach_not_F _ f Hr). nia.
Qed.

End Link.

(** *** Capacity: a tree filling every frame has a leaf to evict *)

Lemma slots_zero_dec (m : Z -> Z) (f : Z) (n : nat) :
  (forall i, 0 <= i < Z.of_nat n -> m (f * PS + i) = 0) \/
  (exists i, 0 <= i < Z.of_nat n /\ m (f * PS + i) <> 0).
Proof.
  induction n as [|n [IH|(i & Hi & IH)]].
  - left. intros; lia.
  - destruct (Z.eq_dec (m (f * PS + Z.of_nat n)) 0) as [E|E].
    + left. intros i Hi. destruct (Z.eq_dec i (Z.of_nat n)) as [->|]; auto.
      apply IH. lia.
    + right. exists (Z.of_nat n). split; [lia|auto].
  - right. exists i. split; [lia|auto].
Qed.

Lemma frame_empty_dec (m : Z -> Z) (f : Z) :
  frame_empty G m f \/ exists i, 0 <= i < PS /\ m (f * PS + i) <> 0.
Proof.
  pose proof (PAGE_SIZE_pos G HOW).
  destruct (slots_zero_dec m f (Z.to_nat PS)) as [H0|(i & Hi & H0)].
  - left. intros i Hi. apply H0. lia.
  - right. exists i. split; [lia|auto].
Qed.

Lemma is_prefix_firstn (q pre : list Z) :
  is_prefix q pre -> q = firstn (length q) pre.
Proof.
  intros (r & ->). rewrite firstn_app, Nat.sub_diag, firstn_all. cbn.
  now rewrite app_nil_r.
Qed.

Section Capacity.

Variables (m : Z -> Z) (k : Z).
Hypothesis Hinv : tree_inv G m k.
Variables (pre : list Z) (cur : Z).
Hypothesis Hcur : reach G m pre cur.
Hypothesis Hnoleaf : forall q f, reach G m q f -> (length q < TD)%nat.
Hypothesis Hnone :
  forall q e, q <> [] -> reach G m q e -> (length q < TD)%nat ->
              ~ eligible G m cur e.

Lemma on_current_path (n : nat) :
  forall q e, q <> [] -> reach G m q e -> (TD - length q <= n)%nat ->
              is_prefix q pre.
Proof.
  destruct Hinv as [Hk Hshape].
  induction n as [|n IH]; intros q e Hq Hr Hn.
  - apply Hnoleaf in Hr. lia.
  - destruct (Z.eq_dec e cur) as [->|Hne].
    + assert (q = pre)
        by (apply (shape_unique G m _ Hshape q pre cur); auto).
      subst q. exists []. now rewrite app_nil_r.
    + destruct (frame_empty_dec m e) as [He|(i & Hi & He)].
      * exfalso. apply (Hnone q e Hq Hr (Hnoleaf q e Hr)).
        unfold eligible. splits; auto.
        intros ->. apply Hq. apply (shape_root m _ q Hshape Hr).
      * pose proof (Hnoleaf q e Hr) as Hlt.
        destruct Hr as (Hv & Hl & Hw).
        assert (Hr' : reach G m (q ++ [i]) (m (e * PS + i))).
        { unfold reach. splits.
          - apply Forall_app. split; auto.
          - rewrite length_app. cbn. lia.
          - rewrite (walk_snoc m 0 e i q Hw).
            destruct (Z.eqb_spec (m (e * PS + i)) 0); [easy|reflexivity]. }
        destruct (IH (q ++ [i]) (m (e * PS + i))) as (r & Hr); auto.
        -- now destruct q.
        -- rewrite length_app. cbn. lia.
        -- exists ([i] ++ r). rewrite app_assoc. exact Hr.
Qed.

Lemma capacity : k <= Z.of_nat (length pre).
Proof.
  destruct Hinv as [Hk Hshape].
  set (L := map (fun t => match walk G m 0 (firstn t pre) with
                          | Some g => Z.to_nat g
                          | None => O
                          end) (seq 1 (length pre))).
  assert (Hincl : incl (seq 1 (Z.to_nat k)) L).
  { intros n Hn. apply in_seq in Hn.
    assert (Hf : 1 <= Z.of_nat n <= k) by lia.
    apply (shape_frames G m _ Hshape) in Hf. destruct Hf as (q & Hq & Hr).
    pose proof (on_current_path (TD - length q) q _ Hq Hr (le_n _)) as Hp.
    pose proof (is_prefix_firstn q pre Hp) as E.
    destruct Hp as (r & Hp).
    unfold L. apply in_map_iff. exists (length q). split.
    - rewrite <- E. destruct Hr as (_ & _ & ->). lia.
    - apply in_seq. subst pre. rewrite length_app.
      destruct q; [easy|cbn; lia]. }
  pose proof (NoDup_incl_length (seq_NoDup (Z.to_nat k) 1) Hincl) as Hlen.
  unfold L in Hlen. rewrite length_map, !length_seq in Hlen. lia.
Qed.

End Capacity.

Lemma tree_shape_ext (m : Z -> Z) (Fr Fr' : Z -> Prop) :
  (forall f, Fr f <-> Fr' f) -> tree_shape G m Fr -> tree_shape G m Fr'.
Proof.
  intros H [A B C]. constructor; auto.
  intros f. rewrite <- H. apply A.
Qed.

Lemma unlink_post (pm pm2 : PhysMem) (k : Z) (pre : list Z) (cur o : Z)
  (q : list Z) (e : Z) :
  tree_inv G (RAM pm) k ->
  reach G (RAM pm) pre cur ->
  RAM pm (cur * PS + o) = 0 ->
  q <> [] -> reach G (RAM pm) q e -> pre <> q ->
  (forall r f, r <> [] -> reach G (RAM pm) (q ++ r) f -> False) ->
  RAM pm2 = upd (RAM pm) (slot_addr G (RAM pm) 0 0 0 q) 0 ->
  (forall p, 0 <= p < NUM_PAGES G -> digits G TD p <> q ->
             swapFile pm2 p = swapFile pm p) ->
  (forall p x, 0 <= p < NUM_PAGES G -> 0 <= x < PS -> digits G TD p = q ->
               exists c, swapFile pm2 p = Some c /\
                         c x = RAM pm2 (e * PS + x)) ->
  finder_post G pm pre cur o pm2 e k k.
Proof.
  intros [Hk Hshape] Hcur Hzero Hq He Hpre Hbelow Hram Hswap Hsaved.
  destruct (exists_last Hq) as (q0 & j & ->).
  destruct (reach_prefix _ _ _ _ He) as (g & Hg & Hgj).
  assert (Hbelow' : forall r f, r <> [] ->
                      reach G (RAM pm) (q0 ++ [j] ++ r) f -> False).
  { intros r f Hr. rewrite app_assoc. apply Hbelow; auto. }
  destruct Hg as (Hg1 & Hg2 & Hg3).
  rewrite (slot_addr_snoc (RAM pm) q0 0 0 0 g j Hg3) in Hram.
  assert (Hg : reach G (RAM pm) q0 g) by (unfold reach; auto).
  pose proof (unlink_shape (RAM pm) _ Hshape q0 j g e Hg He Hbelow') as Hsh.
  pose proof (unlink_reach (RAM pm) _ Hshape q0 j g e Hg He Hbelow') as Hre.
  pose proof (unlink_walk (RAM pm) _ Hshape q0 j g e Hg He Hbelow') as Hwk.
  pose proof (unlink_data (RAM pm) _ Hshape q0 j g e Hg He) as Hdt.
  pose proof (unlink_self (RAM pm) _ Hshape q0 j g e Hg He []) as Hself.
  cbv zeta in Hsh, Hre, Hwk, Hdt, Hself. rewrite <- Hram in *.
  assert (Hek : 1 <= e <= k).
  { apply (shape_frames G _ _ Hshape). exists (q0 ++ [j]). auto. }
  unfold finder_post. splits; auto; try lia.
  - apply Hre. auto.
  - rewrite Hram. unfold upd. destruct (_ =? _); auto.
  - intros p x Hp Hx. unfold page_content, content.
    pose proof (digits_valid G HOW TD p) as Hdv.
    pose proof (digits_length G TD p) as Hdl.
    destruct (list_eq_dec Z.eq_dec (digits G TD p) (q0 ++ [j])) as [E|E].
    + rewrite E. rewrite app_nil_r in Hself.
      destruct (Hsaved p x Hp Hx E) as (c & -> & ->).
      rewrite (Hdt (q0 ++ [j]) e x He) by (auto; congruence).
      destruct He as (He1 & He2 & He3).
      rewrite Hself, He3; auto.
    + rewrite Hwk, (Hswap p Hp E); auto; try lia.
      destruct (walk G (RAM pm) 0 (digits G TD p)) as [f|] eqn:Ew; auto.
      apply (Hdt (digits G TD p)); auto. unfold reach. splits; auto. lia.
Qed.

(** ** The frame finder on a tree that satisfies the invariant *)

Lemma find_next_frame_top (args : SearchArguments) (pm : PhysMem) :
  priority args <> 1 ->
  exists args1 pm1,
    search_post G (tested_from (pred TD) 0) (seen_from (pred TD) 0)
                (leaves G (RAM pm) TD 0 0 0 0) (RAM pm) args 0 0 0 pm
                (args1, pm1) /\
    find_next_frame G TD args 0 0 0 0 pm =
      if priority args1 =? 1 then (args1, pm1)
      else empty_frame_not_found G args1 pm1.
Proof.
  intros Hp. pose proof (TABLES_DEPTH_pos G HOW HVAW).
  destruct (TABLES_DEPTH G) as [|b]; [lia|]. cbn [pred].
  apply find_next_frame_root; auto.
Qed.

Lemma tested_reach (m : Z -> Z) (q : list Z) (e : Z) :
  tested_from (pred TD) 0 q -> valid_path G q -> walk G m 0 q = Some e ->
  q <> [] /\ reach G m q e /\ (length q < TD)%nat.
Proof.
  destruct q as [|j q]; cbn [tested_from]; [easy|]. unfold tested, reach.
  intros [_ H] Hv Hw. cbn [length]. splits; auto; try discriminate; lia.
Qed.

Lemma reach_tested (m : Z -> Z) (q : list Z) (e : Z) :
  q <> [] -> reach G m q e -> (length q < TD)%nat ->
  tested_from (pred TD) 0 q.
Proof.
  destruct q as [|j q]; [easy|]. intros _ (Hv & _ & _) Hl.
  inversion Hv; subst. cbn [tested_from length] in *. unfold tested. lia.
Qed.

Lemma seen_reach (m : Z -> Z) (q : list Z) (e : Z) :
  seen_from (pred TD) 0 q -> valid_path G q -> walk G m 0 q = Some e ->
  q <> [] /\ reach G m q e.
Proof.
  pose proof (TABLES_DEPTH_pos G HOW HVAW).
  destruct q as [|j q]; cbn [seen_from]; [easy|]. unfold reach.
  intros [_ H'] Hv Hw. cbn [length]. splits; auto; try discriminate; lia.
Qed.

Lemma reach_seen (m : Z -> Z) (q : list Z) (e : Z) :
  q <> [] -> reach G m q e -> seen_from (pred TD) 0 q.
Proof.
  destruct q as [|j q]; [easy|]. intros _ (Hv & Hl & _).
  inversion Hv; subst. cbn [seen_from length] in *. lia.
Qed.

(** After a complete traversal [maxFrame] is the number of referenced
    frames. *)
Lemma max_frame_seen (m : Z -> Z) (k M : Z) :
  tree_inv G m k -> 0 <= M ->
  (forall q e, seen_from (pred TD) 0 q -> valid_path G q ->
               walk G m 0 q = Some e -> e <= M) ->
  (M = 0 \/ exists q, seen_from (pred TD) 0 q /\ valid_path G q /\
                      walk G m 0 q = Some M) ->
  M = k.
Proof.
  intros [Hk Hshape] HM Hub Hwit.
  assert (k <= M).
  { destruct (Z.eq_dec k 0) as [->|Hk0]; auto.
    assert (Hf : 1 <= k <= k) by lia.
    apply (shape_frames G _ _ Hshape) in Hf. destruct Hf as (q & Hq & Hr).
    apply (Hub q k); [eapply reach_seen; eauto| |]; apply Hr. }
  destruct Hwit as [->|(q & Hs & Hv & Hw)]; [lia|].
  destruct (seen_reach m q M Hs Hv Hw) as [Hq Hr].
  assert (1 <= M <= k); [|lia].
  apply (shape_frames G _ _ Hshape). exists q. auto.
Qed.

Hypothesis Hframes : Z.of_nat TD < NF.
Hypothesis Hpages : NUM_PAGES G <= 2 ^ 31.

(** A page has at most 2^30 words and the memory at most 2^30 frames:
    the loop counters and the frame indices of the code, of type [int],
    are then the integers computed here. *)
Hypothesis HOW30 : OW <= 30.
Hypothesis HNF30 : NF <= 2 ^ 30.

Lemma leaf_dist_nonneg (m : Z -> Z) (k page : Z) (l : Z * Z * Z) :
  tree_inv G m k -> 0 <= page < NUM_PAGES G ->
  In l (leaves G m TD 0 0 0 0) -> 0 <= leaf_dist G page l.
Proof.
  intros [Hk Hshape] Hpage Hl. apply leaves_spec in Hl.
  destruct Hl as (q & Hv & Hlen & -> & Hw). unfold leaf_dist. cbn [fst snd].
  apply cyclic_distance_nonneg; auto.
  destruct (walk G m 0 q) as [f|] eqn:E; [|easy].
  split.
  - apply (page_of_path_bound G HOW q Hv).
  - apply (shape_pages G _ _ Hshape q f); auto. unfold reach. splits; auto. lia.
Qed.

Lemma chosen_frame_cases (a : SearchArguments) (nf : Z) :
  let a2 := set_maxFrame a (maxFrame a + 1) in
  (priority a = 1 -> chosen_frame a2 nf = emptyFrame a) /\
  (priority a = 2 -> chosen_frame a2 nf = maxFrame a + 1) /\
  (priority a = 3 -> chosen_frame a2 nf = maxCyclicFrame a).
Proof.
  unfold chosen_frame. cbn. splits; intros ->; reflexivity.
Qed.

Lemma finder_spec (pm : PhysMem) (k : Z) (pre : list Z) (cur o page : Z) :
  tree_inv G (RAM pm) k -> reach G (RAM pm) pre cur -> (length pre < TD)%nat ->
  0 <= o < PS -> RAM pm (cur * PS + o) = 0 -> 0 <= page < NUM_PAGES G ->
  let res := find_next_frame G TD (init_args cur page) 0 0 0 0 pm in
  let args2 := set_maxFrame (fst res) (maxFrame (fst res) + 1) in
  pageNumber args2 = page /\
  (priority args2 = 1 \/ priority args2 = 2 \/ priority args2 = 3) /\
  exists k', finder_post G pm pre cur o (snd res) (chosen_frame args2 0) k k'.
Proof.
  intros Hinv Hcur Hlen Ho Hzero Hpage res args2.
  destruct (find_next_frame_top (init_args cur page) pm)
    as (args1 & pm1 & Hpost & Heq); [cbn; lia|].
  destruct Hpost as (P1 & P2 & P3 & P4).
  cbn [fst snd init_args currentFrame pageNumber] in P1, P2, P3, P4.
  destruct P4 as [Hfound|Hmissed].
  - destruct Hfound as (F1 & q & e & F2 & F3 & F4 & F5 & F6 & F7).
    cbn [init_args currentFrame] in F5.
    destruct (tested_reach _ q e F2 F3 F4) as (Hq & Hr & Hl).
    assert (Hres : res = (args1, pm1)).
    { unfold res. rewrite Heq, F1. reflexivity. }
    unfold args2. rewrite Hres. cbn [fst snd set_maxFrame pageNumber priority].
    splits; auto. exists k.
    destruct (chosen_frame_cases args1 0) as (-> & _ & _); auto.
    rewrite F6.
    destruct F5 as (E1 & E2 & E3).
    apply unlink_post with (q := q); auto.
    + intros ->. destruct Hcur as (_ & _ & A). destruct Hr as (_ & _ & B).
      congruence.
    + intros r f Hrne Hrf. pose proof Hrf as (Hv & _ & _).
      apply reach_prefix in Hrf.
      destruct Hrf as (g & (_ & _ & Hg) & Hw). destruct r as [|y r]; [easy|].
      destruct Hr as (_ & _ & Hr). assert (g = e) by congruence. subst g.
      apply walk_cons_some in Hw. destruct Hw as [Hw _]. apply Hw, E3.
      apply Forall_app in Hv. destruct Hv as [_ Hv]. now inversion Hv.
    + intros; congruence.
    + intros p x _ _ E. exfalso. apply (f_equal (@length Z)) in E.
      rewrite digits_length in E. lia.
  - destruct Hmissed as (M1 & M2 & M3 & M4 & M5 & M6 & M7 & M8).
    cbn [init_args currentFrame pageNumber priority maxFrame victim_of
         maxCyclicFrame maxCyclicDist maxCyclicPage maxCyclicParent]
      in M1, M4, M5, M7, M8.
    assert (HM : maxFrame args1 = k).
    { apply (max_frame_seen (RAM pm)); auto. }
    assert (Hres : res = empty_frame_not_found G args1 pm1).
    { unfold res. rewrite Heq, M1. reflexivity. }
    unfold args2. rewrite Hres. unfold empty_frame_not_found.
    destruct Hinv as [Hk Hshape].
    destruct (Z.ltb_spec (maxFrame args1 + 1) NF) as [Hlt|Hge].
    + cbn [fst snd set_maxFrame set_priority pageNumber priority].
      splits; auto. exists (k + 1).
      destruct (chosen_frame_cases (set_priority args1 2) 0) as (_ & -> & _);
        auto.
      cbn [set_priority maxFrame]. rewrite HM.
      unfold finder_post. rewrite M3. splits; auto; try lia.
      * apply tree_shape_ext with (Fr := fun f => 1 <= f <= k);
          [intros f; lia|exact Hshape].
      * intros p x _ _. unfold page_content. rewrite M3, P1. reflexivity.
    + cbn [fst snd set_maxFrame set_priority pageNumber priority].
      splits; auto. exists k.
      destruct (chosen_frame_cases (set_priority args1 3) 0) as (_ & _ & ->);
        auto.
      cbn [set_priority maxCyclicFrame].
      set (lv := leaves G (RAM pm) TD 0 0 0 0) in *.
      assert (Hlv : exists l0, In l0 lv).
      { destruct lv as [|l0 lv'] eqn:Elv; [|exists l0; now left].
        exfalso.
        assert (Hcap : k <= Z.of_nat (length pre)); [|lia].
        apply (capacity (RAM pm) k (conj Hk Hshape) pre cur Hcur).
        - intros q f (Hv & Hl & Hw).
          destruct (Nat.eq_dec (length q) TD) as [E|E]; [|lia].
          exfalso.
          assert (Hin : In (f, page_of_path G 0 q,
                            slot_addr G (RAM pm) 0 0 0 q) lv).
          { apply leaves_spec. exists q. rewrite Hw. splits; auto.
            discriminate. }
          rewrite Elv in Hin. destruct Hin.
        - intros q e Hq Hr Hl. apply (M4 q e); try apply Hr.
          apply (reach_tested (RAM pm) q e); auto. }
      destruct Hlv as (l0 & Hl0).
      pose proof (leaf_dist_nonneg (RAM pm) k page l0 (conj Hk Hshape)
                    Hpage Hl0) as Hd0.
      destruct (victim_fold_spec G page lv (0, 0, 0, 0))
        as [[_ Hall]|(l1 & l & l2 & Elv & Hfold & _)].
      { specialize (Hall l0 Hl0). cbn in Hall. lia. }
      change (victim_of (init_args cur page)) with (0, 0, 0, 0) in M8.
      rewrite Hfold in M8.
      assert (Hl : In l lv) by (rewrite Elv; apply in_app_iff; right; now left).
      apply leaves_spec in Hl. destruct Hl as (qv & Hv & Hlen' & -> & Hw).
      destruct (walk G (RAM pm) 0 qv) as [fv|] eqn:Ew; [|easy].
      unfold victim_of, victim_of_leaf in M8. cbn [fst snd] in M8.
      injection M8 as V1 V2 V3 V4. rewrite V1, V3, V4.
      assert (Hrv : reach G (RAM pm) qv fv)
        by (unfold reach; splits; auto; lia).
      pose proof (page_of_path_bound G HOW qv Hv) as Hpb.
      rewrite Hlen' in Hpb.
      pose proof (TABLES_DEPTH_pos G HOW HVAW) as HTD.
      apply unlink_post with (q := qv); auto.
      * split; auto.
      * intros E. subst qv. cbn in Hlen'. lia.
      * intros E. subst qv. lia.
      * intros r f Hrne (_ & Hl & _). rewrite length_app in Hl.
        destruct r; [easy|cbn in Hl; lia].
      * cbn [PMevict PMwrite RAM]. rewrite M3. reflexivity.
      * intros p Hp E. cbn [PMevict PMwrite swapFile].
        destruct (Z.eqb_spec p (page_of_path G 0 qv)) as [->|Hne];
          [|congruence].
        exfalso. apply E. rewrite <- Hlen'. apply digits_page_of_path; auto.
      * intros p x Hp Hx E. cbn [PMevict PMwrite swapFile RAM].
        assert (Ep : p = page_of_path G 0 qv).
        { rewrite <- E. symmetry. apply page_of_path_digits; auto.
          pose proof (NUM_PAGES_le G HOW HVAW). lia. }
        rewrite <- Ep, Z.eqb_refl. eexists. split; reflexivity.
Qed.

(** ** One step of the translator *)

Lemma zero_frame_spec (cnt : nat) :
  forall j f pm,
    swapFile (zero_frame G cnt j f pm) = swapFile pm /\
    forall x, RAM (zero_frame G cnt j f pm) x =
              if (f * PS + j <=? x) && (x <? f * PS + j + Z.of_nat cnt)
              then 0 else RAM pm x.
Proof.
  induction cnt as [|c IH]; intros j f pm.
  - cbn [zero_frame]. split; auto. intros x. zbool.
  - cbn [zero_frame].
    destruct (IH (j + 1) f (PMwrite (f * PS + j) 0 pm)) as [A B].
    split; [rewrite A; reflexivity|]. intros x. rewrite B.
    cbn [PMwrite RAM]. unfold upd. zbool.
Qed.

Lemma firstn_snoc (l : list Z) (i : nat) (d : Z) :
  (i < length l)%nat -> firstn (S i) l = firstn i l ++ [nth i l d].
Proof.
  revert i. induction l as [|a l IH]; intros i Hi; cbn in Hi; [lia|].
  destruct i as [|i]; [reflexivity|].
  cbn [firstn nth app]. f_equal. apply IH. lia.
Qed.

Lemma valid_path_nth (q : list Z) (i : nat) :
  valid_path G q -> (i < length q)%nat -> 0 <= nth i q 0 < PS.
Proof.
  intros Hv Hi. unfold valid_path in Hv. rewrite Forall_forall in Hv.
  apply Hv. apply nth_In. exact Hi.
Qed.

Lemma valid_path_firstn (q : list Z) (i : nat) :
  valid_path G q -> valid_path G (firstn i q).
Proof.
  intros Hv. unfold valid_path in *.
  rewrite <- (firstn_skipn i q) in Hv. apply Forall_app in Hv. tauto.
Qed.

Lemma translate_step_spec (pm : PhysMem) (k page olast : Z) (i : nat)
  (cur : Z) :
  0 <= page < NUM_PAGES G -> (i < TD)%nat ->
  tree_inv G (RAM pm) k ->
  reach G (RAM pm) (firstn i (digits G TD page)) cur ->
  let res := translate_step G (digits G TD page ++ [olast]) i
                            (init_args cur page) pm in
  exists k',
    k <= k' /\ tree_inv G (RAM (snd res)) k' /\
    reach G (RAM (snd res)) (firstn (S i) (digits G TD page)) (fst res) /\
    forall p x, 0 <= p < NUM_PAGES G -> 0 <= x < PS ->
                page_content G (snd res) p x = page_content G pm p x.
Proof.
  intros Hpage Hi Hinv Hcur res.
  pose proof (digits_valid G HOW TD page) as Hdv.
  pose proof (digits_length G TD page) as Hdl.
  set (pa := digits G TD page) in *.
  set (pre := firstn i pa) in *.
  set (o := nth i pa 0).
  assert (Ho : 0 <= o < PS) by (apply valid_path_nth; auto; lia).
  assert (Hpre : length pre = i) by (apply firstn_length_le; lia).
  assert (Hnext : firstn (S i) pa = pre ++ [o])
    by (apply firstn_snoc; lia).
  assert (Hnth : nth i (pa ++ [olast]) 0 = o) by (apply app_nth1; lia).
  rewrite Hnext. unfold res, translate_step.
  cbn [init_args currentFrame PMread]. rewrite Hnth.
  set (pm1 := mkPhysMem (RAM pm) (swapFile pm)
                (EvRead (cur * PS + o) :: events pm)).
  destruct (Z.eqb_spec (RAM pm (cur * PS + o)) 0) as [E|E].
  - rewrite E.
    pose proof (finder_spec pm1 k pre cur o page Hinv Hcur
                  ltac:(lia) Ho E Hpage) as Hf.
    cbv zeta in Hf.
    destruct (find_next_frame G TD (init_args cur page) 0 0 0 0 pm1)
      as [args1 pm2].
    cbn [fst snd] in Hf |- *.
    set (args2 := set_maxFrame args1 (maxFrame args1 + 1)) in *.
    set (F := chosen_frame args2 0) in *.
    destruct Hf as (Hpn & _ & k' & Hk' & HF & Hkk & Hsh & Hre & Hz & Hcont).
    set (pm3 := PMwrite (cur * PS + o) F pm2).
    set (pm4 := if Z.of_nat i =? Z.of_nat TD - 1
                then PMrestore G F (pageNumber args2) pm3
                else zero_frame G (Z.to_nat PS) 0 F pm3).
    pose proof (PAGE_SIZE_pos G HOW) as HPS.
    assert (HnF : ~ (1 <= F <= k' /\ F <> F)) by tauto.
    assert (HF0 : F <> 0) by lia.
    assert (HcF : cur <> F)
      by (apply (reach_not_F (RAM pm2) _ Hsh F HnF HF0 pre cur Hre)).
    assert (Hsw4 : swapFile pm4 = swapFile pm2).
    { unfold pm4. destruct (Z.of_nat i =? Z.of_nat TD - 1); [reflexivity|].
      destruct (zero_frame_spec (Z.to_nat PS) 0 F pm3) as [-> _].
      reflexivity. }
    assert (Hin4 : forall x, 0 <= x < PS ->
              RAM pm4 (F * PS + x) =
              if Z.of_nat i =? Z.of_nat TD - 1
              then match swapFile pm2 page with
                   | Some c => c x
                   | None => 0
                   end
              else 0).
    { intros x Hx. unfold pm4.
      destruct (Z.of_nat i =? Z.of_nat TD - 1).
      - cbn [PMrestore RAM pm3 PMwrite swapFile]. rewrite Hpn.
        replace (F * PS + x - F * PS) with x by lia. zbool.
      - destruct (zero_frame_spec (Z.to_nat PS) 0 F pm3) as [_ ->]. zbool. }
    assert (Hout4 : forall x, ~ (F * PS <= x < F * PS + PS) ->
              RAM pm4 x = upd (RAM pm2) (cur * PS + o) F x).
    { intros x Hx. unfold pm4.
      destruct (Z.of_nat i =? Z.of_nat TD - 1).
      - cbn [PMrestore RAM pm3 PMwrite]. zbool.
      - destruct (zero_frame_spec (Z.to_nat PS) 0 F pm3) as [_ ->]. zbool. }
    assert (Hslot : RAM pm4 (cur * PS + o) = F).
    { rewrite Hout4 by nia. unfold upd. now rewrite Z.eqb_refl. }
    assert (Hother : forall x, x <> cur * PS + o ->
              ~ (F * PS <= x < F * PS + PS) -> RAM pm4 x = RAM pm2 x).
    { intros x Hx1 Hx2. rewrite Hout4 by auto. unfold upd. zbool. }
    assert (Hinner : (S (length pre) < TD)%nat -> frame_empty G (RAM pm4) F).
    { intros Hl x Hx. rewrite Hin4 by auto. zbool. }
    assert (Hlast : S (length pre) = TD -> pre ++ [o] = pa).
    { intros Hl. rewrite <- Hnext. apply firstn_all2. lia. }
    assert (Hpg : S (length pre) = TD ->
                  page_of_path G 0 (pre ++ [o]) = page).
    { intros Hl. rewrite (Hlast Hl). apply page_of_path_digits; auto.
      pose proof (NUM_PAGES_le G HOW HVAW). lia. }
    assert (Hleaf : S (length pre) = TD -> forall x, 0 <= x < PS ->
              RAM pm4 (F * PS + x) =
              match swapFile pm2 (page_of_path G 0 (pre ++ [o])) with
              | Some c => c x
              | None => 0
              end).
    { intros Hl x Hx. rewrite Hin4, (Hpg Hl) by auto. zbool. }
    exists k'. cbn [fst snd]. fold pm3. fold pm4. splits; auto.
    + split; auto.
      apply tree_shape_ext
        with (Fr := fun f => (1 <= f <= k' /\ f <> F) \/ f = F).
      { intros f. lia. }
      apply (link_shape (RAM pm2) _ Hsh pre cur o F); auto; try lia;
        intros Hl; rewrite (Hpg Hl); lia.
    + apply (link_reach (RAM pm2) _ Hsh pre cur o F); auto; try lia;
        intros Hl; rewrite (Hpg Hl); lia.
    + intros p x Hp Hx.
      transitivity (page_content G pm2 p x);
        [|rewrite Hcont by auto; reflexivity].
      unfold page_content. rewrite Hsw4.
      apply (link_content (RAM pm2) _ Hsh pre cur o F); auto; try lia;
        intros Hl; rewrite (Hpg Hl); lia.
  - cbn [fst snd]. exists k. splits; auto; try lia.
    destruct Hcur as (A & B & C). unfold reach. splits.
    + apply Forall_app. split; auto.
    + rewrite length_app. cbn. lia.
    + change (RAM pm1) with (RAM pm). rewrite (walk_snoc _ _ _ _ _ C).
      destruct (Z.eqb_spec (RAM pm (cur * PS + o)) 0); [easy|reflexivity].
Qed.

(** ** The translator and the public interface *)

Lemma translate_loop_spec (page olast : Z) (cnt : nat) :
  forall (i : nat) (cur : Z) (pm : PhysMem) (k : Z),
    0 <= page < NUM_PAGES G -> (i + cnt = TD)%nat ->
    tree_inv G (RAM pm) k ->
    reach G (RAM pm) (firstn i (digits G TD page)) cur ->
    let res := translate_loop G cnt i (digits G TD page ++ [olast]) page cur
                              (init_args cur page) pm in
    exists k',
      k <= k' /\ tree_inv G (RAM (snd res)) k' /\
      reach G (RAM (snd res)) (digits G TD page) (fst res) /\
      forall p x, 0 <= p < NUM_PAGES G -> 0 <= x < PS ->
                  page_content G (snd res) p x = page_content G pm p x.
Proof.
  induction cnt as [|c IH]; intros i cur pm k Hpage Hi Hinv Hcur.
  - cbn. exists k. splits; auto; try lia.
    rewrite firstn_all2 in Hcur; auto. rewrite digits_length. lia.
  - cbn [translate_loop].
    destruct (translate_step_spec pm k page olast i cur Hpage ltac:(lia)
                Hinv Hcur) as (k1 & Hk1 & Hinv1 & Hcur1 & Hc1).
    destruct (translate_step G (digits G TD page ++ [olast]) i
                (init_args cur page) pm) as [nf pm1].
    cbn [fst snd] in *.
    destruct (IH (S i) nf pm1 k1 Hpage ltac:(lia) Hinv1 Hcur1)
      as (k2 & Hk2 & Hinv2 & Hcur2 & Hc2).
    exists k2. splits; auto; try lia.
    intros p x Hp Hx. rewrite Hc2, Hc1; auto.
Qed.

Lemma shiftr_PS (va : Z) : Z.shiftr va OW = va / PS.
Proof. apply Z.shiftr_div_pow2. lia. Qed.

Lemma find_physical_address_spec (va : Z) (pm : PhysMem) (k : Z) :
  0 <= va < VIRTUAL_MEMORY_SIZE G -> tree_inv G (RAM pm) k ->
  let res := find_physical_address G va (init_offsets G va) pm in
  exists k',
    k <= k' /\ tree_inv G (RAM (snd res)) k' /\
    reach G (RAM (snd res)) (digits G TD (va / PS)) (fst res) /\
    forall p x, 0 <= p < NUM_PAGES G -> 0 <= x < PS ->
                page_content G (snd res) p x = page_content G pm p x.
Proof.
  intros Hva Hinv. unfold find_physical_address.
  rewrite init_offsets_digits, shiftr_PS by auto.
  apply translate_loop_spec; auto.
  - apply page_in_range; auto.
  - cbn. apply reach_nil.
Qed.

Lemma tree_shape_walk_ext (m m' : Z -> Z) (Fr : Z -> Prop) :
  (forall q, valid_path G q -> (length q <= TD)%nat ->
             walk G m' 0 q = walk G m 0 q) ->
  tree_shape G m Fr -> tree_shape G m' Fr.
Proof.
  intros H [A B C].
  assert (Hr : forall q f, reach G m' q f <-> reach G m q f).
  { intros q f. unfold reach. split; intros (X & Y & Z0); splits; auto.
    - rewrite <- H; auto.
    - rewrite H; auto. }
  constructor.
  - intros f. rewrite A. split; intros (q & Hq & Hq'); exists q;
      split; auto; apply Hr; auto.
  - intros q1 q2 f H1 H2. apply Hr in H1, H2. eauto.
  - intros q f H1. apply Hr in H1. eauto.
Qed.

(** Writing a word of a leaf frame leaves the tree as it is. *)
Lemma leaf_write_walk (m : Z -> Z) (Fr : Z -> Prop) (d : list Z)
  (F x v : Z) (q : list Z) :
  tree_shape G m Fr -> reach G m d F -> length d = TD -> 0 <= x < PS ->
  valid_path G q -> (length q <= TD)%nat ->
  walk G (upd m (F * PS + x) v) 0 q = walk G m 0 q.
Proof.
  intros Hshape Hd Hl Hx Hv Hq. apply walk_agree.
  intros q1 y q2 h E Hw. unfold upd.
  destruct (Z.eqb_spec (h * PS + y) (F * PS + x)) as [Ea|Ea]; [|reflexivity].
  exfalso. subst q. apply Forall_app in Hv. destruct Hv as [Hv1 Hv2].
  inversion Hv2; subst. apply addr_inj in Ea; auto. destruct Ea as [-> ->].
  rewrite length_app in Hq. cbn in Hq.
  assert (q1 = d).
  { apply (shape_unique G m Fr Hshape q1 d F); auto.
    unfold reach. splits; auto. lia. }
  subst q1. lia.
Qed.

Lemma in_range_tests (va : Z) :
  0 <= va < VIRTUAL_MEMORY_SIZE G ->
  (va >=? VIRTUAL_MEMORY_SIZE G) = false /\
  (Z.shiftr va OW >=? NUM_PAGES G) = false.
Proof.
  intros Hva. pose proof (page_in_range G HOW HVAW va Hva).
  rewrite shiftr_PS. split; rewrite Z.geb_leb; apply Z.leb_gt; lia.
Qed.

Lemma nth_last_offset (va : Z) :
  nth TD (init_offsets G va) 0 = va mod PS.
Proof.
  rewrite init_offsets_digits by auto.
  rewrite app_nth2; rewrite digits_length; [|lia].
  now rewrite Nat.sub_diag.
Qed.

Lemma vmem_split (va va' : Z) :
  va' / PS = va / PS -> va' mod PS = va mod PS -> va' = va.
Proof.
  pose proof (PAGE_SIZE_pos G HOW). intros E1 E2.
  rewrite (Z.div_mod va PS), (Z.div_mod va' PS) by lia. congruence.
Qed.

Lemma VMwrite_spec (va v : Z) (pm : PhysMem) (k : Z) :
  0 <= va < VIRTUAL_MEMORY_SIZE G -> tree_inv G (RAM pm) k ->
  let res := VMwrite G va v pm in
  fst res = 1 /\
  exists k',
    k <= k' /\ tree_inv G (RAM (snd res)) k' /\
    vmem G (snd res) va = v /\
    forall va', 0 <= va' < VIRTUAL_MEMORY_SIZE G -> va' <> va ->
                vmem G (snd res) va' = vmem G pm va'.
Proof.
  intros Hva Hinv. pose proof (PAGE_SIZE_pos G HOW) as HPS.
  unfold VMwrite. destruct (in_range_tests va Hva) as [-> ->].
  destruct (find_physical_address_spec va pm k Hva Hinv)
    as (k' & Hk & [Hk' Hshape] & Hr & Hc).
  destruct (find_physical_address G va (init_offsets G va) pm) as [F pm1].
  cbn [fst snd] in *. split; [reflexivity|].
  rewrite nth_last_offset. exists k'.
  assert (Hx : 0 <= va mod PS < PS) by (apply Z.mod_pos_bound; lia).
  assert (Hl : length (digits G TD (va / PS)) = TD) by apply digits_length.
  pose proof (NUM_PAGES_le G HOW HVAW) as Hnp.
  splits; auto.
  - split; auto.
    apply (tree_shape_walk_ext (RAM pm1)); auto.
    intros q Hv Hq. cbn [PMwrite RAM].
    apply (leaf_write_walk (RAM pm1) (fun f => 1 <= f <= k')
               (digits G TD (va / PS)) F); auto.
  - unfold vmem, page_content, content. cbn [PMwrite RAM swapFile].
    rewrite (leaf_write_walk (RAM pm1) (fun f => 1 <= f <= k')
               (digits G TD (va / PS)) F);
      auto; try lia; try apply digits_valid; auto.
    destruct Hr as (_ & _ & ->). unfold upd. now rewrite Z.eqb_refl.
  - intros va' Hva' Hne.
    pose proof (page_in_range G HOW HVAW va' Hva') as Hp'.
    pose proof (page_in_range G HOW HVAW va Hva) as Hp.
    assert (Hx' : 0 <= va' mod PS < PS) by (apply Z.mod_pos_bound; lia).
    unfold vmem. rewrite <- (Hc (va' / PS) (va' mod PS)) by auto.
    unfold page_content, content. cbn [PMwrite RAM swapFile].
    rewrite (leaf_write_walk (RAM pm1) (fun f => 1 <= f <= k')
               (digits G TD (va / PS)) F);
      auto; try lia; try apply digits_valid; auto;
      try (rewrite digits_length; lia).
    destruct (walk G (RAM pm1) 0 (digits G TD (va' / PS))) as [f|] eqn:Ew;
      [|reflexivity].
    unfold upd.
    destruct (Z.eqb_spec (f * PS + va' mod PS) (F * PS + va mod PS))
      as [Ea|Ea]; [|reflexivity].
    exfalso. apply addr_inj in Ea; auto. destruct Ea as [-> Eo].
    assert (Ed : digits G TD (va' / PS) = digits G TD (va / PS)).
    { apply (shape_unique G _ _ Hshape _ _ F); auto.
      unfold reach. splits; auto; [apply digits_valid; auto|].
      rewrite digits_length. lia. }
    apply Hne, vmem_split; auto.
    rewrite <- (page_of_path_digits G HOW TD (va' / PS)) by lia.
    rewrite <- (page_of_path_digits G HOW TD (va / PS)) by lia.
    now rewrite Ed.
Qed.

Lemma VMread_spec (va value : Z) (pm : PhysMem) (k : Z) :
  0 <= va < VIRTUAL_MEMORY_SIZE G -> tree_inv G (RAM pm) k ->
  let res := VMread G va value pm in
  fst (fst res) = 1 /\ snd (fst res) = vmem G pm va /\
  exists k',
    k <= k' /\ tree_inv G (RAM (snd res)) k' /\
    forall va', 0 <= va' < VIRTUAL_MEMORY_SIZE G ->
                vmem G (snd res) va' = vmem G pm va'.
Proof.
  intros Hva Hinv. pose proof (PAGE_SIZE_pos G HOW) as HPS.
  unfold VMread. destruct (in_range_tests va Hva) as [-> ->].
  destruct (find_physical_address_spec va pm k Hva Hinv)
    as (k' & Hk & Hinv' & Hr & Hc).
  destruct (find_physical_address G va (init_offsets G va) pm) as [F pm1].
  cbn [fst snd PMread] in *. rewrite nth_last_offset.
  assert (Hx : 0 <= va mod PS < PS) by (apply Z.mod_pos_bound; lia).
  pose proof (page_in_range G HOW HVAW va Hva) as Hp.
  splits; auto.
  - unfold vmem. rewrite <- (Hc (va / PS) (va mod PS)) by auto.
    unfold page_content, content. destruct Hr as (_ & _ & ->). reflexivity.
  - exists k'. splits; auto. intros va' Hva'.
    pose proof (page_in_range G HOW HVAW va' Hva') as Hp'.
    assert (Hx' : 0 <= va' mod PS < PS) by (apply Z.mod_pos_bound; lia).
    unfold vmem. rewrite <- (Hc (va' / PS) (va' mod PS)) by auto.
    reflexivity.
Qed.

(** ** Reachable states *)

Lemma VMinitialize_spec (pm0 : PhysMem) :
  swapFile (VMinitialize G pm0) = swapFile pm0 /\
  tree_inv G (RAM (VMinitialize G pm0)) 0.
Proof.
  pose proof (PAGE_SIZE_pos G HOW) as HPS.
  pose proof (TABLES_DEPTH_pos G HOW HVAW) as HTD.
  unfold VMinitialize.
  destruct (zero_frame_spec (Z.to_nat PS) 0 0 pm0) as [A B].
  split; auto.
  assert (Hroot : forall q f, q <> [] ->
            ~ reach G (RAM (zero_frame G (Z.to_nat PS) 0 0 pm0)) q f).
  { intros [|j q] f Hq (Hv & _ & Hw); [easy|]. inversion Hv; subst.
    apply walk_cons_some in Hw. destruct Hw as [Hw _]. apply Hw.
    rewrite B. zbool. }
  split; [lia|]. constructor.
  - intros f. split; [lia|]. intros (q & Hq & Hr). now apply Hroot in Hr.
  - intros q1 q2 f H1 H2. destruct q1 as [|j1 q1].
    + destruct q2 as [|j2 q2]; auto. now apply Hroot in H2.
    + now apply Hroot in H1.
  - intros q f Hr Hl. destruct q as [|j q]; [cbn in Hl; lia|].
    now apply Hroot in Hr.
Qed.

Lemma VMread_out_of_range (va value : Z) (pm : PhysMem) :
  VIRTUAL_MEMORY_SIZE G <= va -> VMread G va value pm = (0, value, pm).
Proof.
  intros H. unfold VMread.
  destruct (Z.geb_spec va (VIRTUAL_MEMORY_SIZE G)); [reflexivity|lia].
Qed.

Lemma VMwrite_out_of_range (va value : Z) (pm : PhysMem) :
  VIRTUAL_MEMORY_SIZE G <= va -> VMwrite G va value pm = (0, pm).
Proof.
  intros H. unfold VMwrite.
  destruct (Z.geb_spec va (VIRTUAL_MEMORY_SIZE G)); [reflexivity|lia].
Qed.

(** One operation keeps the invariant; it changes the contents of the
    virtual memory at the address of a write only. *)
Lemma run_op_spec (op : VMop) (pm : PhysMem) (k : Z) :
  wf_op op -> tree_inv G (RAM pm) k ->
  (exists k', k <= k' /\ tree_inv G (RAM (run_op G pm op)) k') /\
  (forall va, 0 <= va < VIRTUAL_MEMORY_SIZE G ->
              (forall v, op <> OpWrite va v) ->
              vmem G (run_op G pm op) va = vmem G pm va).
Proof.
  intros Hwf Hinv. unfold wf_op in Hwf.
  destruct op as [a|a v]; cbn [run_op op_addr] in *.
  - destruct (Z.lt_ge_cases a (VIRTUAL_MEMORY_SIZE G)) as [Hlt|Hge].
    + destruct (VMread_spec a 0 pm k ltac:(lia) Hinv)
        as (_ & _ & k' & Hk & Hinv' & Hc).
      split; [exists k'; auto|]. intros va Hva _. auto.
    + rewrite VMread_out_of_range by auto. cbn [snd].
      split; [exists k; split; auto; lia|auto].
  - destruct (Z.lt_ge_cases a (VIRTUAL_MEMORY_SIZE G)) as [Hlt|Hge].
    + destruct (VMwrite_spec a v pm k ltac:(lia) Hinv)
        as (_ & k' & Hk & Hinv' & _ & Hc).
      split; [exists k'; auto|]. intros va Hva Hne. apply Hc; auto.
      intros ->. now apply (Hne v).
    + rewrite VMwrite_out_of_range by auto. cbn [snd].
      split; [exists k; split; auto; lia|auto].
Qed.

Lemma run_ops_spec (ops : list VMop) :
  forall (pm : PhysMem) (k : Z),
    Forall wf_op ops -> tree_inv G (RAM pm) k ->
    (exists k', k <= k' /\ tree_inv G (RAM (run_ops G ops pm)) k') /\
    (forall va, 0 <= va < VIRTUAL_MEMORY_SIZE G ->
                (forall v, ~ In (OpWrite va v) ops) ->
                vmem G (run_ops G ops pm) va = vmem G pm va).
Proof.
  induction ops as [|op ops IH]; intros pm k Hwf Hinv.
  - cbn. split; [exists k; split; auto; lia|auto].
  - inversion Hwf as [|? ? Hop Hops]; subst.
    destruct (run_op_spec op pm k Hop Hinv) as [(k1 & Hk1 & Hinv1) Hc1].
    destruct (IH (run_op G pm op) k1 Hops Hinv1) as [(k2 & Hk2 & Hinv2) Hc2].
    cbn [run_ops fold_left]. split.
    + exists k2. split; auto. lia.
    + intros va Hva Hno. unfold run_ops in Hc2. rewrite Hc2, Hc1; auto.
      * intros v ->. apply (Hno v). now left.
      * intros v Hin. apply (Hno v). now right.
Qed.

Lemma reachable_inv (pm : PhysMem) :
  reachable G pm -> exists k, tree_inv G (RAM pm) k.
Proof.
  intros (pm0 & ops & Hwf & ->).
  destruct (VMinitialize_spec pm0) as [_ Hinit].
  destruct (run_ops_spec ops _ 0 Hwf Hinit) as [(k & _ & Hinv) _].
  exists k. exact Hinv.
Qed.

Lemma walking_inv (va : Z) (i : nat) (cur : Z) (pm : PhysMem) :
  walking G va i cur pm ->
  0 <= va < VIRTUAL_MEMORY_SIZE G /\ (i <= TD)%nat /\
  exists k, tree_inv G (RAM pm) k /\
            reach G (RAM pm) (firstn i (digits G TD (va / PS))) cur.
Proof.
  induction 1 as [pm Hr Hva|i cur pm Hw IH Hi].
  - split; [auto|split; [lia|]]. destruct (reachable_inv pm Hr) as (k & Hk).
    exists k. split; auto. cbn. apply reach_nil.
  - destruct IH as (Hva & _ & k & Hinv & Hcur).
    split; [auto|split; [lia|]].
    rewrite init_offsets_digits, shiftr_PS by auto.
    destruct (translate_step_spec pm k (va / PS) (va mod PS) i cur
                (page_in_range G HOW HVAW va Hva) Hi Hinv Hcur)
      as (k' & _ & Hinv' & Hcur' & _).
    exists k'. auto.
Qed.

(** ** Calls of the finder by the translator *)

Lemma finder_call_spec (va : Z) (i : nat) (cur : Z) (pm : PhysMem) :
  walking G va i cur pm -> (i < TD)%nat ->
  RAM pm (cur * PS + nth i (init_offsets G va) 0) = 0 ->
  let res := finder_call G va i cur pm in
  let F := finder_frame G va i cur pm in
  (priority (fst res) = 1 \/ priority (fst res) = 2 \/
   priority (fst res) = 3) /\
  exists k k',
    tree_inv G (RAM pm) k /\
    reach G (RAM pm) (firstn i (digits G TD (va / PS))) cur /\
    finder_post G pm (firstn i (digits G TD (va / PS))) cur
                (nth i (digits G TD (va / PS)) 0) (snd res) F k k'.
Proof.
  intros Hw Hi Hz res F.
  destruct (walking_inv va i cur pm Hw) as (Hva & _ & k & Hinv & Hcur).
  pose proof (digits_valid G HOW TD (va / PS)) as Hdv.
  pose proof (digits_length G TD (va / PS)) as Hdl.
  assert (Hnth : nth i (init_offsets G va) 0 =
                 nth i (digits G TD (va / PS)) 0).
  { rewrite init_offsets_digits by auto. apply app_nth1. lia. }
  assert (Hpre : length (firstn i (digits G TD (va / PS))) = i)
    by (apply firstn_length_le; lia).
  unfold res, F, finder_frame, finder_call.
  rewrite Hnth, shiftr_PS in *. cbn [PMread snd].
  set (pm1 := mkPhysMem (RAM pm) (swapFile pm)
     (EvRead (cur * PS + nth i (digits G TD (va / PS)) 0) :: events pm)).
  destruct (finder_spec pm1 k (firstn i (digits G TD (va / PS))) cur
              (nth i (digits G TD (va / PS)) 0) (va / PS) Hinv Hcur)
    as (_ & Hprio & k' & Hpost); auto; try lia.
  - apply valid_path_nth; auto. lia.
  - apply page_in_range; auto.
  - split; [exact Hprio|]. exists k, k'. splits; auto.
Qed.

(** *** Slots of the tables of the tree *)

Lemma table_slot_reach (m : Z -> Z) (g i v : Z) (q : list Z) :
  reach G m q g -> (length q < TD)%nat -> 0 <= i < PS ->
  m (g * PS + i) = v -> v <> 0 -> reach G m (q ++ [i]) v.
Proof.
  intros (Hv & Hl & Hw) Hlt Hi Hm Hne. unfold reach. splits.
  - apply Forall_app. split; auto.
  - rewrite length_app. cbn. lia.
  - rewrite (walk_snoc m 0 g i q Hw), Hm.
    destruct (Z.eqb_spec v 0); [easy|reflexivity].
Qed.

Lemma referenced_reach (m : Z -> Z) (f : Z) :
  referenced G m f <-> exists q, q <> [] /\ reach G m q f.
Proof.
  split.
  - intros (g & i & q & Hr & Hl & Hi & Hm & Hne).
    exists (q ++ [i]). split; [now destruct q|].
    apply (table_slot_reach m g i f q); auto.
  - intros (q & Hq & Hr). destruct (exists_last Hq) as (q0 & j & ->).
    pose proof Hr as (Hv & Hl & Hw).
    destruct (reach_prefix _ _ _ _ Hr) as (g & Hg & Hgj).
    apply Forall_app in Hv. destruct Hv as [_ Hv]. inversion Hv; subst.
    rewrite length_app in Hl. cbn in Hl, Hgj.
    destruct (Z.eqb_spec (m (g * PS + j)) 0) as [|Hne]; [discriminate|].
    injection Hgj as Hgj.
    exists g, j, q0. splits; auto; try lia; congruence.
Qed.

Lemma tree_shape_in_degree (m : Z -> Z) (Fr : Z -> Prop) :
  tree_shape G m Fr -> in_degree_le_1 G m.
Proof.
  intros Hshape g1 i1 g2 i2 v (q1 & R1 & L1 & I1 & M1 & N1)
         (q2 & R2 & L2 & I2 & M2 & N2).
  pose proof (table_slot_reach m g1 i1 v q1 R1 L1 I1 M1 N1) as P1.
  pose proof (table_slot_reach m g2 i2 v q2 R2 L2 I2 M2 N2) as P2.
  pose proof (shape_unique G m Fr Hshape _ _ _ P1 P2) as E.
  apply app_inj_tail in E. destruct E as [-> ->]. split; auto.
  destruct R1 as (_ & _ & A). destruct R2 as (_ & _ & B). congruence.
Qed.

Lemma tree_shape_acyclic (m : Z -> Z) (Fr : Z -> Prop) :
  tree_shape G m Fr -> acyclic G m.
Proof.
  intros Hshape q f r (Hv & Hl & Hw) Hr Hvr Hlen.
  assert (Hqr : forall e, walk G m f r = Some e -> reach G m (q ++ r) e).
  { intros e He. unfold reach. splits; auto.
    - apply Forall_app. split; auto.
    - rewrite walk_app, Hw. exact He. }
  split; intros E; apply Hqr in E.
  - assert (Hq : reach G m q f) by (unfold reach; auto).
    pose proof (shape_unique G m Fr Hshape _ _ _ E Hq) as E'.
    apply (f_equal (@length Z)) in E'. rewrite length_app in E'.
    destruct r; [easy|cbn in E'; lia].
  - apply (shape_root m Fr) in E; auto.
    apply app_eq_nil in E. destruct E as [_ ->]. easy.
Qed.

(** ** Properties of the reachable states *)

Lemma VMread_result (va value : Z) (pm : PhysMem) (k : Z) :
  0 <= va < VIRTUAL_MEMORY_SIZE G -> tree_inv G (RAM pm) k ->
  fst (VMread G va value pm) = (1, vmem G pm va).
Proof.
  intros Hva Hinv.
  destruct (VMread_spec va value pm k Hva Hinv) as (A & B & _).
  destruct (VMread G va value pm) as [[r v] pm']. cbn in *. congruence.
Qed.

(** C1 (amended): when the memory has more frames than the tables have
    levels, there are at most 2^31 pages, and a page has at most 2^30
    words and the memory at most 2^30 frames, after [VMinitialize] and
    any reads and writes, writing [x] and then [y] at a valid address
    [V] and reading [V] returns 1 and gives [y]; a read right after the
    write of [x] gives [x], and so does a read after any operations that
    do not write [V]. *)
Theorem C1_write_then_read (pm : PhysMem) (V x y z0 : Z) :
  reachable G pm -> 0 <= V < VIRTUAL_MEMORY_SIZE G ->
  let pm1 := snd (VMwrite G V x pm) in
  let pm2 := snd (VMwrite G V y pm1) in
  fst (VMread G V z0 pm2) = (1, y) /\
  fst (VMread G V z0 pm1) = (1, x) /\
  forall ops, Forall wf_op ops -> (forall v, ~ In (OpWrite V v) ops) ->
              fst (VMread G V z0 (run_ops G ops pm1)) = (1, x).
Proof using HOW HVAW Hframes Hpages HOW30 HNF30.
  intros Hr HV pm1 pm2. destruct (reachable_inv pm Hr) as (k & Hinv).
  destruct (VMwrite_spec V x pm k HV Hinv) as (_ & k1 & _ & Hinv1 & Hx & _).
  fold pm1 in Hinv1, Hx.
  destruct (VMwrite_spec V y pm1 k1 HV Hinv1) as (_ & k2 & _ & Hinv2 & Hy & _).
  fold pm2 in Hinv2, Hy.
  splits.
  - rewrite (VMread_result V z0 pm2 k2); auto. now rewrite Hy.
  - rewrite (VMread_result V z0 pm1 k1); auto. now rewrite Hx.
  - intros ops Hwf Hno.
    destruct (run_ops_spec ops pm1 k1 Hwf Hinv1) as [(k3 & _ & Hinv3) Hc].
    rewrite (VMread_result V z0 _ k3); auto. rewrite Hc; auto.
    now rewrite Hx.
Qed.

(** C2 (amended): when the memory has more frames than the tables have
    levels, there are at most 2^31 pages, and a page has at most 2^30
    words and the memory at most 2^30 frames, after the translator
    returns the leaf frame [F] for a valid address, every slot selected
    by the address split is non-zero along the path from frame 0, the
    path ends in [F], [F] holds the page of the address, and the word at
    [F * PAGE_SIZE + o[TABLES_DEPTH]] is the word of the address. *)
Theorem C2_translation_result (pm : PhysMem) (V : Z) :
  reachable G pm -> 0 <= V < VIRTUAL_MEMORY_SIZE G ->
  let offsets := init_offsets G V in
  let res := find_physical_address G V offsets pm in
  let F := fst res in
  let m' := RAM (snd res) in
  (forall i, (i < TD)%nat ->
     exists g, walk G m' 0 (firstn i offsets) = Some g /\
               m' (g * PS + nth i offsets 0) <> 0) /\
  walk G m' 0 (firstn TD offsets) = Some F /\
  1 <= F < NF /\
  (forall x, 0 <= x < PS ->
     m' (F * PS + x) = page_content G pm (Z.shiftr V OW) x) /\
  m' (F * PS + nth TD offsets 0) = vmem G pm V.
Proof using HOW HVAW Hframes Hpages HOW30 HNF30.
  intros Hr HV offsets res F m'.
  destruct (reachable_inv pm Hr) as (k & Hinv).
  destruct (find_physical_address_spec V pm k HV Hinv)
    as (k' & _ & [Hk' Hshape] & Hre & Hc).
  fold offsets res in Hshape, Hre, Hc. fold F m' in Hshape, Hre, Hc.
  pose proof (PAGE_SIZE_pos G HOW) as HPS.
  pose proof (TABLES_DEPTH_pos G HOW HVAW) as HTD.
  pose proof (digits_length G TD (V / PS)) as Hdl.
  assert (Hoff : offsets = digits G TD (V / PS) ++ [V mod PS])
    by (apply init_offsets_digits; auto).
  assert (Hfirst : firstn TD offsets = digits G TD (V / PS)).
  { rewrite Hoff, firstn_app, Hdl, Nat.sub_diag, firstn_all2 by lia.
    cbn. now rewrite app_nil_r. }
  pose proof Hre as (Hv & Hl & Hw).
  assert (Hcontent : forall x, 0 <= x < PS ->
            m' (F * PS + x) = page_content G pm (V / PS) x).
  { intros x Hx. rewrite <- Hc; auto; [|apply page_in_range; auto].
    unfold page_content, content. fold m'. now rewrite Hw. }
  assert (HFr : 1 <= F <= k').
  { apply (shape_frames G _ _ Hshape). exists (digits G TD (V / PS)).
    split; auto. intros E. rewrite E in Hdl. cbn in Hdl. lia. }
  splits; try lia.
  - intros i Hi.
    assert (Hi' : firstn i offsets = firstn i (digits G TD (V / PS))).
    { rewrite Hoff, firstn_app.
      replace (i - length (digits G TD (V / PS)))%nat with O by lia.
      cbn. now rewrite app_nil_r. }
    assert (Hn : nth i offsets 0 = nth i (digits G TD (V / PS)) 0).
    { rewrite Hoff. apply app_nth1. lia. }
    rewrite Hi', Hn.
    assert (Hs : walk G m' 0 (firstn (S i) (digits G TD (V / PS))) <> None).
    { rewrite <- (firstn_skipn (S i) (digits G TD (V / PS))) in Hw.
      apply walk_prefix in Hw. destruct Hw as (g & -> & _). discriminate. }
    rewrite (firstn_snoc _ i 0), walk_app in Hs by lia.
    destruct (walk G m' 0 (firstn i (digits G TD (V / PS)))) as [g|];
      [|easy].
    exists g. split; auto. intros E. apply Hs. cbn. now rewrite E.
  - now rewrite Hfirst.
  - intros x Hx. rewrite shiftr_PS. auto.
  - unfold offsets. rewrite nth_last_offset. unfold vmem.
    apply Hcontent. apply Z.mod_pos_bound. lia.
Qed.

(** C4 (amended): when the memory has more frames than the tables have
    levels, there are at most 2^31 pages, and a page has at most 2^30
    words and the memory at most 2^30 frames, every frame the finder
    gives the translator, by any of the three priorities, is a frame of
    the memory other than frame 0 and other than the protected frame. *)
Theorem C4_finder_frame_safe (va : Z) (i : nat) (cur : Z) (pm : PhysMem) :
  walking G va i cur pm -> (i < TD)%nat ->
  RAM pm (cur * PS + nth i (init_offsets G va) 0) = 0 ->
  finder_frame G va i cur pm <> 0 /\
  finder_frame G va i cur pm <> cur /\
  1 <= finder_frame G va i cur pm < NF.
Proof using HOW HVAW Hframes Hpages HOW30 HNF30.
  intros Hw Hi Hz.
  destruct (finder_call_spec va i cur pm Hw Hi Hz)
    as (_ & k & k' & _ & _ & Hpost).
  destruct Hpost as (Hk' & HF & _ & Hsh & Hre & _).
  splits; try lia.
  intros E. symmetry in E. revert E.
  apply (reach_not_F _ _ Hsh _ ltac:(tauto) ltac:(lia) _ _ Hre).
Qed.

(** C7 (amended): when the memory has more frames than the tables have
    levels, there are at most 2^31 pages, and a page has at most 2^30
    words and the memory at most 2^30 frames, after every completed read
    or write the tables reachable from frame 0 form a tree: no frame is
    below itself or refers to the root, and no frame is the value of two
    slots.  The same holds between two steps of the translator and in
    the state the finder leaves after it has unlinked a frame. *)
Theorem C7_tree_shape :
  (forall pm, reachable G pm ->
              acyclic G (RAM pm) /\ in_degree_le_1 G (RAM pm)) /\
  (forall va i cur pm,
      walking G va i cur pm ->
      acyclic G (RAM pm) /\ in_degree_le_1 G (RAM pm)) /\
  (forall va i cur pm,
      walking G va i cur pm -> (i < TD)%nat ->
      RAM pm (cur * PS + nth i (init_offsets G va) 0) = 0 ->
      acyclic G (RAM (snd (finder_call G va i cur pm))) /\
      in_degree_le_1 G (RAM (snd (finder_call G va i cur pm)))).
Proof using HOW HVAW Hframes Hpages HOW30 HNF30.
  splits.
  - intros pm Hr. destruct (reachable_inv pm Hr) as (k & _ & Hshape).
    split; [eapply tree_shape_acyclic|eapply tree_shape_in_degree]; eauto.
  - intros va i cur pm Hw.
    destruct (walking_inv va i cur pm Hw) as (_ & _ & k & [_ Hshape] & _).
    split; [eapply tree_shape_acyclic|eapply tree_shape_in_degree]; eauto.
  - intros va i cur pm Hw Hi Hz.
    destruct (finder_call_spec va i cur pm Hw Hi Hz)
      as (_ & k & k' & _ & _ & Hpost).
    destruct Hpost as (_ & _ & _ & Hsh & _).
    split; [eapply tree_shape_acyclic|eapply tree_shape_in_degree]; eauto.
Qed.

(** C8 (amended): when the memory has more frames than the tables have
    levels, there are at most 2^31 pages, and a page has at most 2^30
    words and the memory at most 2^30 frames, with a backing store that
    holds no page at initialisation, a read of a valid address that no
    write has addressed since [VMinitialize] returns 1 and gives 0. *)
Theorem C8_unwritten_reads_zero (pm0 : PhysMem) (ops : list VMop)
  (V z0 : Z) :
  (forall p, swapFile pm0 p = None) ->
  Forall wf_op ops -> (forall v, ~ In (OpWrite V v) ops) ->
  0 <= V < VIRTUAL_MEMORY_SIZE G ->
  fst (VMread G V z0 (run_ops G ops (VMinitialize G pm0))) = (1, 0).
Proof using HOW HVAW Hframes Hpages HOW30 HNF30.
  intros Hsw Hwf Hno HV.
  destruct (VMinitialize_spec pm0) as [Hs Hinit].
  destruct (run_ops_spec ops _ 0 Hwf Hinit) as [(k & _ & Hinv) Hc].
  rewrite (VMread_result V z0 _ k); auto. rewrite Hc; auto.
  f_equal. unfold vmem, page_content, content.
  pose proof (TABLES_DEPTH_pos G HOW HVAW) as HTD.
  destruct (walk G (RAM (VMinitialize G pm0)) 0 (digits G TD (V / PS)))
    as [f|] eqn:Ew.
  - exfalso. destruct Hinit as [_ Hshape].
    assert (1 <= f <= 0); [|lia].
    apply (shape_frames G _ _ Hshape). exists (digits G TD (V / PS)).
    split.
    + intros E. apply (f_equal (@length Z)) in E.
      rewrite digits_length in E. cbn in E. lia.
    + unfold reach. splits; auto; [apply digits_valid; auto|].
      rewrite digits_length. lia.
  - now rewrite Hs, Hsw.
Qed.

(** C9 (amended): when the memory has more frames than the tables have
    levels, there are at most 2^31 pages, and a page has at most 2^30
    words and the memory at most 2^30 frames, in every state reached
    from [VMinitialize] by reads and writes the frames that occur as
    non-zero values of table slots are exactly [1 .. k] for some [k <
    NUM_FRAMES]; hence, when the finder settles on the second priority,
    the frame [maxFrame + 1] it gives is referenced by no slot of the
    tree. *)
Theorem C9_frames_contiguous :
  (forall pm, reachable G pm ->
     exists k, 0 <= k < NF /\
               forall f, referenced G (RAM pm) f <-> 1 <= f <= k) /\
  (forall va i cur pm,
     walking G va i cur pm -> (i < TD)%nat ->
     RAM pm (cur * PS + nth i (init_offsets G va) 0) = 0 ->
     priority (fst (finder_call G va i cur pm)) = 2 ->
     finder_frame G va i cur pm = maxFrame (fst (finder_call G va i cur pm)) + 1
     /\ ~ referenced G (RAM pm) (finder_frame G va i cur pm)).
Proof using HOW HVAW Hframes Hpages HOW30 HNF30.
  split.
  - intros pm Hr. destruct (reachable_inv pm Hr) as (k & Hk & Hshape).
    exists k. split; auto. intros f. rewrite referenced_reach.
    symmetry. apply (shape_frames G _ _ Hshape).
  - intros va i cur pm Hw Hi Hz Hp.
    destruct (finder_call_spec va i cur pm Hw Hi Hz)
      as (_ & k & k' & _ & _ & Hpost).
    destruct Hpost as (_ & _ & _ & Hsh & _).
    destruct (chosen_frame_cases (fst (finder_call G va i cur pm)) 0)
      as (_ & H2 & _).
    split; [apply H2; auto|].
    assert (Hram : RAM (snd (finder_call G va i cur pm)) = RAM pm).
    { unfold finder_call in Hp |- *.
      set (pm1 := snd (PMread (cur * PS + nth i (init_offsets G va) 0) pm))
        in *.
      destruct (find_next_frame_top (init_args cur (Z.shiftr va OW)) pm1)
        as (args1 & pm2 & (_ & _ & _ & Hcase) & Heq); [cbn; lia|].
      rewrite Heq in Hp |- *.
      destruct (Z.eqb_spec (priority args1) 1) as [E|E];
        [cbn in Hp; lia|].
      destruct Hcase as [[E1 _]|(_ & _ & M3 & _)]; [easy|].
      cbn [fst snd] in M3. unfold empty_frame_not_found in Hp |- *.
      destruct (maxFrame args1 + 1 <? NF); [exact M3|].
      cbn in Hp. lia. }
    rewrite referenced_reach, <- Hram.
    intros Href. apply (shape_frames G _ _ Hsh) in Href. tauto.
Qed.

End Invariant.

(** ** The outcome of the traversal seen from the root *)

Section Finder.

Variable G : Geometry.

Local Abbreviation PS := (PAGE_SIZE G).
Local Abbreviation OW := (OFFSET_WIDTH G).
Local Abbreviation TD := (TABLES_DEPTH G).
Local Abbreviation NF := (NUM_FRAMES G).

Hypothesis HOW : 1 <= OW.
Hypothesis HVAW : OW < VIRTUAL_ADDRESS_WIDTH G.

Lemma finder_priority_rule (pm : PhysMem) (cur page : Z) :
  priority_rule G pm cur page.
Proof.
  unfold priority_rule.
  set (m := RAM pm).
  set (res := find_next_frame G TD (init_args cur page) 0 0 0 0 pm).
  set (F := chosen_frame (set_maxFrame (fst res) (maxFrame (fst res) + 1)) 0).
  destruct (find_next_frame_top G HOW HVAW (init_args cur page) pm)
    as (args1 & pm1 & Hpost & Heq); [cbn; lia|].
  destruct Hpost as (P1 & P2 & P3 & P4).
  cbn [fst snd init_args currentFrame pageNumber] in P1, P2, P3, P4.
  fold m in P4.
  destruct P4 as [Hfound|Hmissed].
  - left. destruct Hfound as (F1 & q & e & F2 & F3 & F4 & F5 & F6 & F7).
    destruct (tested_reach G m q e F2 F3 F4) as (Hq & Hr & Hl).
    assert (Hres : res = (args1, pm1)).
    { unfold res. rewrite Heq, F1. reflexivity. }
    unfold F. rewrite Hres. cbn [fst snd]. split; auto.
    exists q, e. splits; auto.
    destruct (chosen_frame_cases args1 0) as (-> & _ & _); auto.
  - right. destruct Hmissed as (M1 & M2 & M3 & M4 & M5 & M6 & M7 & M8).
    cbn [init_args currentFrame pageNumber priority maxFrame]
      in M1, M4, M5, M7, M8.
    change (victim_of (init_args cur page)) with (0, 0, 0, 0) in M8.
    assert (Hres : res = empty_frame_not_found G args1 pm1).
    { unfold res. rewrite Heq, M1. reflexivity. }
    split.
    { intros q e Hq Hr Hl. apply (M4 q e); try apply Hr.
      apply (reach_tested G m q e); auto. }
    exists (maxFrame args1).
    assert (Hmax : max_seen G m (maxFrame args1)).
    { unfold max_seen. splits; auto.
      - intros q e Hq Hr. apply (M6 q e); try apply Hr.
        apply (reach_seen G m q e); auto.
      - destruct M7 as [M7|(q & S1 & S2 & S3)]; [left; auto|right].
        exists q. apply (seen_reach G HOW HVAW m q _ S1 S2 S3). }
    unfold F. rewrite Hres. unfold empty_frame_not_found.
    destruct (Z.ltb_spec (maxFrame args1 + 1) NF) as [Hlt|Hge];
      cbn [fst snd set_priority maxFrame priority].
    + splits; auto. left. splits; auto.
    + splits; auto. right. splits; auto.
      exists pm1. splits; auto.
Qed.

End Finder.

(** ** Reads and writes share the translation *)

Lemma same_translation (G : Geometry) (va value x : Z) (pm : PhysMem) :
  va < VIRTUAL_MEMORY_SIZE G -> Z.shiftr va (OFFSET_WIDTH G) < NUM_PAGES G ->
  let offsets := init_offsets G va in
  let tr := find_physical_address G va offsets pm in
  let addr := fst tr * PAGE_SIZE G + nth (TABLES_DEPTH G) offsets 0 in
  VMread G va value pm = (1, RAM (snd tr) addr, snd (PMread addr (snd tr))) /\
  VMwrite G va x pm = (1, PMwrite addr x (snd tr)).
Proof.
  intros H1 H2 offsets tr addr. unfold VMread, VMwrite.
  destruct (Z.geb_spec va (VIRTUAL_MEMORY_SIZE G)); [lia|].
  destruct (Z.geb_spec (Z.shiftr va (OFFSET_WIDTH G)) (NUM_PAGES G)); [lia|].
  fold offsets. fold tr. unfold addr. destruct tr as [F pm1].
  split; reflexivity.
Qed.

(** * Further properties *)

(** ** The split of an address *)

Section Offsets.

Variable G : Geometry.

Local Abbreviation PS := (PAGE_SIZE G).
Local Abbreviation OW := (OFFSET_WIDTH G).
Local Abbreviation TD := (TABLES_DEPTH G).

Hypothesis HOW : 1 <= OW.
Hypothesis HVAW : OW < VIRTUAL_ADDRESS_WIDTH G.

(** X1: [init_offsets] splits a valid address into [TABLES_DEPTH + 1]
    slot indices below [PAGE_SIZE]; shifted back together they give the
    address, and those of the tables give its page number, the one the
    finder computes along the same path. *)
Theorem X1_init_offsets_round_trip (va : Z) :
  0 <= va < VIRTUAL_MEMORY_SIZE G ->
  length (init_offsets G va) = S TD /\
  valid_path G (init_offsets G va) /\
  page_of_path G 0 (init_offsets G va) = va /\
  page_of_path G 0 (firstn TD (init_offsets G va)) = Z.shiftr va OW.
Proof.
  intros Hva. pose proof (PAGE_SIZE_pos G HOW) as HPS.
  pose proof (page_in_range G HOW HVAW va Hva) as Hp.
  pose proof (NUM_PAGES_le G HOW HVAW) as Hle.
  rewrite (init_offsets_digits G HOW).
  assert (Hd : page_of_path G 0 (digits G TD (va / PS)) = va / PS).
  { apply (page_of_path_digits G HOW). lia. }
  splits.
  - rewrite length_app, (digits_length G). cbn. lia.
  - apply Forall_app. split; [apply (digits_valid G HOW)|].
    constructor; [|constructor]. apply Z.mod_pos_bound. lia.
  - rewrite (page_of_path_snoc G HOW), Hd.
    rewrite (Z.div_mod va PS) at 3 by lia. lia.
  - rewrite firstn_app, (digits_length G), Nat.sub_diag, firstn_O, app_nil_r.
    rewrite firstn_all2 by (rewrite (digits_length G); lia).
    rewrite Hd. symmetry. apply (shiftr_PS G HOW).
Qed.

End Offsets.

(** ** Initialisation *)

Section Initialize.

Variable G : Geometry.

Local Abbreviation PS := (PAGE_SIZE G).

Lemma zero_frame_events (cnt : nat) :
  forall j f pm,
    events (zero_frame G cnt j f pm) =
    zero_writes (f * PS + j) cnt ++ events pm.
Proof.
  unfold zero_writes.
  induction cnt as [|c IH]; intros j f pm; [reflexivity|].
  cbn [zero_frame]. rewrite IH. cbn [PMwrite events].
  change (seq 0 (S c)) with (0%nat :: seq 1 c).
  rewrite <- seq_shift. cbn [map rev]. rewrite map_map.
  rewrite <- app_assoc. cbn [app]. f_equal.
  - f_equal. apply map_ext. intros n. f_equal. lia.
  - f_equal. f_equal. cbn. lia.
Qed.

Hypothesis HOW : 1 <= OFFSET_WIDTH G.
Hypothesis HPAW : OFFSET_WIDTH G < PHYSICAL_ADDRESS_WIDTH G.

(** A page has at most 2^30 words: the counter [int i] of the loop is
    then the integer computed here. *)
Hypothesis HOW30 : OFFSET_WIDTH G <= 30.

(** X2: in a geometry within the ranges of the specification, with at
    most 2^30 words in a page, [VMinitialize] writes zero to the
    [PAGE_SIZE] words of frame 0, in increasing order, all of them
    words of the memory, and does nothing else: every other word of the
    memory and the backing store are as before.  Afterwards no path
    leaves the root. *)
Theorem X2_VMinitialize_clears_root (pm : PhysMem) :
  (forall a, RAM (VMinitialize G pm) a =
             if (0 <=? a) && (a <? PS) then 0 else RAM pm a) /\
  swapFile (VMinitialize G pm) = swapFile pm /\
  events (VMinitialize G pm) = zero_writes 0 (Z.to_nat PS) ++ events pm /\
  safe G (zero_writes 0 (Z.to_nat PS)) /\
  (forall i q, 0 <= i < PS ->
               walk G (RAM (VMinitialize G pm)) 0 (i :: q) = None).
Proof using HOW HPAW HOW30.
  unfold VMinitialize.
  destruct (zero_frame_spec G (Z.to_nat PS) 0 0 pm) as [A B].
  assert (HPS : 0 <= PS) by (apply Z.pow_nonneg; lia).
  assert (R : forall a, RAM (zero_frame G (Z.to_nat PS) 0 0 pm) a =
                        if (0 <=? a) && (a <? PS) then 0 else RAM pm a).
  { intros a. rewrite B.
    replace (0 * PS + 0 + Z.of_nat (Z.to_nat PS)) with PS by lia.
    replace (0 * PS + 0) with 0 by lia. reflexivity. }
  splits; auto.
  - rewrite zero_frame_events. reflexivity.
  - assert (HNF : 1 <= NUM_FRAMES G).
    { unfold NUM_FRAMES.
      pose proof (Z.pow_pos_nonneg 2
                    (PHYSICAL_ADDRESS_WIDTH G - OFFSET_WIDTH G)). lia. }
    unfold safe, zero_writes. apply Forall_rev, Forall_map.
    apply Forall_forall. intros n Hn. apply in_seq in Hn.
    cbn [event_in_memory]. zbool; nia.
  - intros i q Hi. cbn [walk]. rewrite R.
    replace (0 * PS + i) with i by lia.
    destruct (Z.leb_spec 0 i), (Z.ltb_spec i PS); try lia. reflexivity.
Qed.

End Initialize.

(** ** The distance between pages *)

Section DistanceMetric.

Variable G : Geometry.

Hypothesis Hpages : NUM_PAGES G <= 2 ^ 31.

(** X3: [cyclic_distance] is symmetric.  On page numbers, with at most
    2^31 pages, it lies between 0 and half the number of pages, it is 0
    for equal pages only, and it satisfies the triangle inequality. *)
Theorem X3_cyclic_distance_metric :
  (forall p1 p2, cyclic_distance G p1 p2 = cyclic_distance G p2 p1) /\
  (forall p1 p2 p3,
     0 <= p1 < NUM_PAGES G -> 0 <= p2 < NUM_PAGES G ->
     0 <= p3 < NUM_PAGES G ->
     0 <= 2 * cyclic_distance G p1 p2 <= NUM_PAGES G /\
     (cyclic_distance G p1 p2 = 0 <-> p1 = p2) /\
     cyclic_distance G p1 p3 <=
     cyclic_distance G p1 p2 + cyclic_distance G p2 p3).
Proof.
  split.
  - intros p1 p2. unfold cyclic_distance.
    destruct (Z.gtb_spec p1 p2), (Z.gtb_spec p2 p1); try lia; try reflexivity.
    assert (p1 = p2) by lia. subst. reflexivity.
  - intros p1 p2 p3 H1 H2 H3.
    rewrite !(cyclic_distance_min G Hpages) by assumption. lia.
Qed.

(** X14: with at most 2^31 pages, [cyclic_distance] of two page
    numbers is the distance its comment and the specification define:
    the smaller of [|p1 - p2|] and [NUM_PAGES - |p1 - p2|]. *)
Theorem X14_cyclic_distance_formula (p1 p2 : Z) :
  0 <= p1 < NUM_PAGES G -> 0 <= p2 < NUM_PAGES G ->
  cyclic_distance G p1 p2 = cyclic G p1 p2.
Proof. apply (cyclic_distance_min G Hpages). Qed.

End DistanceMetric.

(** ** What the finder asks of the physical memory *)

Section Traffic.

Variable G : Geometry.

Local Abbreviation PS := (PAGE_SIZE G).
Local Abbreviation OW := (OFFSET_WIDTH G).
Local Abbreviation TD := (TABLES_DEPTH G).

Hypothesis HOW : 1 <= OW.

Lemma reads_of_app (P : Z -> Prop) (l1 l2 : list PMEvent) :
  reads_of P l1 -> reads_of P l2 -> reads_of P (l1 ++ l2).
Proof. intros H1 H2. apply Forall_app. auto. Qed.

Lemma reads_of_impl (P Q : Z -> Prop) (l : list PMEvent) :
  (forall a, P a -> Q a) -> reads_of P l -> reads_of Q l.
Proof.
  intros H. apply Forall_impl. intros e (a & -> & Ha). exists a. auto.
Qed.

Lemma table_addr_here (m : Z -> Z) (b : nat) (f j : Z) :
  0 <= j < PS -> table_addr G m (S b) f (f * PS + j).
Proof.
  intros Hj. exists [], f, j.
  splits; [apply Forall_nil|cbn; lia|reflexivity|lia|lia|reflexivity].
Qed.

Lemma table_addr_child (m : Z -> Z) (b : nat) (f i a : Z) :
  0 <= i < PS -> m (f * PS + i) <> 0 ->
  table_addr G m b (m (f * PS + i)) a -> table_addr G m (S b) f a.
Proof.
  intros Hi Hne (q & g & j & Hq & Hl & Hw & Hj & ->).
  exists (i :: q), g, j.
  split; [constructor; auto|]. split; [cbn [length]; lia|].
  split; [rewrite (walk_cons G); auto|]. split; [exact Hj|reflexivity].
Qed.

Lemma is_root_empty_events (cnt : nat) :
  forall i f pm,
    0 <= i -> i + Z.of_nat cnt <= PS ->
    exists reads,
      (forall b, reads_of (table_addr G (RAM pm) (S b) f) reads) /\
      events (snd (is_root_empty G cnt i f pm)) = reads ++ events pm.
Proof.
  induction cnt as [|c IH]; intros i f pm Hi Hc.
  - exists []. split; [constructor|reflexivity].
  - cbn [is_root_empty PMread].
    assert (Hr : forall b, reads_of (table_addr G (RAM pm) (S b) f)
                             [EvRead (f * PS + i)]).
    { intros b. constructor; [|constructor].
      exists (f * PS + i). split; auto. apply table_addr_here. lia. }
    destruct (RAM pm (f * PS + i) =? 0).
    + destruct (IH (i + 1) f
                   (mkPhysMem (RAM pm) (swapFile pm)
                      (EvRead (f * PS + i) :: events pm)))
        as (reads & A & B); try lia.
      cbn [RAM events] in A, B.
      exists (reads ++ [EvRead (f * PS + i)]). split.
      * intros b. apply reads_of_app; auto.
      * rewrite B, <- app_assoc. reflexivity.
    + exists [EvRead (f * PS + i)]. split; auto.
Qed.

Section Children.

Variable b : nat.

Hypothesis IHb :
  forall args f cv parent off pm,
    f <> 0 -> priority args <> 1 ->
    traffic_below G (RAM pm) b f
      (fun a => a = parent * PS + off \/ table_addr G (RAM pm) b f a)
      args pm (find_next_frame G b args f cv parent off pm).

Lemma search_children_traffic (cnt : nat) :
  forall i args pm f cv,
    Z.of_nat cnt + i = PS -> 0 <= i -> priority args <> 1 ->
    traffic_below G (RAM pm) (S b) f (table_addr G (RAM pm) (S b) f) args pm
      (snd (fst (search_children G (find_next_frame G b) cnt i f cv args pm)),
       snd (search_children G (find_next_frame G b) cnt i f cv args pm)).
Proof.
  induction cnt as [|c IH]; intros i args pm f cv Hcnt Hi Hp.
  - exists []. split; [constructor|]. right. split; reflexivity.
  - cbn [search_children PMread].
    set (pm1 := mkPhysMem (RAM pm) (swapFile pm)
                  (EvRead (f * PS + i) :: events pm)).
    set (m := RAM pm).
    assert (Hr : reads_of (table_addr G m (S b) f) [EvRead (f * PS + i)]).
    { constructor; [|constructor].
      exists (f * PS + i). split; auto. apply table_addr_here. lia. }
    destruct (Z.eqb_spec (m (f * PS + i)) 0) as [E|E].
    + destruct (IH (i + 1) args pm1 f cv) as (reads & A & B); try lia; auto.
      change (RAM pm1) with m in A. cbn [fst snd] in B.
      change (events pm1) with (EvRead (f * PS + i) :: events pm) in B.
      exists (reads ++ [EvRead (f * PS + i)]). split.
      * apply reads_of_app; auto.
      * cbn [fst snd]. rewrite <- !app_assoc. exact B.
    + set (v := m (f * PS + i)) in *.
      set (args1 := if v >=? maxFrame args then set_maxFrame args v else args).
      assert (Hp1 : priority args1 = priority args).
      { unfold args1. destruct (v >=? maxFrame args); auto. }
      assert (Hlift : forall a, table_addr G m b v a ->
                                table_addr G m (S b) f a).
      { intros a. apply table_addr_child; [lia|exact E]. }
      pose proof (IHb args1 v (Z.shiftl cv OW + i) f i pm1 E
                    ltac:(congruence)) as R.
      pose proof (find_next_frame_spec G HOW b args1 v (Z.shiftl cv OW + i)
                    f i pm1 E ltac:(congruence)) as Sp.
      change (RAM pm1) with m in R, Sp.
      destruct (find_next_frame G b args1 v (Z.shiftl cv OW + i) f i pm1)
        as [args2 pm2].
      destruct R as (reads & R1 & R2). cbn [fst snd] in R2.
      change (events pm1) with (EvRead (f * PS + i) :: events pm) in R2.
      apply (reads_of_impl _ _ _ Hlift) in R1.
      destruct R2 as [(P1 & a & Ha & Ev)|(P2 & Ev)].
      * rewrite P1, Z.eqb_refl. cbn [fst snd].
        exists (reads ++ [EvRead (f * PS + i)]). split.
        -- apply reads_of_app; auto.
        -- left. split; auto. exists a. split.
           ++ destruct Ha as [->|Ha]; [apply table_addr_here; lia|auto].
           ++ cbn [fst snd]. rewrite Ev, <- app_assoc. reflexivity.
      * assert (Hp2 : priority args2 <> 1) by congruence.
        destruct (Z.eqb_spec (priority args2) 1) as [|_]; [easy|].
        destruct Sp as (_ & _ & _ & [Sp|Sp]); cbn [fst snd] in Sp.
        { destruct Sp as [Sp _]. congruence. }
        destruct Sp as (_ & _ & S3 & _).
        destruct (IH (i + 1) args2 pm2 f cv) as (reads' & A & B);
          try lia; auto.
        rewrite S3 in A. cbn [fst snd] in B.
        exists (reads' ++ reads ++ [EvRead (f * PS + i)]). split.
        -- repeat apply reads_of_app; auto.
        -- rewrite Ev in B. rewrite <- !app_assoc. cbn [app fst snd].
           destruct B as [(Q1 & a & Ha & Ev')|(Q2 & Ev')].
           ++ left. split; auto. exists a. rewrite S3 in Ha. split; auto.
           ++ right. split; [congruence|auto].
Qed.

End Children.

Lemma find_next_frame_traffic (b : nat) :
  forall args f cv parent off pm,
    f <> 0 -> priority args <> 1 ->
    traffic_below G (RAM pm) b f
      (fun a => a = parent * PS + off \/ table_addr G (RAM pm) b f a)
      args pm (find_next_frame G b args f cv parent off pm).
Proof.
  pose proof (PAGE_SIZE_pos G HOW) as HPS.
  induction b as [|b IH]; intros args f cv parent off pm Hf Hp.
  - cbn [find_next_frame].
    destruct (update_max_cyclic_distance_fields G args f cv parent off)
      as (_ & _ & F3 & _).
    exists []. split; [constructor|]. right. split; auto.
  - cbn [find_next_frame].
    destruct (is_root_empty_events (Z.to_nat PS) 0 f pm)
      as (reads0 & A & B); try lia.
    destruct (is_root_empty_spec G (Z.to_nat PS) 0 f pm) as (A1 & _ & _).
    destruct (is_root_empty G (Z.to_nat PS) 0 f pm) as [isEmpty pm1].
    cbn [fst snd] in A1, B.
    destruct (negb (f =? 0) && negb (f =? currentFrame args) && isEmpty).
    + exists reads0. split; auto. left. split; [reflexivity|].
      exists (parent * PS + off). split; auto.
      cbn [snd PMwrite events]. rewrite B. reflexivity.
    + pose proof (search_children_traffic b IH (Z.to_nat PS) 0 args pm1 f cv
                    ltac:(lia) ltac:(lia) Hp) as T.
      pose proof (search_children_spec G (find_next_frame G b) b
                    (find_next_frame_spec G HOW b)
                    (Z.to_nat PS) 0 args pm1 f cv parent off
                    ltac:(lia) ltac:(lia) Hp) as [Sp _].
      rewrite A1 in T.
      destruct (search_children G (find_next_frame G b) (Z.to_nat PS) 0 f cv
                  args pm1) as [[returned args1] pm2].
      cbn [fst snd] in T, Sp.
      destruct (Z.eqb_spec f 0) as [|_]; [easy|].
      assert (Hres : traffic_below G (RAM pm) (S b) f
                (fun a => a = parent * PS + off \/
                          table_addr G (RAM pm) (S b) f a)
                args pm (args1, pm2)).
      { destruct T as (reads & T1 & T2). cbn [fst snd] in T2.
        exists (reads ++ reads0). split; [apply reads_of_app; auto|].
        rewrite B, app_assoc in T2.
        destruct T2 as [(P1 & a & Ha & Ev)|(P2 & Ev)]; [left|right]; auto.
        split; auto. exists a. auto. }
      destruct returned; exact Hres.
Qed.

Hypothesis HVAW : OW < VIRTUAL_ADDRESS_WIDTH G.

Lemma find_next_frame_top_traffic (args : SearchArguments) (pm : PhysMem) :
  priority args <> 1 ->
  finder_traffic G pm (find_next_frame G TD args 0 0 0 0 pm).
Proof.
  intros Hp. pose proof (PAGE_SIZE_pos G HOW) as HPS.
  pose proof (TABLES_DEPTH_pos G HOW HVAW) as HTD.
  destruct TD as [|b] eqn:ETD; [lia|].
  cbn [find_next_frame].
  destruct (is_root_empty_events (Z.to_nat PS) 0 0 pm)
    as (reads0 & A & B); try lia.
  destruct (is_root_empty_spec G (Z.to_nat PS) 0 0 pm) as (A1 & _ & _).
  destruct (is_root_empty G (Z.to_nat PS) 0 0 pm) as [isEmpty pm1].
  cbn [fst snd] in A1, B. cbn [Z.eqb negb andb].
  pose proof (search_children_traffic b (find_next_frame_traffic b)
                (Z.to_nat PS) 0 args pm1 0 0
                ltac:(lia) ltac:(lia) Hp) as T.
  pose proof (search_children_spec G (find_next_frame G b) b
                (find_next_frame_spec G HOW b)
                (Z.to_nat PS) 0 args pm1 0 0 0 0
                ltac:(lia) ltac:(lia) Hp) as [Sp _].
  rewrite A1 in T.
  destruct (search_children G (find_next_frame G b) (Z.to_nat PS) 0 0 0
              args pm1) as [[returned args1] pm2].
  cbn [fst snd] in T, Sp.
  destruct T as (reads & T1 & T2). cbn [fst snd] in T2.
  rewrite B, app_assoc in T2.
  unfold finder_traffic. rewrite ETD.
  exists (reads ++ reads0). split; [apply reads_of_app; auto|].
  destruct returned.
  - destruct Sp as [Sp _]. specialize (Sp eq_refl).
    destruct T2 as [(P1 & a & Ha & Ev)|(P2 & Ev)]; [|congruence].
    left. split; auto. exists a. auto.
  - assert (Hn1 : priority args1 <> 1).
    { intros E. destruct Sp as [_ Sp]. specialize (Sp E). discriminate. }
    destruct T2 as [(P1 & _)|(P2 & Ev)]; [congruence|].
    right. unfold empty_frame_not_found.
    destruct (maxFrame args1 + 1 <? NUM_FRAMES G).
    + left. split; [reflexivity|exact Ev].
    + right. split; [reflexivity|].
      cbn [fst snd PMevict PMwrite events set_priority maxCyclicFrame
           maxCyclicPage maxCyclicParent]. rewrite Ev. reflexivity.
Qed.

End Traffic.

(** ** Pages in memory *)

Section Resident.

Variable G : Geometry.

Local Abbreviation PS := (PAGE_SIZE G).
Local Abbreviation OW := (OFFSET_WIDTH G).
Local Abbreviation TD := (TABLES_DEPTH G).

Hypothesis HOW : 1 <= OW.

(** A walk that finds every slot of its path non-zero only reads. *)
Lemma translate_loop_hit (q : list Z) :
  forall (pre post : list Z) (pageNum cur F : Z) (pm : PhysMem) (g : list Z),
    valid_path G q ->
    walk G (RAM pm) 0 g = Some cur -> valid_path G g ->
    walk G (RAM pm) cur q = Some F ->
    let res := translate_loop G (length q) (length pre) (pre ++ q ++ post)
                 pageNum cur (init_args cur pageNum) pm in
    fst res = F /\ RAM (snd res) = RAM pm /\
    swapFile (snd res) = swapFile pm /\
    exists reads,
      events (snd res) = reads ++ events pm /\ length reads = length q /\
      reads_of (table_addr G (RAM pm) (length g + length q) 0) reads.
Proof.
  induction q as [|x q IH]; intros pre post pageNum cur F pm g Hq Hg Hgv Hw.
  - cbn in Hw. injection Hw as <-. cbn. splits; auto.
    exists []. splits; auto. constructor.
  - change ((x :: q) ++ post) with (x :: q ++ post).
    cbn [length translate_loop]. unfold translate_step.
    cbn [init_args currentFrame PMread].
    rewrite nth_middle.
    apply (walk_cons_some G) in Hw. destruct Hw as [Hne Hw].
    destruct (Z.eqb_spec (RAM pm (cur * PS + x)) 0) as [|_]; [easy|].
    set (pm1 := mkPhysMem (RAM pm) (swapFile pm)
                  (EvRead (cur * PS + x) :: events pm)).
    inversion Hq as [|? ? Hx Hq']; subst.
    specialize (IH (pre ++ [x]) post pageNum (RAM pm (cur * PS + x)) F pm1
                   (g ++ [x]) Hq').
    rewrite length_app in IH. cbn [length] in IH.
    replace (length pre + 1)%nat with (S (length pre)) in IH by lia.
    rewrite <- app_assoc in IH. cbn [app] in IH.
    destruct IH as (A & B & C & reads & D1 & D2 & D3).
    + cbn [RAM pm1]. rewrite (walk_snoc G _ _ cur); auto.
      destruct (Z.eqb_spec (RAM pm (cur * PS + x)) 0); easy.
    + apply Forall_app. split; auto.
    + exact Hw.
    + cbn [RAM pm1] in *. splits; auto.
      exists (reads ++ [EvRead (cur * PS + x)]). splits.
      * rewrite D1, <- app_assoc. reflexivity.
      * rewrite length_app, D2. cbn. lia.
      * apply reads_of_app.
        -- rewrite length_app in D3. cbn [length] in D3.
           replace (length g + S (length q))%nat
             with (length g + 1 + length q)%nat by lia. exact D3.
        -- constructor; [|constructor]. exists (cur * PS + x). split; auto.
           exists g, cur, x. splits; auto; lia.
Qed.

Lemma offsets_split (va : Z) :
  init_offsets G va = digits G TD (va / PS) ++ [va mod PS] /\
  firstn TD (init_offsets G va) = digits G TD (va / PS).
Proof.
  rewrite (init_offsets_digits G HOW).
  rewrite firstn_app, (digits_length G), Nat.sub_diag, firstn_O, app_nil_r.
  rewrite firstn_all2 by (rewrite (digits_length G); lia). auto.
Qed.

Lemma find_physical_address_hit (va F : Z) (pm : PhysMem) :
  walk G (RAM pm) 0 (firstn TD (init_offsets G va)) = Some F ->
  let res := find_physical_address G va (init_offsets G va) pm in
  fst res = F /\ RAM (snd res) = RAM pm /\
  swapFile (snd res) = swapFile pm /\
  exists reads,
    events (snd res) = reads ++ events pm /\ length reads = TD /\
    reads_of (table_addr G (RAM pm) TD 0) reads.
Proof.
  intros Hw. destruct (offsets_split va) as [E1 E2].
  rewrite E2 in Hw. unfold find_physical_address. rewrite E1.
  pose proof (translate_loop_hit (digits G TD (va / PS)) [] [va mod PS]
                (Z.shiftr va OW) 0 F pm []
                (digits_valid G HOW _ _) eq_refl (Forall_nil _) Hw) as H.
  rewrite (digits_length G) in H. cbn [length app Nat.add] in H. exact H.
Qed.

Lemma resident_access (va value x F : Z) (pm : PhysMem) :
  va < VIRTUAL_MEMORY_SIZE G -> Z.shiftr va OW < NUM_PAGES G ->
  walk G (RAM pm) 0 (firstn TD (init_offsets G va)) = Some F ->
  let addr := F * PS + nth TD (init_offsets G va) 0 in
  fst (VMread G va value pm) = (1, RAM pm addr) /\
  RAM (snd (VMread G va value pm)) = RAM pm /\
  swapFile (snd (VMread G va value pm)) = swapFile pm /\
  fst (VMwrite G va x pm) = 1 /\
  RAM (snd (VMwrite G va x pm)) = upd (RAM pm) addr x /\
  swapFile (snd (VMwrite G va x pm)) = swapFile pm.
Proof.
  intros H1 H2 Hw addr.
  destruct (same_translation G va value x pm H1 H2) as [-> ->].
  destruct (find_physical_address_hit va F pm Hw) as (A & B & C & _).
  cbn [fst snd PMread PMwrite RAM swapFile]. unfold addr.
  rewrite A, B, C. splits; reflexivity.
Qed.

End Resident.

(** ** The virtual memory as a flat array *)

Section Flat.

Variable G : Geometry.

Local Abbreviation PS := (PAGE_SIZE G).
Local Abbreviation OW := (OFFSET_WIDTH G).
Local Abbreviation TD := (TABLES_DEPTH G).
Local Abbreviation NF := (NUM_FRAMES G).

Hypothesis HOW : 1 <= OW.
Hypothesis HVAW : OW < VIRTUAL_ADDRESS_WIDTH G.
Hypothesis Hframes : Z.of_nat TD < NF.
Hypothesis Hpages : NUM_PAGES G <= 2 ^ 31.

(** A page has at most 2^30 words and the memory at most 2^30 frames:
    the loop counters and the frame indices of the code, of type [int],
    are then the integers computed here. *)
Hypothesis HOW30 : OW <= 30.
Hypothesis HNF30 : NF <= 2 ^ 30.

Lemma flat_run_ext (ops : list VMop) :
  forall (mem mem' : Z -> Z) (V : Z),
    mem V = mem' V -> flat_run G ops mem V = flat_run G ops mem' V.
Proof.
  induction ops as [|op ops IH]; intros mem mem' V E; [exact E|].
  cbn [flat_run fold_left]. apply IH.
  destruct op as [a|a v]; cbn [flat_op]; auto.
  destruct (a <? VIRTUAL_MEMORY_SIZE G); auto.
  unfold upd. destruct (V =? a); auto.
Qed.

Lemma vmem_run_op (op : VMop) (pm : PhysMem) (k V : Z) :
  wf_op op -> tree_inv G (RAM pm) k -> 0 <= V < VIRTUAL_MEMORY_SIZE G ->
  vmem G (run_op G pm op) V = flat_op G (vmem G pm) op V.
Proof.
  intros Hwf Hinv HV.
  destruct (run_op_spec G HOW HVAW Hframes Hpages op pm k Hwf Hinv)
    as [_ Hc].
  destruct op as [a|a v]; cbn [flat_op].
  - apply Hc; auto. discriminate.
  - unfold wf_op in Hwf. cbn [op_addr] in Hwf.
    destruct (Z.ltb_spec a (VIRTUAL_MEMORY_SIZE G)) as [Hlt|Hge].
    + unfold upd. destruct (Z.eqb_spec V a) as [->|Hne].
      * cbn [run_op].
        destruct (VMwrite_spec G HOW HVAW Hframes Hpages a v pm k
                    ltac:(lia) Hinv) as (_ & k' & _ & _ & E & _).
        exact E.
      * apply Hc; auto. intros w E. injection E as E _. congruence.
    + cbn [run_op]. rewrite VMwrite_out_of_range by auto. reflexivity.
Qed.

Lemma vmem_run_ops (ops : list VMop) :
  forall (pm : PhysMem) (k V : Z),
    Forall wf_op ops -> tree_inv G (RAM pm) k ->
    0 <= V < VIRTUAL_MEMORY_SIZE G ->
    vmem G (run_ops G ops pm) V = flat_run G ops (vmem G pm) V.
Proof.
  induction ops as [|op ops IH]; intros pm k V Hwf Hinv HV; [reflexivity|].
  inversion Hwf as [|? ? Hop Hops]; subst.
  destruct (run_op_spec G HOW HVAW Hframes Hpages op pm k Hop Hinv)
    as [(k1 & _ & Hinv1) _].
  cbn [run_ops flat_run fold_left].
  change (fold_left (run_op G) ops (run_op G pm op))
    with (run_ops G ops (run_op G pm op)).
  rewrite (IH _ k1 V Hops Hinv1 HV).
  apply flat_run_ext. apply (vmem_run_op op pm k V); auto.
Qed.

Lemma vmem_initial (pm0 : PhysMem) (V : Z) :
  (forall p, swapFile pm0 p = None) ->
  0 <= V < VIRTUAL_MEMORY_SIZE G ->
  vmem G (VMinitialize G pm0) V = 0.
Proof.
  intros Hsw HV.
  destruct (VMinitialize_spec G HOW HVAW Hframes pm0) as [Hs Hinit].
  unfold vmem, page_content, content.
  pose proof (TABLES_DEPTH_pos G HOW HVAW) as HTD.
  destruct (walk G (RAM (VMinitialize G pm0)) 0 (digits G TD (V / PS)))
    as [f|] eqn:Ew.
  - exfalso. destruct Hinit as [_ Hshape].
    assert (1 <= f <= 0); [|lia].
    apply (shape_frames G _ _ Hshape). exists (digits G TD (V / PS)).
    split.
    + intros E. apply (f_equal (@length Z)) in E.
      rewrite digits_length in E. cbn in E. lia.
    + unfold reach. splits; auto; [apply digits_valid; auto|].
      rewrite digits_length. lia.
  - now rewrite Hs, Hsw.
Qed.

(** X7: with more frames than levels of tables, at most 2^31 pages, and
    at most 2^30 words in a page and frames in the memory, reads and
    writes behave as on a flat array of words.  From any state reached
    from [VMinitialize], after any operations a read of a valid address
    returns 1 and the word that the flat array holds when the same
    operations are applied to the words read before them; after
    [VMinitialize] with an empty backing store the array starts with
    zeros. *)
Theorem X7_flat_memory :
  (forall pm ops V z,
     reachable G pm -> Forall wf_op ops ->
     0 <= V < VIRTUAL_MEMORY_SIZE G ->
     fst (VMread G V z (run_ops G ops pm)) =
     (1, flat_run G ops (fun a => snd (fst (VMread G a 0 pm))) V)) /\
  (forall pm0 ops V z,
     (forall p, swapFile pm0 p = None) -> Forall wf_op ops ->
     0 <= V < VIRTUAL_MEMORY_SIZE G ->
     fst (VMread G V z (run_ops G ops (VMinitialize G pm0))) =
     (1, flat_run G ops (fun _ => 0) V)).
Proof using HOW HVAW Hframes Hpages HOW30 HNF30.
  split.
  - intros pm ops V z Hr Hwf HV.
    destruct (reachable_inv G HOW HVAW Hframes Hpages pm Hr) as (k & Hinv).
    destruct (run_ops_spec G HOW HVAW Hframes Hpages ops pm k Hwf Hinv)
      as [(k' & _ & Hinv') _].
    rewrite (VMread_result G HOW HVAW Hframes Hpages V z _ k' HV Hinv').
    f_equal. rewrite (vmem_run_ops ops pm k V Hwf Hinv HV).
    apply flat_run_ext.
    now rewrite (VMread_result G HOW HVAW Hframes Hpages V 0 pm k HV Hinv).
  - intros pm0 ops V z Hsw Hwf HV.
    destruct (VMinitialize_spec G HOW HVAW Hframes pm0) as [_ Hinit].
    destruct (run_ops_spec G HOW HVAW Hframes Hpages ops _ 0 Hwf Hinit)
      as [(k' & _ & Hinv') _].
    rewrite (VMread_result G HOW HVAW Hframes Hpages V z _ k' HV Hinv').
    f_equal. rewrite (vmem_run_ops ops _ 0 V Hwf Hinit HV).
    apply flat_run_ext. apply vmem_initial; auto.
Qed.

(** The frames referenced by a tree that satisfies the invariant. *)
Lemma tree_inv_referenced (m : Z -> Z) (k f : Z) :
  tree_inv G m k -> (referenced G m f <-> 1 <= f <= k).
Proof.
  intros [_ Hshape]. rewrite referenced_reach.
  symmetry. apply (shape_frames G _ _ Hshape).
Qed.

(** X8: with more frames than levels of tables, at most 2^31 pages, and
    at most 2^30 words in a page and frames in the memory, a read or a
    write never releases a frame: a frame that the tables refer to
    before the operation is referred to after it. *)
Theorem X8_frames_stay_referenced (pm : PhysMem) (op : VMop) (f : Z) :
  reachable G pm -> wf_op op ->
  referenced G (RAM pm) f -> referenced G (RAM (run_op G pm op)) f.
Proof using HOW HVAW Hframes Hpages HOW30 HNF30.
  intros Hr Hwf Hf.
  destruct (reachable_inv G HOW HVAW Hframes Hpages pm Hr) as (k & Hinv).
  destruct (run_op_spec G HOW HVAW Hframes Hpages op pm k Hwf Hinv)
    as [(k' & Hk & Hinv') _].
  apply (tree_inv_referenced _ k) in Hf; auto.
  apply (tree_inv_referenced _ k'); auto. lia.
Qed.

(** After an access to [V] the page of [V] is in memory. *)
Lemma page_resident_after (op : VMop) (pm : PhysMem) (k V : Z) :
  tree_inv G (RAM pm) k -> 0 <= V < VIRTUAL_MEMORY_SIZE G ->
  op_addr op = V ->
  exists F, walk G (RAM (run_op G pm op)) 0 (digits G TD (V / PS)) = Some F.
Proof.
  intros Hinv HV Hop. pose proof (PAGE_SIZE_pos G HOW) as HPS.
  destruct (in_range_tests G HOW HVAW V HV) as [T1 T2].
  rewrite Z.geb_leb in T1, T2. apply Z.leb_gt in T1, T2.
  destruct (find_physical_address_spec G HOW HVAW Hframes Hpages V pm k
              HV Hinv) as (k' & _ & [_ Hshape] & Hre & _).
  destruct op as [a|a v]; cbn [op_addr] in Hop; subst a; cbn [run_op].
  - destruct (same_translation G V 0 0 pm T1 T2) as [-> _].
    cbn [snd PMread RAM]. destruct Hre as (_ & _ & Hw). eauto.
  - destruct (same_translation G V 0 v pm T1 T2) as [_ ->].
    cbn [snd PMwrite RAM]. rewrite (nth_last_offset G HOW).
    exists (fst (find_physical_address G V (init_offsets G V) pm)).
    rewrite (leaf_write_walk G _ _ (digits G TD (V / PS)) _ _ _ _
               Hshape Hre).
    + now destruct Hre as (_ & _ & Hw).
    + apply digits_length.
    + apply Z.mod_pos_bound. lia.
    + apply digits_valid; auto.
    + rewrite digits_length. lia.
Qed.

(** X9: with more frames than levels of tables, at most 2^31 pages, and
    at most 2^30 words in a page and frames in the memory, after an
    access to an address an access to any address of the same page finds
    the page in memory: a read changes neither the memory nor the
    backing store, a write changes one word of the memory. *)
Theorem X9_no_second_fault (pm : PhysMem) (op : VMop) (V V' z y : Z) :
  reachable G pm -> 0 <= V < VIRTUAL_MEMORY_SIZE G ->
  0 <= V' < VIRTUAL_MEMORY_SIZE G -> op_addr op = V ->
  Z.shiftr V' OW = Z.shiftr V OW ->
  let pm1 := run_op G pm op in
  RAM (snd (VMread G V' z pm1)) = RAM pm1 /\
  swapFile (snd (VMread G V' z pm1)) = swapFile pm1 /\
  swapFile (snd (VMwrite G V' y pm1)) = swapFile pm1 /\
  exists a, RAM (snd (VMwrite G V' y pm1)) = upd (RAM pm1) a y.
Proof using HOW HVAW Hframes Hpages HOW30 HNF30.
  intros Hr HV HV' Hop Hsame pm1.
  destruct (reachable_inv G HOW HVAW Hframes Hpages pm Hr) as (k & Hinv).
  destruct (page_resident_after op pm k V Hinv HV Hop) as (F & HF).
  fold pm1 in HF.
  destruct (in_range_tests G HOW HVAW V' HV') as [T1 T2].
  rewrite Z.geb_leb in T1, T2. apply Z.leb_gt in T1, T2.
  rewrite !(shiftr_PS G HOW) in Hsame. rewrite <- Hsame in HF.
  destruct (offsets_split G HOW V') as [_ E2]. rewrite <- E2 in HF.
  destruct (resident_access G HOW V' z y F pm1 T1 T2 HF)
    as (_ & A & B & _ & C & D).
  splits; auto. eexists. exact C.
Qed.

End Flat.

(** ** Installing a frame *)

Section Installs.

Variable G : Geometry.

Local Abbreviation PS := (PAGE_SIZE G).
Local Abbreviation OW := (OFFSET_WIDTH G).
Local Abbreviation TD := (TABLES_DEPTH G).
Local Abbreviation NF := (NUM_FRAMES G).

Hypothesis HOW : 1 <= OW.
Hypothesis HVAW : OW < VIRTUAL_ADDRESS_WIDTH G.
Hypothesis Hframes : Z.of_nat TD < NF.
Hypothesis Hpages : NUM_PAGES G <= 2 ^ 31.

(** A page has at most 2^30 words and the memory at most 2^30 frames:
    the loop counters and the frame indices of the code, of type [int],
    are then the integers computed here. *)
Hypothesis HOW30 : OW <= 30.
Hypothesis HNF30 : NF <= 2 ^ 30.

(** The step of the translator on an empty slot. *)
Lemma translate_step_miss (offsets : list Z) (i : nat) (cur page : Z)
  (pm : PhysMem) :
  let slot := cur * PS + nth i offsets 0 in
  let fc := find_next_frame G TD (init_args cur page) 0 0 0 0
              (snd (PMread slot pm)) in
  let F := chosen_frame (set_maxFrame (fst fc) (maxFrame (fst fc) + 1)) 0 in
  RAM pm slot = 0 -> pageNumber (fst fc) = page ->
  translate_step G offsets i (init_args cur page) pm =
  (F, if Z.of_nat i =? Z.of_nat TD - 1
      then PMrestore G F page (PMwrite slot F (snd fc))
      else zero_frame G (Z.to_nat PS) 0 F (PMwrite slot F (snd fc))).
Proof.
  intros slot fc F Hz. unfold translate_step.
  cbn [init_args currentFrame PMread]. fold slot. rewrite Hz. cbn [Z.eqb].
  unfold F, fc. cbn [PMread snd].
  destruct (find_next_frame G TD (init_args cur page) 0 0 0 0
              (mkPhysMem (RAM pm) (swapFile pm) (EvRead slot :: events pm)))
    as [args1 pm2].
  cbn [fst snd set_maxFrame pageNumber]. intros ->. reflexivity.
Qed.

(** The state in which the translator calls the finder. *)
Lemma walking_miss (va : Z) (i : nat) (cur : Z) (pm : PhysMem) :
  walking G va i cur pm -> (i < TD)%nat ->
  let pa := digits G TD (va / PS) in
  0 <= va / PS < NUM_PAGES G /\
  nth i (init_offsets G va) 0 = nth i pa 0 /\
  0 <= nth i pa 0 < PS /\
  length (firstn i pa) = i /\
  exists k, tree_inv G (RAM pm) k /\ reach G (RAM pm) (firstn i pa) cur.
Proof.
  intros Hw Hi pa.
  destruct (walking_inv G HOW HVAW Hframes Hpages va i cur pm Hw)
    as (Hva & _ & k & Hinv & Hcur).
  pose proof (digits_valid G HOW TD (va / PS)) as Hdv.
  pose proof (digits_length G TD (va / PS)) as Hdl.
  fold pa in Hdv, Hdl.
  split; [apply (page_in_range G HOW HVAW va Hva)|].
  split; [rewrite (init_offsets_digits G HOW); apply app_nth1; fold pa; lia|].
  split; [apply (valid_path_nth G); auto; lia|].
  split; [apply firstn_length_le; lia|].
  exists k. auto.
Qed.

(** X10: with more frames than levels of tables, at most 2^31 pages, and
    at most 2^30 words in a page and frames in the memory, when the
    translator finds a slot empty it writes the frame given by the
    finder into the slot, which is no slot of that frame, and only then
    fills the frame: with zeros when the frame is to be a table, with
    the page kept in the backing store, or zeros for a page not kept
    there, when it is the leaf.  The rest of the memory and the backing
    store are as the finder left them. *)
Theorem X10_translator_installs (va : Z) (i : nat) (cur : Z) (pm : PhysMem) :
  walking G va i cur pm -> (i < TD)%nat ->
  let slot := cur * PS + nth i (init_offsets G va) 0 in
  RAM pm slot = 0 ->
  let res := translate_step G (init_offsets G va) i
               (init_args cur (Z.shiftr va OW)) pm in
  let F := finder_frame G va i cur pm in
  let pm2 := snd (finder_call G va i cur pm) in
  fst res = F /\ F <> cur /\
  RAM (snd res) slot = F /\
  ((S i < TD)%nat ->
   forall x, 0 <= x < PS -> RAM (snd res) (F * PS + x) = 0) /\
  (S i = TD ->
   forall x, 0 <= x < PS ->
     RAM (snd res) (F * PS + x) =
     match swapFile pm2 (Z.shiftr va OW) with
     | Some c => c x
     | None => 0
     end) /\
  (forall a, a <> slot -> ~ (F * PS <= a < F * PS + PS) ->
             RAM (snd res) a = RAM pm2 a) /\
  swapFile (snd res) = swapFile pm2 /\
  events (snd res) =
  (if Z.of_nat i =? Z.of_nat TD - 1
   then [EvRestore F (Z.shiftr va OW)]
   else zero_writes (F * PS + 0) (Z.to_nat PS))
  ++ EvWrite slot F :: events pm2.
Proof using HOW HVAW Hframes Hpages HOW30 HNF30.
  intros Hw Hi slot Hz res F pm2. pose proof (PAGE_SIZE_pos G HOW) as HPS.
  destruct (walking_miss va i cur pm Hw Hi)
    as (Hpage & Hnth & Ho & Hpre & k & Hinv & Hcur).
  pose proof Hz as Hz0. unfold slot in Hz. rewrite Hnth in Hz.
  set (pm1 := snd (PMread slot pm)).
  pose proof (finder_spec G HOW HVAW Hframes Hpages pm1 k _ cur _ (va / PS)
                Hinv Hcur ltac:(lia) Ho Hz Hpage) as Hf.
  cbv zeta in Hf. rewrite <- (shiftr_PS G HOW) in Hf.
  change (find_next_frame G TD (init_args cur (Z.shiftr va OW)) 0 0 0 0 pm1)
    with (finder_call G va i cur pm) in Hf.
  change (chosen_frame
            (set_maxFrame (fst (finder_call G va i cur pm))
               (maxFrame (fst (finder_call G va i cur pm)) + 1)) 0)
    with F in Hf.
  destruct Hf as (Hpn & _ & k' & Hk' & HF & _ & Hsh & Hre & _ & _).
  fold pm2 in Hsh, Hre. cbn [set_maxFrame pageNumber] in Hpn.
  assert (HcF : cur <> F).
  { apply (reach_not_F G (RAM pm2) _ Hsh F ltac:(tauto) ltac:(lia) _ cur Hre). }
  assert (Eres : res =
            (F, if Z.of_nat i =? Z.of_nat TD - 1
                then PMrestore G F (Z.shiftr va OW) (PMwrite slot F pm2)
                else zero_frame G (Z.to_nat PS) 0 F (PMwrite slot F pm2))).
  { apply (translate_step_miss (init_offsets G va) i cur (Z.shiftr va OW) pm
             Hz0 Hpn). }
  rewrite Eres. cbn [fst snd].
  assert (Hslot : ~ (F * PS <= slot < F * PS + PS)).
  { unfold slot. rewrite Hnth. nia. }
  split; [reflexivity|]. split; [auto|].
  destruct (Z.eqb_spec (Z.of_nat i) (Z.of_nat TD - 1)) as [E|E].
  - cbn [PMrestore PMwrite RAM swapFile].
    split; [unfold upd; zbool|]. split; [intros; lia|].
    split; [|split; [|split; reflexivity]].
    + intros _ x Hx. replace (F * PS + x - F * PS) with x by lia. zbool.
    + intros a Ha1 Ha2. unfold upd. zbool.
  - destruct (zero_frame_spec G (Z.to_nat PS) 0 F (PMwrite slot F pm2))
      as [A B]. cbn [PMwrite RAM swapFile] in A, B.
    split; [rewrite B; unfold upd; zbool|].
    split; [intros _ x Hx; rewrite B; zbool|].
    split; [intros; lia|].
    split; [|split; [exact A|apply zero_frame_events]].
    intros a Ha1 Ha2. rewrite B. unfold upd. zbool.
Qed.

(** X11: with more frames than levels of tables, at most 2^31 pages, and
    at most 2^30 words in a page and frames in the memory, the finder
    called by the translator evicts only when every frame but the root
    is referred to by the tables.  The victim is then a leaf of the
    tree, [TABLES_DEPTH] levels below the root; it holds another page
    than the one looked for, and its words are kept in the backing store
    under its page number. *)
Theorem X11_eviction_only_when_full (va : Z) (i : nat) (cur : Z)
  (pm : PhysMem) :
  walking G va i cur pm -> (i < TD)%nat ->
  RAM pm (cur * PS + nth i (init_offsets G va) 0) = 0 ->
  let res := finder_call G va i cur pm in
  let F := finder_frame G va i cur pm in
  priority (fst res) = 3 ->
  (forall f, 1 <= f < NF -> referenced G (RAM pm) f) /\
  exists q,
    length q = TD /\ reach G (RAM pm) q F /\
    maxCyclicPage (fst res) = page_of_path G 0 q /\
    0 <= maxCyclicPage (fst res) < NUM_PAGES G /\
    maxCyclicPage (fst res) <> Z.shiftr va OW /\
    exists c, swapFile (snd res) (maxCyclicPage (fst res)) = Some c /\
              forall x, 0 <= x < PS -> c x = RAM pm (F * PS + x).
Proof using HOW HVAW Hframes Hpages HOW30 HNF30.
  intros Hw Hi Hz res F Hp3. pose proof (PAGE_SIZE_pos G HOW) as HPS.
  pose proof (TABLES_DEPTH_pos G HOW HVAW) as HTD.
  destruct (walking_miss va i cur pm Hw Hi)
    as (Hpage & Hnth & Ho & Hpre & k & Hinv & Hcur).
  rewrite Hnth in Hz. rewrite (shiftr_PS G HOW).
  set (page := va / PS) in *. set (pa := digits G TD page) in *.
  set (pre := firstn i pa) in *. set (o := nth i pa 0) in *.
  set (pm1 := snd (PMread (cur * PS + nth i (init_offsets G va) 0) pm)).
  pose proof (finder_priority_rule G HOW HVAW pm1 cur page) as R.
  unfold priority_rule in R. cbv zeta in R.
  assert (Eres : find_next_frame G TD (init_args cur page) 0 0 0 0 pm1 = res).
  { unfold res, finder_call. rewrite (shiftr_PS G HOW). reflexivity. }
  assert (EF : chosen_frame (set_maxFrame (fst res) (maxFrame (fst res) + 1)) 0
               = F) by reflexivity.
  rewrite Eres, EF in R. change (RAM pm1) with (RAM pm) in R.
  change (swapFile pm1) with (swapFile pm) in R.
  set (m := RAM pm) in *.
  destruct R as [[R _]|(Hnone & M & HM & _ & Hvic & R)]; [congruence|].
  destruct R as [(_ & R & _)|(Hfull & _ & HFv & pm1' & Hr1 & Hs1 & Hsnd)];
    [congruence|].
  destruct Hinv as [Hk Hshape].
  assert (HMk : M = k).
  { destruct HM as (HM0 & HMle & HMre).
    assert (M <= k).
    { destruct HMre as [->|(q & Hq & Hr)]; [lia|].
      assert (1 <= M <= k); [|lia].
      apply (shape_frames G _ _ Hshape). eauto. }
    destruct (Z.eq_dec k 0) as [->|Hk0]; [lia|].
    assert (Hkk : 1 <= k <= k) by lia.
    apply (shape_frames G _ _ Hshape) in Hkk. destruct Hkk as (q & Hq & Hr).
    specialize (HMle q k Hq Hr). lia. }
  subst M.
  split.
  { intros f Hf. apply (tree_inv_referenced G m k); [split; auto|lia]. }
  unfold best_victim in Hvic.
  set (lv := leaves G m TD 0 0 0 0) in *.
  assert (Hlv : exists l0, In l0 lv).
  { destruct lv as [|l0 lv'] eqn:Elv; [|exists l0; now left].
    exfalso.
    assert (Hcap : k <= Z.of_nat (length pre)); [|lia].
    apply (capacity G HOW m k (conj Hk Hshape) pre cur Hcur).
    - intros q f (Hv & Hl & Hwq).
      destruct (Nat.eq_dec (length q) TD) as [E|E]; [|lia].
      exfalso.
      assert (Hin : In (f, page_of_path G 0 q, slot_addr G m 0 0 0 q) lv).
      { apply leaves_spec. exists q. rewrite Hwq. splits; auto.
        discriminate. }
      rewrite Elv in Hin. destruct Hin.
    - exact Hnone. }
  destruct Hlv as (l0 & Hl0).
  pose proof (leaf_dist_nonneg G HOW Hpages m k page l0 (conj Hk Hshape)
                Hpage Hl0) as Hd0.
  destruct (victim_fold_spec G page lv (0, 0, 0, 0))
    as [[_ Hall]|(l1 & l & l2 & Elv & Hfold & _)].
  { specialize (Hall l0 Hl0). cbn in Hall. lia. }
  rewrite Hfold in Hvic.
  assert (Hl : In l lv) by (rewrite Elv; apply in_app_iff; right; now left).
  apply leaves_spec in Hl. destruct Hl as (qv & Hv & Hlen' & -> & Hwv).
  destruct (walk G m 0 qv) as [fv|] eqn:Ew; [|easy].
  unfold victim_of, victim_of_leaf in Hvic. cbn [fst snd] in Hvic.
  injection Hvic as V1 V2 V3 V4.
  assert (Hrv : reach G m qv fv) by (unfold reach; splits; auto; lia).
  pose proof (page_of_path_bound G HOW qv Hv) as Hpb.
  pose proof (shape_pages G _ _ Hshape qv fv Hrv Hlen') as Hpp.
  exists qv. rewrite HFv, V1, V3.
  split; [auto|]. split; [auto|]. split; [auto|]. split; [lia|].
  split.
  - intros E.
    assert (Eq : qv = pa).
    { rewrite <- (digits_page_of_path G HOW qv Hv), Hlen', E. reflexivity. }
    subst qv.
    assert (Hsplit : pa = pre ++ o :: skipn (S i) pa).
    { unfold pre, o. rewrite <- (firstn_skipn i pa) at 1. f_equal.
      rewrite <- (firstn_skipn 1 (skipn i pa)).
      rewrite skipn_skipn. f_equal.
      destruct (skipn i pa) as [|y r] eqn:Es.
      - apply (f_equal (@length Z)) in Es. rewrite length_skipn in Es.
        unfold pa in Es. rewrite (digits_length G) in Es. cbn in Es. lia.
      - cbn. f_equal. rewrite <- (firstn_skipn i pa) at 1.
        rewrite app_nth2 by (fold pre; lia). fold pre. rewrite Hpre.
        rewrite Nat.sub_diag, Es. reflexivity. }
    rewrite Hsplit in Ew. rewrite (walk_app G) in Ew.
    destruct Hcur as (_ & _ & Hc). rewrite Hc in Ew.
    cbn [walk] in Ew. fold m in Hz. rewrite Hz in Ew. discriminate.
  - rewrite Hsnd. cbn [PMevict PMwrite swapFile RAM].
    rewrite V1, V3, V4, Z.eqb_refl.
    eexists. split; [reflexivity|]. intros x Hx. cbn beta.
    rewrite Hr1. unfold upd.
    destruct (exists_last (l := qv)) as (q0 & j & ->).
    { intros ->. cbn in Hlen'. lia. }
    destruct (walk_prefix G m 0 fv q0 [j] Ew) as (g & Hg & Hgj).
    rewrite (slot_addr_snoc G m q0 0 0 0 g j Hg).
    apply Forall_app in Hv. destruct Hv as [Hv0 Hvj].
    apply Forall_cons_iff in Hvj. destruct Hvj as [Hj _].
    destruct (Z.eqb_spec (fv * PS + x) (g * PS + j)) as [Ea|]; [|reflexivity].
    exfalso. apply (addr_inj G) in Ea; auto. destruct Ea as [-> _].
    rewrite length_app in Hlen'. cbn [length] in Hlen'.
    assert (Hrg : reach G m q0 g) by (unfold reach; splits; auto; lia).
    pose proof (shape_unique G _ _ Hshape _ _ g Hrg Hrv) as E.
    apply (f_equal (@length Z)) in E. rewrite length_app in E. cbn in E. lia.
Qed.

End Installs.

(** ** Accesses stay inside the memory *)

Section Safety.

Variable G : Geometry.

Local Abbreviation PS := (PAGE_SIZE G).
Local Abbreviation OW := (OFFSET_WIDTH G).
Local Abbreviation TD := (TABLES_DEPTH G).
Local Abbreviation NF := (NUM_FRAMES G).

Hypothesis HOW : 1 <= OW.
Hypothesis HVAW : OW < VIRTUAL_ADDRESS_WIDTH G.

Lemma in_memory_safe (pm : PhysMem) :
  in_memory G pm = true <-> safe G (events pm).
Proof.
  unfold in_memory, safe. rewrite forallb_forall, Forall_forall. tauto.
Qed.

Lemma safe_word (g j : Z) :
  0 <= g < NF -> 0 <= j < PS ->
  (0 <=? g * PS + j) && (g * PS + j <? NF * PS) = true.
Proof. intros Hg Hj. zbool; nia. Qed.

Lemma tree_inv_frame (m : Z -> Z) (k : Z) (q : list Z) (g : Z) :
  tree_inv G m k -> reach G m q g -> 0 <= g < NF.
Proof.
  intros [Hk Hshape] Hr. destruct q as [|x q].
  - destruct Hr as (_ & _ & Hw). cbn in Hw. injection Hw as <-. lia.
  - assert (1 <= g <= k); [|lia].
    apply (shape_frames G _ _ Hshape). exists (x :: q). split; [easy|auto].
Qed.

Lemma table_addr_safe (m : Z -> Z) (k a : Z) :
  tree_inv G m k -> table_addr G m TD 0 a ->
  (0 <=? a) && (a <? NF * PS) = true.
Proof.
  intros Hinv (q & g & j & Hq & Hl & Hw & Hj & ->).
  apply safe_word; auto.
  apply (tree_inv_frame m k q g Hinv). unfold reach. splits; auto. lia.
Qed.

Lemma reads_safe (m : Z -> Z) (k : Z) (reads : list PMEvent) :
  tree_inv G m k -> reads_of (table_addr G m TD 0) reads -> safe G reads.
Proof.
  intros Hinv. apply Forall_impl. intros e (a & -> & Ha).
  cbn [event_in_memory]. apply (table_addr_safe m k a Hinv Ha).
Qed.

Lemma zero_writes_safe (f : Z) :
  0 <= f < NF -> safe G (zero_writes (f * PS + 0) (Z.to_nat PS)).
Proof.
  intros Hf. unfold safe, zero_writes. apply Forall_rev, Forall_map.
  apply Forall_forall. intros n Hn. apply in_seq in Hn.
  cbn [event_in_memory]. rewrite <- Z.add_assoc. apply safe_word; auto. lia.
Qed.

(** The victim the traversal records on a tree that satisfies the
    invariant: a frame, a page and a slot of the memory. *)
Lemma best_victim_safe (m : Z -> Z) (k page : Z) :
  tree_inv G m k ->
  let '(f, _, p, a) := best_victim G m page in
  0 <= f < NF /\ 0 <= p < NUM_PAGES G /\
  (0 <=? a) && (a <? NF * PS) = true.
Proof.
  intros Hinv. pose proof (PAGE_SIZE_pos G HOW) as HPS.
  pose proof (NUM_PAGES_pos G HOW HVAW) as HNP.
  pose proof (TABLES_DEPTH_pos G HOW HVAW) as HTD.
  unfold best_victim.
  destruct (victim_fold_spec G page (leaves G m TD 0 0 0 0) (0, 0, 0, 0))
    as [[-> _]|(l1 & l & l2 & Elv & -> & _)].
  - destruct Hinv as [Hk _]. splits; try lia. apply (safe_word 0 0); lia.
  - assert (Hl : In l (leaves G m TD 0 0 0 0))
      by (rewrite Elv; apply in_app_iff; right; now left).
    apply leaves_spec in Hl. destruct Hl as (qv & Hv & Hlen & -> & Hw).
    destruct (walk G m 0 qv) as [fv|] eqn:Ew; [|easy].
    unfold victim_of_leaf. cbn [fst snd].
    assert (Hrv : reach G m qv fv) by (unfold reach; splits; auto; lia).
    pose proof (page_of_path_bound G HOW qv Hv) as Hpb.
    destruct Hinv as [Hk Hshape].
    pose proof (shape_pages G _ _ Hshape qv fv Hrv Hlen) as Hpp.
    split; [apply (tree_inv_frame m k qv fv (conj Hk Hshape) Hrv)|].
    split; [lia|].
    destruct (exists_last (l := qv)) as (q0 & j & ->).
    { intros ->. cbn in Hlen. lia. }
    destruct (walk_prefix G m 0 fv q0 [j] Ew) as (g & Hg & _).
    rewrite (slot_addr_snoc G m q0 0 0 0 g j Hg).
    apply Forall_app in Hv. destruct Hv as [Hv0 Hvj].
    apply Forall_cons_iff in Hvj. destruct Hvj as [Hj _].
    rewrite length_app in Hlen. cbn [length] in Hlen.
    apply safe_word; auto.
    apply (tree_inv_frame m k q0 g (conj Hk Hshape)).
    unfold reach. splits; auto. lia.
Qed.

Lemma safe_since_refl (old : list PMEvent) : safe_since G old old.
Proof. exists []. split; [reflexivity|constructor]. Qed.

Lemma safe_since_cons (old l : list PMEvent) (e : PMEvent) :
  event_in_memory G e = true -> safe_since G old l ->
  safe_since G old (e :: l).
Proof.
  intros He (calls & -> & Hc). exists (e :: calls).
  split; [reflexivity|constructor; auto].
Qed.

Lemma safe_since_app (old l calls : list PMEvent) :
  safe G calls -> safe_since G old l -> safe_since G old (calls ++ l).
Proof.
  intros Hc (c & -> & Hc'). exists (calls ++ c).
  split; [apply app_assoc|apply Forall_app; auto].
Qed.

Lemma safe_since_safe (old l : list PMEvent) :
  safe G old -> safe_since G old l -> safe G l.
Proof. intros Ho (c & -> & Hc). apply Forall_app; auto. Qed.

Lemma finder_safe (old : list PMEvent) (pm : PhysMem) (k cur page : Z) :
  tree_inv G (RAM pm) k -> safe_since G old (events pm) ->
  safe_since G old
    (events (snd (find_next_frame G TD (init_args cur page) 0 0 0 0 pm))).
Proof.
  intros Hinv Hs.
  pose proof (find_next_frame_top_traffic G HOW HVAW (init_args cur page) pm
                ltac:(cbn; lia)) as (reads & Hr & T).
  pose proof (reads_safe _ k reads Hinv Hr) as Hrs.
  pose proof (finder_priority_rule G HOW HVAW pm cur page) as R.
  unfold priority_rule in R. cbv zeta in R.
  pose proof (best_victim_safe (RAM pm) k page Hinv) as Hv.
  destruct (find_next_frame G TD (init_args cur page) 0 0 0 0 pm)
    as [args1 pm2].
  cbn [fst snd] in *.
  destruct T as [(P1 & a & Ha & ->)|[(P2 & ->)|(P3 & ->)]].
  - apply safe_since_cons; [|apply safe_since_app; auto].
    cbn [event_in_memory]. apply (table_addr_safe _ k a Hinv Ha).
  - apply safe_since_app; auto.
  - destruct R as [[R _]|(_ & M & _ & _ & Hvic & _)]; [congruence|].
    rewrite <- Hvic in Hv. unfold victim_of in Hv.
    destruct Hv as (V1 & V2 & V3).
    apply safe_since_cons; [|apply safe_since_cons;
                              [|apply safe_since_app; auto]].
    + cbn [event_in_memory]. zbool.
    + cbn [event_in_memory]. exact V3.
Qed.

Hypothesis Hframes : Z.of_nat TD < NF.
Hypothesis Hpages : NUM_PAGES G <= 2 ^ 31.

(** A page has at most 2^30 words and the memory at most 2^30 frames:
    the loop counters and the frame indices of the code, of type [int],
    are then the integers computed here. *)
Hypothesis HOW30 : OW <= 30.
Hypothesis HNF30 : NF <= 2 ^ 30.

Lemma translate_step_safe (old : list PMEvent) (pm : PhysMem)
  (k page olast : Z) (i : nat) (cur : Z) :
  0 <= page < NUM_PAGES G -> (i < TD)%nat ->
  tree_inv G (RAM pm) k ->
  reach G (RAM pm) (firstn i (digits G TD page)) cur ->
  safe_since G old (events pm) ->
  safe_since G old
    (events (snd (translate_step G (digits G TD page ++ [olast]) i
                    (init_args cur page) pm))).
Proof.
  intros Hpage Hi Hinv Hcur Hs. pose proof (PAGE_SIZE_pos G HOW) as HPS.
  pose proof (digits_valid G HOW TD page) as Hdv.
  pose proof (digits_length G TD page) as Hdl.
  set (pa := digits G TD page) in *.
  set (o := nth i pa 0).
  assert (Ho : 0 <= o < PS) by (apply (valid_path_nth G); auto; lia).
  assert (Hnth : nth i (pa ++ [olast]) 0 = o) by (apply app_nth1; lia).
  pose proof (tree_inv_frame _ k _ cur Hinv Hcur) as Hc.
  set (slot := cur * PS + o).
  assert (Hslot : event_in_memory G (EvRead slot) = true)
    by (apply safe_word; auto).
  assert (Hs1 : safe_since G old (events (snd (PMread slot pm))))
    by (apply safe_since_cons; auto).
  destruct (Z.eq_dec (RAM pm slot) 0) as [E|E].
  - pose proof (finder_spec G HOW HVAW Hframes Hpages (snd (PMread slot pm))
                  k _ cur o page Hinv Hcur
                  ltac:(rewrite firstn_length_le; lia) Ho E Hpage) as Hf.
    cbv zeta in Hf. destruct Hf as (Hpn & _ & k' & Hk' & HF & _).
    cbn [set_maxFrame pageNumber] in Hpn.
    pose proof (finder_safe old (snd (PMread slot pm)) k cur page Hinv Hs1)
      as Hs2.
    rewrite (translate_step_miss G (pa ++ [olast]) i cur page pm);
      rewrite Hnth; auto. fold slot.
    set (fc := find_next_frame G TD (init_args cur page) 0 0 0 0
                 (snd (PMread slot pm))) in *.
    set (F := chosen_frame (set_maxFrame (fst fc) (maxFrame (fst fc) + 1)) 0)
      in *.
    assert (HFr : 0 <= F < NF) by lia.
    assert (Hs3 : safe_since G old (events (PMwrite slot F (snd fc)))).
    { apply safe_since_cons; auto. }
    cbn [snd]. destruct (Z.of_nat i =? Z.of_nat TD - 1).
    + apply safe_since_cons; auto. cbn [event_in_memory]. zbool.
    + rewrite zero_frame_events. apply safe_since_app; auto.
      apply zero_writes_safe; auto.
  - unfold translate_step. cbn [init_args currentFrame PMread].
    rewrite Hnth. fold slot.
    destruct (Z.eqb_spec (RAM pm slot) 0); [easy|]. exact Hs1.
Qed.

Lemma translate_loop_safe (old : list PMEvent) (page olast : Z) (cnt : nat) :
  forall (i : nat) (cur : Z) (pm : PhysMem) (k : Z),
    0 <= page < NUM_PAGES G -> (i + cnt = TD)%nat ->
    tree_inv G (RAM pm) k ->
    reach G (RAM pm) (firstn i (digits G TD page)) cur ->
    safe_since G old (events pm) ->
    safe_since G old
      (events (snd (translate_loop G cnt i (digits G TD page ++ [olast])
                      page cur (init_args cur page) pm))).
Proof.
  induction cnt as [|c IH]; intros i cur pm k Hpage Hic Hinv Hcur Hs.
  - exact Hs.
  - cbn [translate_loop].
    pose proof (translate_step_spec G HOW HVAW Hframes Hpages pm k page olast
                  i cur Hpage ltac:(lia) Hinv Hcur) as Hstep.
    pose proof (translate_step_safe old pm k page olast i cur Hpage ltac:(lia)
                  Hinv Hcur Hs) as Hsafe.
    cbv zeta in Hstep.
    destruct (translate_step G (digits G TD page ++ [olast]) i
                (init_args cur page) pm) as [nf pm'].
    cbn [fst snd] in Hstep, Hsafe.
    destruct Hstep as (k' & _ & Hinv' & Hcur' & _).
    apply (IH (S i) nf pm' k'); auto. lia.
Qed.

Lemma find_physical_address_safe (old : list PMEvent) (va : Z) (pm : PhysMem)
  (k : Z) :
  0 <= va < VIRTUAL_MEMORY_SIZE G -> tree_inv G (RAM pm) k ->
  safe_since G old (events pm) ->
  safe_since G old
    (events (snd (find_physical_address G va (init_offsets G va) pm))).
Proof.
  intros Hva Hinv Hs. unfold find_physical_address.
  rewrite (init_offsets_digits G HOW), (shiftr_PS G HOW).
  apply (translate_loop_safe old _ _ TD 0 0 pm k); auto.
  - apply (page_in_range G HOW HVAW va Hva).
  - cbn. apply reach_nil.
Qed.

(** The word an access ends with is a word of the memory. *)
Lemma access_safe (old : list PMEvent) (a : Z) (pm : PhysMem) (k : Z) :
  0 <= a < VIRTUAL_MEMORY_SIZE G -> tree_inv G (RAM pm) k ->
  safe_since G old (events pm) ->
  let tr := find_physical_address G a (init_offsets G a) pm in
  safe_since G old (events (snd tr)) /\
  (0 <=? fst tr * PS + nth TD (init_offsets G a) 0) &&
  (fst tr * PS + nth TD (init_offsets G a) 0 <? NF * PS) = true.
Proof.
  intros Ha Hinv Hs tr. pose proof (PAGE_SIZE_pos G HOW) as HPS. split.
  - apply (find_physical_address_safe old a pm k); auto.
  - destruct (find_physical_address_spec G HOW HVAW Hframes Hpages a pm k
                Ha Hinv) as (k' & _ & Hinv' & Hre & _).
    rewrite (nth_last_offset G HOW). apply safe_word.
    + apply (tree_inv_frame _ k' _ _ Hinv' Hre).
    + apply Z.mod_pos_bound. lia.
Qed.

Lemma run_op_safe (old : list PMEvent) (op : VMop) (pm : PhysMem) (k : Z) :
  wf_op op -> tree_inv G (RAM pm) k -> safe_since G old (events pm) ->
  safe_since G old (events (run_op G pm op)).
Proof.
  intros Hwf Hinv Hs. unfold wf_op in Hwf.
  destruct op as [a|a v]; cbn [run_op op_addr] in *.
  - destruct (Z.lt_ge_cases a (VIRTUAL_MEMORY_SIZE G)) as [Hlt|Hge].
    + destruct (in_range_tests G HOW HVAW a ltac:(lia)) as [T1 T2].
      rewrite Z.geb_leb in T1, T2. apply Z.leb_gt in T1, T2.
      destruct (same_translation G a 0 0 pm T1 T2) as [-> _].
      destruct (access_safe old a pm k ltac:(lia) Hinv Hs) as [A B].
      cbn [snd PMread events]. apply safe_since_cons; auto.
    + rewrite VMread_out_of_range by auto. exact Hs.
  - destruct (Z.lt_ge_cases a (VIRTUAL_MEMORY_SIZE G)) as [Hlt|Hge].
    + destruct (in_range_tests G HOW HVAW a ltac:(lia)) as [T1 T2].
      rewrite Z.geb_leb in T1, T2. apply Z.leb_gt in T1, T2.
      destruct (same_translation G a 0 v pm T1 T2) as [_ ->].
      destruct (access_safe old a pm k ltac:(lia) Hinv Hs) as [A B].
      cbn [snd PMwrite events]. apply safe_since_cons; auto.
    + rewrite VMwrite_out_of_range by auto. exact Hs.
Qed.

Lemma run_ops_safe (old : list PMEvent) (ops : list VMop) :
  forall (pm : PhysMem) (k : Z),
    Forall wf_op ops -> tree_inv G (RAM pm) k ->
    safe_since G old (events pm) ->
    safe_since G old (events (run_ops G ops pm)).
Proof.
  induction ops as [|op ops IH]; intros pm k Hwf Hinv Hs; [exact Hs|].
  inversion Hwf as [|? ? Hop Hops]; subst.
  destruct (run_op_spec G HOW HVAW Hframes Hpages op pm k Hop Hinv)
    as [(k1 & _ & Hinv1) _].
  cbn [run_ops fold_left]. apply (IH _ k1); auto.
  apply (run_op_safe old op pm k); auto.
Qed.

(** X12: with more frames than levels of tables, at most 2^31 pages,
    and at most 2^30 words in a page and frames in the memory, every
    call of the physical memory made by [VMinitialize] and by any reads
    and writes after it addresses a word or a frame of the physical
    memory, and every eviction and restore names a page of the virtual
    memory. *)
Theorem X12_accesses_inside_memory (pm0 : PhysMem) (ops : list VMop) :
  in_memory G pm0 = true -> Forall wf_op ops ->
  in_memory G (run_ops G ops (VMinitialize G pm0)) = true.
Proof using HOW HVAW Hframes Hpages HOW30 HNF30.
  intros H0 Hwf. apply in_memory_safe. apply in_memory_safe in H0.
  destruct (VMinitialize_spec G HOW HVAW Hframes pm0) as [_ Hinit].
  apply (safe_since_safe (events pm0)); auto.
  apply (run_ops_safe (events pm0) ops _ 0 Hwf Hinit).
  unfold VMinitialize. rewrite zero_frame_events.
  apply safe_since_app; [|apply safe_since_refl].
  apply zero_writes_safe. destruct Hinit as [Hk _]. lia.
Qed.

End Safety.

(** ** The order of the leaves in the traversal *)

Section Order.

Variable G : Geometry.

Local Abbreviation PS := (PAGE_SIZE G).
Local Abbreviation OW := (OFFSET_WIDTH G).
Local Abbreviation TD := (TABLES_DEPTH G).

Hypothesis HOW : 1 <= OW.

Lemma sorted_app (A : Type) (R : A -> A -> Prop) (l1 l2 : list A) :
  StronglySorted R l1 -> StronglySorted R l2 ->
  (forall x y, In x l1 -> In y l2 -> R x y) ->
  StronglySorted R (l1 ++ l2).
Proof.
  intros H1 H2 H. induction l1 as [|a l1 IH]; [exact H2|].
  apply StronglySorted_inv in H1. destruct H1 as [H1 Ha].
  cbn [app]. constructor.
  - apply IH; auto. intros x y Hx Hy. apply H; auto. now right.
  - apply Forall_app. split; auto.
    apply Forall_forall. intros y Hy. apply H; auto. now left.
Qed.

Lemma sorted_middle (A : Type) (R : A -> A -> Prop)
  (l1 l2 : list A) (x : A) :
  StronglySorted R (l1 ++ x :: l2) ->
  (forall y, In y l1 -> R y x) /\ (forall y, In y l2 -> R x y).
Proof.
  induction l1 as [|a l1 IH]; cbn [app]; intros H;
    apply StronglySorted_inv in H; destruct H as [H Ha].
  - split; [intros y []|]. apply Forall_forall. exact Ha.
  - destruct (IH H) as [IH1 IH2]. split; auto.
    intros y [<-|Hy]; auto.
    rewrite Forall_forall in Ha. apply Ha. apply in_app_iff. right. now left.
Qed.

Lemma page_of_path_shift (cv : Z) (q : list Z) :
  page_of_path G cv q =
  cv * PS ^ Z.of_nat (length q) + page_of_path G 0 q.
Proof.
  induction q as [|x q IH] using rev_ind; [cbn; lia|].
  rewrite !(page_of_path_snoc G HOW), IH, length_app. cbn [length].
  replace (Z.of_nat (length q + 1)) with (Z.succ (Z.of_nat (length q)))
    by lia.
  rewrite Z.pow_succ_r by lia. lia.
Qed.

(** The pages of the leaves below a frame whose page prefix is [cv]. *)
Lemma leaves_page_range (m : Z -> Z) (b : nat) (f cv parent off : Z)
  (x : Z * Z * Z) :
  In x (leaves G m b f cv parent off) ->
  cv * PS ^ Z.of_nat b <= snd (fst x) < (cv + 1) * PS ^ Z.of_nat b.
Proof.
  intros H. apply leaves_spec in H. destruct H as (q & Hv & Hl & -> & _).
  cbn [fst snd]. rewrite page_of_path_shift, Hl.
  pose proof (page_of_path_bound G HOW q Hv) as Hb. rewrite Hl in Hb. lia.
Qed.

Local Abbreviation by_page :=
  (fun x y : Z * Z * Z => snd (fst x) < snd (fst y)).

Lemma leaves_children_sorted (m : Z -> Z) (b : nat) :
  (forall f cv parent off,
      StronglySorted by_page (leaves G m b f cv parent off)) ->
  forall cnt i f cv,
    StronglySorted by_page (leaves_children G (leaves G m b) m cnt i f cv) /\
    forall x, In x (leaves_children G (leaves G m b) m cnt i f cv) ->
              (cv * PS + i) * PS ^ Z.of_nat b <= snd (fst x).
Proof.
  intros IHb. pose proof (PAGE_SIZE_pos G HOW) as HPS.
  assert (Hpow : 0 < PS ^ Z.of_nat b) by (apply Z.pow_pos_nonneg; lia).
  induction cnt as [|c IH]; intros i f cv.
  - cbn. split; [constructor|intros x []].
  - cbn [leaves_children]. destruct (IH (i + 1) f cv) as [IH1 IH2].
    assert (Hhere : forall x,
               In x (if m (f * PS + i) =? 0 then []
                     else leaves G m b (m (f * PS + i))
                            (Z.shiftl cv OW + i) f i) ->
               (cv * PS + i) * PS ^ Z.of_nat b <= snd (fst x)
               < (cv * PS + i + 1) * PS ^ Z.of_nat b).
    { intros x Hx. destruct (m (f * PS + i) =? 0); [destruct Hx|].
      apply leaves_page_range in Hx. rewrite (shiftl_PS G HOW) in Hx.
      exact Hx. }
    split.
    + apply sorted_app; auto.
      * destruct (m (f * PS + i) =? 0); [constructor|apply IHb].
      * intros x y Hx Hy. specialize (Hhere x Hx). specialize (IH2 y Hy).
        cbn beta. lia.
    + intros x Hx. apply in_app_iff in Hx. destruct Hx as [Hx|Hx].
      * apply Hhere in Hx. lia.
      * apply IH2 in Hx. nia.
Qed.

(** The traversal meets the leaves in the order of their pages. *)
Lemma leaves_sorted (m : Z -> Z) (b : nat) :
  forall f cv parent off,
    StronglySorted by_page (leaves G m b f cv parent off).
Proof.
  induction b as [|b IH]; intros f cv parent off.
  - cbn. repeat constructor.
  - cbn [leaves]. apply (leaves_children_sorted m b IH).
Qed.

End Order.

(** ** The finder and the interface from the reachable states *)

Section Reachable.

Variable G : Geometry.

Local Abbreviation PS := (PAGE_SIZE G).
Local Abbreviation OW := (OFFSET_WIDTH G).
Local Abbreviation TD := (TABLES_DEPTH G).
Local Abbreviation NF := (NUM_FRAMES G).

Hypothesis HOW : 1 <= OW.
Hypothesis HVAW : OW < VIRTUAL_ADDRESS_WIDTH G.
Hypothesis Hframes : Z.of_nat TD < NF.
Hypothesis Hpages : NUM_PAGES G <= 2 ^ 31.

(** A page has at most 2^30 words and the memory at most 2^30 frames:
    the loop counters and the frame indices of the code, of type [int],
    are then the integers computed here. *)
Hypothesis HOW30 : OW <= 30.
Hypothesis HNF30 : NF <= 2 ^ 30.

Lemma cyclic_distance_cyclic (p1 p2 : Z) :
  0 <= p1 < NUM_PAGES G -> 0 <= p2 < NUM_PAGES G ->
  cyclic_distance G p1 p2 = cyclic G p1 p2.
Proof. apply (cyclic_distance_min G Hpages). Qed.

(** A slot of a table of the tree is no word of a leaf. *)
Lemma table_addr_not_leaf (m : Z -> Z) (k a : Z) :
  tree_inv G m k -> table_addr G m TD 0 a -> ~ leaf_word G m a.
Proof.
  intros [Hk Hshape] (q & g & j & Hq & Hl & Hw & Hj & ->)
         (q' & F & x & Hr & Hl' & Hx & E).
  apply (addr_inj G) in E; auto. destruct E as [-> _].
  assert (Hrg : reach G m q F) by (unfold reach; splits; auto; lia).
  pose proof (shape_unique G _ _ Hshape _ _ F Hrg Hr) as E. subst. lia.
Qed.

(** X4: with more frames than levels of tables, at most 2^31 pages,
    and at most 2^30 words in a page and frames in the memory, a call
    of the finder by the translator reads slots of the tables of the
    tree and nothing else; such a slot is a word of the memory and
    never a word of a leaf.  After the reads the finder stops (second
    priority), writes one zero to a table slot (first priority), or
    writes zero to the parent slot of the victim and then evicts the
    victim (third priority).  It never restores a page. *)
Theorem X4_finder_traffic (va : Z) (i : nat) (cur : Z) (pm : PhysMem) :
  walking G va i cur pm -> (i < TD)%nat ->
  let slot := cur * PS + nth i (init_offsets G va) 0 in
  RAM pm slot = 0 ->
  finder_traffic G (snd (PMread slot pm)) (finder_call G va i cur pm) /\
  (forall a, table_addr G (RAM pm) TD 0 a ->
             0 <= a < NF * PS /\ ~ leaf_word G (RAM pm) a).
Proof using HOW HVAW Hframes Hpages HOW30 HNF30.
  intros Hw Hi slot Hz.
  destruct (walking_inv G HOW HVAW Hframes Hpages va i cur pm Hw)
    as (_ & _ & k & Hinv & _).
  split.
  - apply (find_next_frame_top_traffic G HOW HVAW). cbn. lia.
  - intros a Ha. split.
    + pose proof (table_addr_safe G (RAM pm) k a Hinv Ha) as H.
      apply andb_true_iff in H. destruct H as [H1 H2].
      apply Z.leb_le in H1. apply Z.ltb_lt in H2. lia.
    + apply (table_addr_not_leaf _ k); auto.
Qed.


(** The frame of a page that is in memory. *)
Lemma resident_frame (va F : Z) (pm : PhysMem) (k : Z) :
  tree_inv G (RAM pm) k -> 0 <= va < VIRTUAL_MEMORY_SIZE G ->
  walk G (RAM pm) 0 (firstn TD (init_offsets G va)) = Some F ->
  1 <= F < NF /\
  0 <= F * PS + nth TD (init_offsets G va) 0 < NF * PS.
Proof.
  intros [Hk Hshape] Hva Hw. pose proof (PAGE_SIZE_pos G HOW) as HPS.
  pose proof (TABLES_DEPTH_pos G HOW HVAW) as HTD.
  destruct (offsets_split G HOW va) as [_ E2]. rewrite E2 in Hw.
  pose proof (digits_length G TD (va / PS)) as Hdl.
  assert (HF : 1 <= F <= k).
  { apply (shape_frames G _ _ Hshape). exists (digits G TD (va / PS)).
    split.
    - intros E. rewrite E in Hdl. cbn in Hdl. lia.
    - unfold reach. splits; auto; [apply (digits_valid G HOW)|lia]. }
  rewrite (nth_last_offset G HOW).
  pose proof (Z.mod_pos_bound va PS ltac:(lia)). split; [lia|nia].
Qed.

(** X5: with more frames than levels of tables, at most 2^31 pages,
    and at most 2^30 words in a page and frames in the memory, in a
    state reached from [VMinitialize]: when every slot on the path of a
    valid address is non-zero, the translator returns the frame at the
    end of the path, a frame of the memory other than the root, and
    only reads: [TABLES_DEPTH] reads of table slots, words of the
    memory, with the memory and the backing store unchanged. *)
Theorem X5_resident_translation (va F : Z) (pm : PhysMem) :
  reachable G pm -> 0 <= va < VIRTUAL_MEMORY_SIZE G ->
  walk G (RAM pm) 0 (firstn TD (init_offsets G va)) = Some F ->
  let res := find_physical_address G va (init_offsets G va) pm in
  fst res = F /\ 1 <= F < NF /\ RAM (snd res) = RAM pm /\
  swapFile (snd res) = swapFile pm /\
  exists reads,
    events (snd res) = reads ++ events pm /\ length reads = TD /\
    reads_of (table_addr G (RAM pm) TD 0) reads /\ safe G reads.
Proof using HOW HVAW Hframes Hpages HOW30 HNF30.
  intros Hr Hva Hw res.
  destruct (reachable_inv G HOW HVAW Hframes Hpages pm Hr) as (k & Hinv).
  destruct (find_physical_address_hit G HOW va F pm Hw)
    as (A & B & C & reads & D1 & D2 & D3).
  destruct (resident_frame va F pm k Hinv Hva Hw) as [HF _].
  splits; auto; try lia.
  exists reads. splits; auto. apply (reads_safe G (RAM pm) k); auto.
Qed.

(** X6: with more frames than levels of tables, at most 2^31 pages,
    and at most 2^30 words in a page and frames in the memory, in a
    state reached from [VMinitialize]: an access to a valid address
    whose page is in memory addresses a word of the memory.  [VMread]
    returns 1 and the word of the leaf, and changes neither the memory
    nor the backing store; [VMwrite] returns 1, changes that one word
    and leaves the backing store as it is. *)
Theorem X6_resident_access (va value x F : Z) (pm : PhysMem) :
  reachable G pm -> 0 <= va < VIRTUAL_MEMORY_SIZE G ->
  walk G (RAM pm) 0 (firstn TD (init_offsets G va)) = Some F ->
  let addr := F * PS + nth TD (init_offsets G va) 0 in
  1 <= F < NF /\ 0 <= addr < NF * PS /\
  fst (VMread G va value pm) = (1, RAM pm addr) /\
  RAM (snd (VMread G va value pm)) = RAM pm /\
  swapFile (snd (VMread G va value pm)) = swapFile pm /\
  fst (VMwrite G va x pm) = 1 /\
  RAM (snd (VMwrite G va x pm)) = upd (RAM pm) addr x /\
  swapFile (snd (VMwrite G va x pm)) = swapFile pm.
Proof using HOW HVAW Hframes Hpages HOW30 HNF30.
  intros Hr Hva Hw addr.
  destruct (reachable_inv G HOW HVAW Hframes Hpages pm Hr) as (k & Hinv).
  destruct (resident_frame va F pm k Hinv Hva Hw) as [HF Ha].
  destruct (in_range_tests G HOW HVAW va Hva) as [T1 T2].
  rewrite Z.geb_leb in T1, T2. apply Z.leb_gt in T1, T2.
  split; [exact HF|]. split; [exact Ha|].
  apply (resident_access G HOW va value x F pm T1 T2 Hw).
Qed.


(** Outcome of a call of the finder by the translator. *)
Lemma finder_outcome (va : Z) (i : nat) (cur : Z) (pm : PhysMem) :
  walking G va i cur pm -> (i < TD)%nat ->
  RAM pm (cur * PS + nth i (init_offsets G va) 0) = 0 ->
  let m := RAM pm in
  let page := Z.shiftr va OW in
  let res := finder_call G va i cur pm in
  let F := finder_frame G va i cur pm in
  (priority (fst res) = 1 /\
   exists q g j,
     reach G m q g /\ (S (length q) < TD)%nat /\ 0 <= j < PS /\
     m (g * PS + j) = F /\ eligible G m cur F /\
     RAM (snd res) = upd m (g * PS + j) 0 /\
     swapFile (snd res) = swapFile pm)
  \/
  (no_empty_table G m cur /\
   exists M,
     max_seen G m M /\
     ((M + 1 < NF /\ priority (fst res) = 2 /\ F = M + 1 /\
       RAM (snd res) = m /\ swapFile (snd res) = swapFile pm)
      \/
      (NF <= M + 1 /\ priority (fst res) = 3 /\
       exists q g j,
         reach G m q g /\ S (length q) = TD /\ 0 <= j < PS /\
         m (g * PS + j) = F /\ F <> 0 /\
         let P := page_of_path G 0 (q ++ [j]) in
         (forall q' f', reach G m q' f' -> length q' = TD ->
                        cyclic G page (page_of_path G 0 q')
                        <= cyclic G page P) /\
         RAM (snd res) = upd m (g * PS + j) 0 /\
         (exists c, swapFile (snd res) P = Some c /\
                    forall x, 0 <= x < PS -> c x = m (F * PS + x)) /\
         (forall p, p <> P -> swapFile (snd res) p = swapFile pm p) /\
         exists earlier,
           events (snd res) =
           EvEvict F P :: EvWrite (g * PS + j) 0 :: earlier))).
Proof.
  intros Hw Hi Hz m page res F. pose proof (PAGE_SIZE_pos G HOW) as HPS.
  pose proof (TABLES_DEPTH_pos G HOW HVAW) as HTD.
  destruct (walking_miss G HOW HVAW Hframes Hpages va i cur pm Hw Hi)
    as (Hpage & Hnth & Ho & Hpre & k & Hinv & Hcur).
  rewrite Hnth in Hz. unfold page. rewrite (shiftr_PS G HOW).
  set (pa := digits G TD (va / PS)) in *.
  set (pre := firstn i pa) in *. set (o := nth i pa 0) in *.
  set (pm1 := snd (PMread (cur * PS + nth i (init_offsets G va) 0) pm)).
  pose proof (finder_priority_rule G HOW HVAW pm1 cur (va / PS)) as R.
  unfold priority_rule in R. cbv zeta in R.
  assert (Eres : find_next_frame G TD (init_args cur (va / PS)) 0 0 0 0 pm1
                 = res).
  { unfold res, finder_call. rewrite (shiftr_PS G HOW). reflexivity. }
  assert (EF : chosen_frame (set_maxFrame (fst res) (maxFrame (fst res) + 1)) 0
               = F) by reflexivity.
  rewrite Eres, EF in R. change (RAM pm1) with m in R.
  change (swapFile pm1) with (swapFile pm) in R.
  destruct R as [(P1 & q & e & Hq & Hl & Hr & He & HFe & Hram & Hsw)
                |(Hnone & M & HM & _ & Hvic & R)].
  - left. split; [exact P1|].
    destruct (exists_last Hq) as (q0 & j & ->).
    destruct (reach_prefix G m q0 [j] e Hr) as (g & Hg & Hgj).
    pose proof Hr as (Hv & _ & _).
    apply Forall_app in Hv. destruct Hv as [_ Hvj].
    apply Forall_cons_iff in Hvj. destruct Hvj as [Hj _].
    cbn [walk] in Hgj.
    destruct (Z.eqb_spec (m (g * PS + j)) 0) as [|_]; [discriminate|].
    injection Hgj as Hgj.
    rewrite length_app in Hl. cbn [length] in Hl.
    rewrite (slot_addr_snoc G m q0 0 0 0 g j) in Hram by apply Hg.
    exists q0, g, j. rewrite HFe. splits; auto; try lia.
  - right. split; [exact Hnone|]. exists M. split; [exact HM|].
    destruct R as [(Hlt & P2 & HF2 & Hram & Hsw)
                  |(Hge & P3 & HF3 & pm1' & Hr1 & Hs1 & Hsnd)].
    { left. splits; auto. }
    right. split; [exact Hge|]. split; [exact P3|].
    destruct Hinv as [Hk Hshape].
    assert (HMk : M = k).
    { destruct HM as (HM0 & HMle & HMre).
      assert (M <= k).
      { destruct HMre as [->|(q & Hq & Hr)]; [lia|].
        assert (1 <= M <= k); [|lia].
        apply (shape_frames G _ _ Hshape). eauto. }
      destruct (Z.eq_dec k 0) as [->|Hk0]; [lia|].
      assert (Hkk : 1 <= k <= k) by lia.
      apply (shape_frames G _ _ Hshape) in Hkk.
      destruct Hkk as (q & Hq & Hr).
      specialize (HMle q k Hq Hr). lia. }
    subst M.
    unfold best_victim in Hvic.
    set (lv := leaves G m TD 0 0 0 0) in *.
    assert (Hlv : exists l0, In l0 lv).
    { destruct lv as [|l0 lv'] eqn:Elv; [|exists l0; now left].
      exfalso.
      assert (Hcap : k <= Z.of_nat (length pre)); [|lia].
      apply (capacity G HOW m k (conj Hk Hshape) pre cur Hcur).
      - intros q f (Hv & Hl & Hwq).
        destruct (Nat.eq_dec (length q) TD) as [E|E]; [|lia].
        exfalso.
        assert (Hin : In (f, page_of_path G 0 q, slot_addr G m 0 0 0 q) lv).
        { apply leaves_spec. exists q. rewrite Hwq. splits; auto.
          discriminate. }
        rewrite Elv in Hin. destruct Hin.
      - exact Hnone. }
    destruct Hlv as (l0 & Hl0).
    pose proof (leaf_dist_nonneg G HOW Hpages m k (va / PS) l0
                  (conj Hk Hshape) Hpage Hl0) as Hd0.
    destruct (victim_fold_spec G (va / PS) lv (0, 0, 0, 0))
      as [[_ Hall]|(l1 & l & l2 & Elv & Hfold & _ & Hbefore & Hafter)].
    { specialize (Hall l0 Hl0). cbn in Hall. lia. }
    rewrite Hfold in Hvic.
    assert (Hl : In l lv) by (rewrite Elv; apply in_app_iff; right; now left).
    apply leaves_spec in Hl. destruct Hl as (qv & Hv & Hlen' & El & Hwv).
    destruct (walk G m 0 qv) as [fv|] eqn:Ew; [|easy].
    rewrite El in Hvic.
    unfold victim_of, victim_of_leaf in Hvic. cbn [fst snd] in Hvic.
    injection Hvic as V1 V2 V3 V4.
    assert (Hrv : reach G m qv fv) by (unfold reach; splits; auto; lia).
    pose proof (page_of_path_bound G HOW qv Hv) as Hpb.
    pose proof (shape_pages G _ _ Hshape qv fv Hrv Hlen') as Hpp.
    destruct (exists_last (l := qv)) as (q0 & j & Eq).
    { intros ->. cbn in Hlen'. lia. }
    rewrite Eq in *.
    destruct (walk_prefix G m 0 fv q0 [j] Ew) as (g & Hg & Hgj).
    rewrite (slot_addr_snoc G m q0 0 0 0 g j Hg) in V4.
    apply Forall_app in Hv. destruct Hv as [Hv0 Hvj].
    apply Forall_cons_iff in Hvj. destruct Hvj as [Hj _].
    rewrite length_app in Hlen'. cbn [length] in Hlen'.
    assert (Hrg : reach G m q0 g) by (unfold reach; splits; auto; lia).
    cbn [walk] in Hgj.
    destruct (Z.eqb_spec (m (g * PS + j)) 0) as [|Hne]; [discriminate|].
    injection Hgj as Hgj.
    assert (HFv : F = fv) by congruence.
    assert (Hgf : g <> fv).
    { intros ->.
      pose proof (shape_unique G _ _ Hshape _ _ fv Hrg Hrv) as E.
      apply (f_equal (@length Z)) in E. rewrite length_app in E.
      cbn in E. lia. }
    exists q0, g, j. rewrite HFv. splits; auto; try lia; try congruence.
    + intros q' f' Hr' Hl'.
      pose proof Hr' as (Hv' & _ & Hw').
      pose proof (page_of_path_bound G HOW q' Hv') as Hpb'.
      pose proof (shape_pages G _ _ Hshape q' f' Hr' Hl') as Hpp'.
      assert (Hin : In (f', page_of_path G 0 q', slot_addr G m 0 0 0 q') lv).
      { apply leaves_spec. exists q'. rewrite Hw'. splits; auto.
        discriminate. }
      assert (Hle : leaf_dist G (va / PS)
                      (f', page_of_path G 0 q', slot_addr G m 0 0 0 q')
                    <= leaf_dist G (va / PS) l).
      { rewrite Elv in Hin. apply in_app_iff in Hin.
        destruct Hin as [Hin|[Hin|Hin]].
        - apply Hbefore; auto.
        - rewrite Hin. lia.
        - specialize (Hafter _ Hin). lia. }
      rewrite El in Hle. unfold leaf_dist in Hle. cbn [fst snd] in Hle.
      rewrite !cyclic_distance_cyclic in Hle; auto; lia.
    + rewrite Hsnd. cbn [PMevict PMwrite RAM]. rewrite Hr1, V4. reflexivity.
    + rewrite Hsnd. cbn [PMevict PMwrite swapFile RAM].
      rewrite V1, V3, V4, Z.eqb_refl.
      eexists. split; [reflexivity|]. intros x Hx. cbn beta.
      rewrite Hr1. unfold upd.
      destruct (Z.eqb_spec (fv * PS + x) (g * PS + j)) as [Ea|]; [|reflexivity].
      exfalso. apply (addr_inj G) in Ea; auto. destruct Ea as [Ea _].
      congruence.
    + intros p Hp. rewrite Hsnd. cbn [PMevict PMwrite swapFile].
      rewrite V3. destruct (Z.eqb_spec p (page_of_path G 0 (q0 ++ [j])));
        [easy|]. now rewrite Hs1.
    + exists (events pm1'). rewrite Hsnd. cbn [PMevict PMwrite events].
      rewrite V1, V3, V4. reflexivity.
Qed.


(** C3 (amended): with more frames than levels of tables, at most 2^31
    pages, and at most 2^30 words in a page and frames in the memory, a
    call of the finder by the translator follows the three priorities
    in order.  If a table of the tree other than the root and the
    protected frame has all its slots zero, the finder ends with
    priority 1: it gives such a table and has written zero to the slot
    that held it.  Otherwise, with [M] the largest frame the tree
    refers to, it ends with priority 2 and gives [M + 1], leaving the
    memory as it is, when [M + 1 < NUM_FRAMES]; and else with
    priority 3: it gives the frame of a leaf whose page is at the
    largest cyclic distance from the page looked for, after writing
    zero to the slot that held the frame and then evicting the frame
    under that page, so that the backing store keeps its words. *)
Theorem C3_three_priorities (va : Z) (i : nat) (cur : Z) (pm : PhysMem) :
  walking G va i cur pm -> (i < TD)%nat ->
  RAM pm (cur * PS + nth i (init_offsets G va) 0) = 0 ->
  let m := RAM pm in
  let page := Z.shiftr va OW in
  let res := finder_call G va i cur pm in
  let F := finder_frame G va i cur pm in
  ((priority (fst res) = 1 /\
    exists q g j,
      reach G m q g /\ (S (length q) < TD)%nat /\ 0 <= j < PS /\
      m (g * PS + j) = F /\ eligible G m cur F /\
      RAM (snd res) = upd m (g * PS + j) 0 /\
      swapFile (snd res) = swapFile pm)
   \/
   (no_empty_table G m cur /\
    exists M,
      max_seen G m M /\
      ((M + 1 < NF /\ priority (fst res) = 2 /\ F = M + 1 /\
        RAM (snd res) = m /\ swapFile (snd res) = swapFile pm)
       \/
       (NF <= M + 1 /\ priority (fst res) = 3 /\
        exists q g j,
          reach G m q g /\ S (length q) = TD /\ 0 <= j < PS /\
          m (g * PS + j) = F /\ F <> 0 /\
          let P := page_of_path G 0 (q ++ [j]) in
          (forall q' f', reach G m q' f' -> length q' = TD ->
                         cyclic G page (page_of_path G 0 q')
                         <= cyclic G page P) /\
          RAM (snd res) = upd m (g * PS + j) 0 /\
          (exists c, swapFile (snd res) P = Some c /\
                     forall x, 0 <= x < PS -> c x = m (F * PS + x)) /\
          (forall p, p <> P -> swapFile (snd res) p = swapFile pm p) /\
          exists earlier,
            events (snd res) =
            EvEvict F P :: EvWrite (g * PS + j) 0 :: earlier)))) /\
  ((exists q e, q <> [] /\ (length q < TD)%nat /\ reach G m q e /\
                eligible G m cur e) ->
   priority (fst res) = 1).
Proof using HOW HVAW Hframes Hpages HOW30 HNF30.
  intros Hw Hi Hz m page res F.
  pose proof (finder_outcome va i cur pm Hw Hi Hz) as H. cbv zeta in H.
  fold m page res F in H. split; [exact H|].
  intros (q & e & Hq & Hl & Hr & He).
  destruct H as [[H _]|[H _]]; [exact H|].
  exfalso. apply (H q e); auto.
Qed.

(** C5 (amended): with more frames than levels of tables, at most 2^31
    pages, and at most 2^30 words in a page and frames in the memory,
    from a state reached from [VMinitialize], [VMread] and [VMwrite]
    return 0 exactly when the address is not below
    [VIRTUAL_MEMORY_SIZE] or its page is not below [NUM_PAGES], and
    then leave the physical memory and its log untouched; for every
    other address they return 1, and every call they make of the
    physical memory addresses a word or a frame of the memory and a
    page of the virtual memory.  Every call of the finder by the
    translator ends with one of the three priorities and gives a frame
    of the memory other than the root. *)
Theorem C5_return_codes (va value x : Z) (pm : PhysMem) :
  reachable G pm -> 0 <= va < 2 ^ 64 ->
  let out_of_range :=
    VIRTUAL_MEMORY_SIZE G <= va \/ NUM_PAGES G <= Z.shiftr va OW in
  (out_of_range ->
   VMread G va value pm = (0, value, pm) /\ VMwrite G va x pm = (0, pm)) /\
  (~ out_of_range ->
   fst (fst (VMread G va value pm)) = 1 /\ fst (VMwrite G va x pm) = 1 /\
   safe_since G (events pm) (events (snd (VMread G va value pm))) /\
   safe_since G (events pm) (events (snd (VMwrite G va x pm)))) /\
  (forall va' i cur pm',
     walking G va' i cur pm' -> (i < TD)%nat ->
     RAM pm' (cur * PS + nth i (init_offsets G va') 0) = 0 ->
     (priority (fst (finder_call G va' i cur pm')) = 1 \/
      priority (fst (finder_call G va' i cur pm')) = 2 \/
      priority (fst (finder_call G va' i cur pm')) = 3) /\
     1 <= finder_frame G va' i cur pm' < NF).
Proof using HOW HVAW Hframes Hpages HOW30 HNF30.
  intros Hr Hva out_of_range. unfold out_of_range. splits.
  - intros H. unfold VMread, VMwrite.
    destruct (Z.geb_spec va (VIRTUAL_MEMORY_SIZE G)); auto.
    destruct (Z.geb_spec (Z.shiftr va OW) (NUM_PAGES G)); auto. lia.
  - intros H.
    assert (H1 : va < VIRTUAL_MEMORY_SIZE G) by lia.
    assert (H2 : Z.shiftr va OW < NUM_PAGES G) by lia.
    destruct (reachable_inv G HOW HVAW Hframes Hpages pm Hr) as (k & Hinv).
    destruct (same_translation G va value x pm H1 H2) as [-> ->].
    destruct (access_safe G HOW HVAW Hframes Hpages (events pm) va pm k
                ltac:(lia) Hinv (safe_since_refl G _)) as [A B].
    cbn [fst snd PMread PMwrite events].
    splits; auto; apply safe_since_cons; auto.
  - intros va' i cur pm' Hw Hi Hz.
    destruct (finder_call_spec G HOW HVAW Hframes Hpages va' i cur pm'
                Hw Hi Hz) as (Hp & k & k' & _ & _ & Hpost).
    split; [exact Hp|]. destruct Hpost as (Hk' & HF & _). lia.
Qed.

(** C10: in a state reached from [VMinitialize], in a geometry with
    more frames than levels of tables, at most 2^31 pages, and at most
    2^30 words in a page and frames in the memory, [VMread] and
    [VMwrite] of a valid address run the same translation: the frame
    found and the memory after the translation are the same, the log
    of both is the log of the translation followed by one access, a
    read or a write of the same word, a word of the memory.  A read
    that returns 1 can change the physical memory and evict a page: so
    does the read of address 48 after pages 0, 1 and 2 were written in
    the geometry of the scenarios. *)
Theorem C10_same_translation :
  (forall va value x pm,
     reachable G pm -> 0 <= va < VIRTUAL_MEMORY_SIZE G ->
     let offsets := init_offsets G va in
     let tr := find_physical_address G va offsets pm in
     let addr := fst tr * PS + nth TD offsets 0 in
     VMread G va value pm =
       (1, RAM (snd tr) addr, snd (PMread addr (snd tr))) /\
     VMwrite G va x pm = (1, PMwrite addr x (snd tr)) /\
     events (snd (VMread G va value pm)) = EvRead addr :: events (snd tr) /\
     events (snd (VMwrite G va x pm)) = EvWrite addr x :: events (snd tr) /\
     RAM (snd (VMread G va value pm)) = RAM (snd tr) /\
     swapFile (snd (VMread G va value pm)) = swapFile (snd tr) /\
     swapFile (snd (VMwrite G va x pm)) = swapFile (snd tr) /\
     0 <= addr < NF * PS /\
     safe_since G (events pm) (events (snd tr))) /\
  (reachable G_spec pm_three /\
   fst (fst (VMread G_spec 48 0 pm_three)) = 1 /\
   RAM (snd (VMread G_spec 48 0 pm_three)) 3 <> RAM pm_three 3 /\
   exists earlier,
     events (snd (VMread G_spec 48 0 pm_three)) =
     EvRead 16 :: EvRestore 1 3 :: EvWrite 3 1 :: EvEvict 1 0
     :: earlier ++ events pm_three).
Proof using HOW HVAW Hframes Hpages HOW30 HNF30.
  split.
  - intros va value x pm Hr Hva offsets tr addr.
    destruct (in_range_tests G HOW HVAW va Hva) as [T1 T2].
    rewrite Z.geb_leb in T1, T2. apply Z.leb_gt in T1, T2.
    destruct (reachable_inv G HOW HVAW Hframes Hpages pm Hr) as (k & Hinv).
    destruct (same_translation G va value x pm T1 T2) as [-> ->].
    destruct (access_safe G HOW HVAW Hframes Hpages (events pm) va pm k
                Hva Hinv (safe_since_refl G _)) as [A B].
    fold offsets tr addr in A, B |- *.
    apply andb_true_iff in B. destruct B as [B1 B2].
    apply Z.leb_le in B1. apply Z.ltb_lt in B2.
    cbn [fst snd PMread PMwrite events RAM swapFile].
    splits; auto; reflexivity.
  - split.
    { exists pm_garbage, ops_three. split; [|reflexivity].
      repeat constructor; vm_compute; first [reflexivity|discriminate]. }
    split; [reflexivity|]. split; [vm_compute; discriminate|].
    exists (firstn 19 (skipn 4 (events (snd (VMread G_spec 48 0 pm_three))))).
    vm_compute. reflexivity.
Qed.


(** X13: with more frames than levels of tables, at most 2^31 pages,
    and at most 2^30 words in a page and frames in the memory, when a
    call of the finder by the translator does not end with the first
    priority and the tree has a leaf, the victim recorded is a leaf of
    the tree with its page and its distance from the page looked for.
    No leaf is farther, and of the leaves at that distance it holds the
    largest page: the traversal meets the leaves by increasing page,
    and the comparison [>=] keeps the last of the farthest. *)
Theorem X13_victim_farthest_last (va : Z) (i : nat) (cur : Z)
  (pm : PhysMem) :
  walking G va i cur pm -> (i < TD)%nat ->
  RAM pm (cur * PS + nth i (init_offsets G va) 0) = 0 ->
  let m := RAM pm in
  let page := Z.shiftr va OW in
  let res := finder_call G va i cur pm in
  priority (fst res) <> 1 ->
  (exists q0 f0, reach G m q0 f0 /\ length q0 = TD) ->
  exists q,
    reach G m q (maxCyclicFrame (fst res)) /\ length q = TD /\
    maxCyclicPage (fst res) = page_of_path G 0 q /\
    maxCyclicDist (fst res) = cyclic G page (maxCyclicPage (fst res)) /\
    forall q' f',
      reach G m q' f' -> length q' = TD ->
      cyclic G page (page_of_path G 0 q') <= maxCyclicDist (fst res) /\
      (cyclic G page (page_of_path G 0 q') = maxCyclicDist (fst res) ->
       page_of_path G 0 q' <= maxCyclicPage (fst res)).
Proof using HOW HVAW Hframes Hpages HOW30 HNF30.
  intros Hw Hi Hz m page res Hp1 (q0 & f0 & Hr0 & Hl0).
  destruct (walking_miss G HOW HVAW Hframes Hpages va i cur pm Hw Hi)
    as (Hpage & _ & _ & _ & k & [Hk Hshape] & _).
  unfold page. rewrite (shiftr_PS G HOW).
  set (pm1 := snd (PMread (cur * PS + nth i (init_offsets G va) 0) pm)).
  pose proof (finder_priority_rule G HOW HVAW pm1 cur (va / PS)) as R.
  unfold priority_rule in R. cbv zeta in R.
  assert (Eres : find_next_frame G TD (init_args cur (va / PS)) 0 0 0 0 pm1
                 = res).
  { unfold res, finder_call. rewrite (shiftr_PS G HOW). reflexivity. }
  rewrite Eres in R. change (RAM pm1) with m in R.
  destruct R as [[R _]|(_ & M & _ & _ & Hvic & _)]; [congruence|].
  unfold best_victim in Hvic.
  pose proof (leaves_sorted G HOW m TD 0 0 0 0) as Hsorted.
  set (lv := leaves G m TD 0 0 0 0) in *.
  assert (Hleaf : forall q f, reach G m q f -> length q = TD ->
            In (f, page_of_path G 0 q, slot_addr G m 0 0 0 q) lv /\
            0 <= page_of_path G 0 q < NUM_PAGES G).
  { intros q f Hr Hl. pose proof Hr as (Hv & _ & Hwq). split.
    - apply leaves_spec. exists q. rewrite Hwq. splits; auto. discriminate.
    - pose proof (page_of_path_bound G HOW q Hv).
      pose proof (shape_pages G _ _ Hshape q f Hr Hl). lia. }
  destruct (Hleaf q0 f0 Hr0 Hl0) as [Hin0 Hp0].
  destruct (victim_fold_spec G (va / PS) lv (0, 0, 0, 0))
    as [[_ Hall]|(l1 & l & l2 & Elv & Hfold & _ & Hbefore & Hafter)].
  { specialize (Hall _ Hin0). unfold leaf_dist in Hall. cbn in Hall.
    rewrite cyclic_distance_cyclic in Hall by auto. unfold cyclic in Hall.
    lia. }
  rewrite Hfold in Hvic. rewrite Elv in Hsorted.
  apply sorted_middle in Hsorted. destruct Hsorted as [Hs1 Hs2].
  assert (Hl : In l lv) by (rewrite Elv; apply in_app_iff; right; now left).
  apply leaves_spec in Hl. destruct Hl as (qv & Hv & Hlen & El & Hwv).
  destruct (walk G m 0 qv) as [fv|] eqn:Ew; [|easy].
  rewrite El in Hvic, Hbefore, Hafter, Hs1, Hs2.
  unfold victim_of, victim_of_leaf, leaf_dist in Hvic. cbn [fst snd] in Hvic.
  injection Hvic as V1 V2 V3 V4.
  assert (Hrv : reach G m qv fv) by (unfold reach; splits; auto; lia).
  destruct (Hleaf qv fv Hrv Hlen) as [_ Hpv].
  exists qv. rewrite V1, V2, V3.
  split; [exact Hrv|]. split; [exact Hlen|]. split; [reflexivity|].
  split; [apply cyclic_distance_cyclic; auto|].
  intros q' f' Hr' Hl'. destruct (Hleaf q' f' Hr' Hl') as [Hin Hp'].
  rewrite (cyclic_distance_cyclic (va / PS) (page_of_path G 0 qv)) by auto.
  rewrite Elv in Hin. apply in_app_iff in Hin.
  unfold leaf_dist in Hbefore, Hafter. cbn [fst snd] in Hbefore, Hafter.
  cbn [fst snd] in Hs1, Hs2.
  rewrite (cyclic_distance_cyclic (va / PS) (page_of_path G 0 qv))
    in Hbefore, Hafter by auto.
  destruct Hin as [Hin|[Hin|Hin]].
  - specialize (Hbefore _ Hin). specialize (Hs1 _ Hin).
    cbn [fst snd] in Hbefore, Hs1.
    rewrite cyclic_distance_cyclic in Hbefore by auto. split; lia.
  - rewrite El in Hin. injection Hin as _ E _. rewrite <- E. split; lia.
  - specialize (Hafter _ Hin). cbn [fst snd] in Hafter.
    rewrite cyclic_distance_cyclic in Hafter by auto. split; lia.
Qed.

End Reachable.

(** * The theorems at concrete configurations *)

Ltac concrete :=
  first [ reflexivity
        | vm_compute; first [ reflexivity | discriminate
                            | split; [discriminate|reflexivity] ] ].

Ltac concrete_ops := repeat constructor; concrete.

(** For the larger configurations: evaluation comes first. *)
Ltac evaluated :=
  vm_compute;
  first [ reflexivity | discriminate | lia
        | split; [discriminate|reflexivity] ].

Lemma valid_G_small : valid_geometry G_small.
Proof. unfold valid_geometry. splits; concrete. Qed.

Lemma valid_G_tiny : valid_geometry G_tiny.
Proof. unfold valid_geometry. splits; concrete. Qed.

Lemma valid_G_wide : valid_geometry G_wide.
Proof. unfold valid_geometry. splits; concrete. Qed.

Lemma valid_G_far : valid_geometry G_far.
Proof. unfold valid_geometry. splits; concrete. Qed.

Lemma reachable_init (G : Geometry) (pm0 : PhysMem) :
  reachable G (VMinitialize G pm0).
Proof. exists pm0, []. split; [constructor|reflexivity]. Qed.

Lemma reachable_run_ops (G : Geometry) (pm : PhysMem) (ops : list VMop) :
  reachable G pm -> Forall wf_op ops -> reachable G (run_ops G ops pm).
Proof.
  intros (pm0 & ops0 & H0 & E) H. exists pm0, (ops0 ++ ops).
  split; [apply Forall_app; auto|].
  rewrite E. unfold run_ops. now rewrite fold_left_app.
Qed.

Lemma reachable_pm_far : reachable G_far pm_far.
Proof.
  apply reachable_run_ops; [apply reachable_init|].
  repeat constructor; evaluated.
Qed.

Lemma reachable_pm_three : reachable G_spec pm_three.
Proof.
  apply reachable_run_ops; [apply reachable_init|concrete_ops].
Qed.

Lemma reachable_pm_deep : reachable G_deep pm_deep.
Proof.
  apply reachable_run_ops; [apply reachable_init|concrete_ops].
Qed.

Lemma reachable_pm_two : reachable G_spec pm_two.
Proof.
  apply reachable_run_ops; [apply reachable_init|concrete_ops].
Qed.

(** The root is the end of no path but the empty one. *)
Lemma root_not_below (G : Geometry) (m : Z -> Z) (q : list Z) :
  q <> [] -> ~ reach G m q 0.
Proof.
  intros Hq (_ & _ & Hw). destruct (exists_last Hq) as (q0 & j & ->).
  apply walk_prefix in Hw. destruct Hw as (g & _ & Hgj). cbn [walk] in Hgj.
  destruct (Z.eqb_spec (m (g * PAGE_SIZE G + j)) 0) as [|Hne];
    [discriminate|].
  injection Hgj as Hgj. auto.
Qed.

(** Each of the bounds on the number of frames and on the number of
    pages is needed for a word written to be read back (C1).  In the
    small geometry, with as many frames as levels of tables, the read
    that follows [VMwrite(0, 1)] right after initialisation gives 0, and
    so does the read after [VMwrite(0, 0); VMwrite(0, 1)]: the
    translation gives frame 0 to the page, and the next translation
    evicts the root with its first slot zeroed.  In the far geometry,
    with more frames than levels but 2^33 pages, the read that follows
    [VMwrite(0, 1)] gives 2: the pages in memory are at more than 2^31
    pages from page 0, no distance is counted as positive, and the
    finder gives frame 0.  Every access of these runs is inside the
    physical memory. *)
Lemma C1_counterexample :
  (valid_geometry G_small /\ NUM_PAGES G_small <= 2 ^ 31 /\
   0 <= 0 < VIRTUAL_MEMORY_SIZE G_small /\
   reachable G_small (VMinitialize G_small pm_garbage) /\
   (let pm1 := snd (VMwrite G_small 0 1 (VMinitialize G_small pm_garbage)) in
    fst (VMread G_small 0 7 pm1) = (1, 0) /\
    in_memory G_small (snd (VMread G_small 0 7 pm1)) = true) /\
   (let pm1 := snd (VMwrite G_small 0 0 (VMinitialize G_small pm_garbage)) in
    let pm2 := snd (VMwrite G_small 0 1 pm1) in
    fst (VMread G_small 0 7 pm2) = (1, 0) /\
    in_memory G_small (snd (VMread G_small 0 7 pm2)) = true)) /\
  (valid_geometry G_far /\
   Z.of_nat (TABLES_DEPTH G_far) < NUM_FRAMES G_far /\
   0 <= 0 < VIRTUAL_MEMORY_SIZE G_far /\
   reachable G_far pm_far /\
   let pm1 := snd (VMwrite G_far 0 1 pm_far) in
   fst (VMread G_far 0 7 pm1) = (1, 2) /\
   in_memory G_far (snd (VMread G_far 0 7 pm1)) = true).
Proof.
  split.
  - split; [exact valid_G_small|].
    do 2 (split; [concrete|]).
    split; [apply reachable_init|].
    split; cbv zeta; split; concrete.
  - split; [exact valid_G_far|].
    do 2 (split; [evaluated|]).
    split; [exact reachable_pm_far|].
    cbv zeta. split; evaluated.
Qed.

Lemma C1_witness :
  fst (VMread G_spec 48 0
         (snd (VMwrite G_spec 48 5 (snd (VMwrite G_spec 48 4 pm_three)))))
  = (1, 5) /\
  fst (VMread G_spec 48 0 (snd (VMwrite G_spec 48 4 pm_three))) = (1, 4).
Proof.
  assert (Hr : reachable G_spec pm_three).
  { exists pm_garbage, ops_three. split; [concrete_ops|reflexivity]. }
  destruct (C1_write_then_read G_spec ltac:(concrete) ltac:(concrete)
              ltac:(concrete) ltac:(concrete)
              ltac:(concrete) ltac:(concrete) pm_three 48 4 5 0 Hr
              ltac:(concrete)) as (A & B & _).
  split; [exact A|exact B].
Defined.

(** Each of the bounds on the number of frames and on the number of
    pages is needed for the translator to end in a frame that the tables
    lead to (C2).  In the small geometry the translation of address 0
    right after initialisation returns frame 0 and leaves the slot of
    the root for the address zero.  In the far geometry, with the two
    far pages in memory, the translation of address 0 returns frame 5
    and leaves the slot of the root for the address holding frame 1, but
    the slot of frame 5 met at the last level is zero.  In both no path
    leads from the root to the page along the split of the address.
    Every access of these runs is inside the physical memory. *)
Lemma C2_counterexample :
  (valid_geometry G_small /\ NUM_PAGES G_small <= 2 ^ 31 /\
   0 <= 0 < VIRTUAL_MEMORY_SIZE G_small /\
   reachable G_small (VMinitialize G_small pm_garbage) /\
   let offsets := init_offsets G_small 0 in
   let res := find_physical_address G_small 0 offsets
                (VMinitialize G_small pm_garbage) in
   fst res = 0 /\
   RAM (snd res) (0 * PAGE_SIZE G_small + nth 0 offsets 0) = 0 /\
   walk G_small (RAM (snd res)) 0 (firstn (TABLES_DEPTH G_small) offsets)
   = None /\
   in_memory G_small (snd res) = true) /\
  (valid_geometry G_far /\
   Z.of_nat (TABLES_DEPTH G_far) < NUM_FRAMES G_far /\
   0 <= 0 < VIRTUAL_MEMORY_SIZE G_far /\
   reachable G_far pm_far /\
   let offsets := init_offsets G_far 0 in
   let res := find_physical_address G_far 0 offsets pm_far in
   fst res = 5 /\
   walk G_far (RAM (snd res)) 0 (firstn 5 offsets) = Some 5 /\
   RAM (snd res) (5 * PAGE_SIZE G_far + nth 5 offsets 0) = 0 /\
   walk G_far (RAM (snd res)) 0 (firstn (TABLES_DEPTH G_far) offsets)
   = None /\
   in_memory G_far (snd res) = true).
Proof.
  split.
  - split; [exact valid_G_small|].
    do 2 (split; [concrete|]).
    split; [apply reachable_init|].
    cbv zeta. splits; concrete.
  - split; [exact valid_G_far|].
    do 2 (split; [evaluated|]).
    split; [exact reachable_pm_far|].
    cbv zeta. splits; evaluated.
Qed.

Lemma C2_witness :
  walk G_deep
    (RAM (snd (find_physical_address G_deep 9 (init_offsets G_deep 9)
                 pm_deep)))
    0 (firstn (TABLES_DEPTH G_deep) (init_offsets G_deep 9))
  = Some (fst (find_physical_address G_deep 9 (init_offsets G_deep 9)
                 pm_deep)).
Proof.
  assert (Hr : reachable G_deep pm_deep).
  { exists pm_garbage, ops_deep. split; [concrete_ops|reflexivity]. }
  destruct (C2_translation_result G_deep ltac:(concrete) ltac:(concrete)
              ltac:(concrete) ltac:(concrete)
              ltac:(concrete) ltac:(concrete) pm_deep 9 Hr ltac:(concrete))
    as (_ & A & _).
  exact A.
Defined.

(** Each of the bounds on the number of frames and on the number of
    pages is needed for the third priority to give a victim (C3).  In
    the small geometry the second call of the finder in the translation
    of address 0 right after initialisation, with frame 1 protected,
    finds no empty table and no frame left; the tree has no leaf, and
    the finder ends with priority 3 all the same: it writes zero to
    address 0, the slot of the root that holds the protected frame,
    evicts frame 0 as page 0 and gives frame 0, the root.  In the far
    geometry, with the two far pages in memory, the call of the finder
    for address 0 finds every frame in use; the int distances of both
    leaves are negative, the initial victim is kept, and the finder
    evicts and gives frame 0, which is no leaf.  Every access of these
    runs is inside the physical memory. *)
Lemma C3_counterexample :
  (valid_geometry G_small /\ NUM_PAGES G_small <= 2 ^ 31 /\
   walking G_small 0 1 (fst small_step) (snd small_step) /\
   RAM (snd small_step)
       (fst small_step * PAGE_SIZE G_small
        + nth 1 (init_offsets G_small 0) 0) = 0 /\
   (let res := finder_call G_small 0 1 (fst small_step) (snd small_step) in
    priority (fst res) = 3 /\
    finder_frame G_small 0 1 (fst small_step) (snd small_step) = 0 /\
    (exists earlier,
        events (snd res) = EvEvict 0 0 :: EvWrite 0 0 :: earlier) /\
    (forall q, q <> [] -> ~ reach G_small (RAM (snd small_step)) q 0) /\
    (forall q f, reach G_small (RAM (snd small_step)) q f ->
                 length q <> TABLES_DEPTH G_small) /\
    in_memory G_small (snd res) = true)) /\
  (valid_geometry G_far /\
   Z.of_nat (TABLES_DEPTH G_far) < NUM_FRAMES G_far /\
   walking G_far 0 0 0 pm_far /\
   RAM pm_far (0 * PAGE_SIZE G_far + nth 0 (init_offsets G_far 0) 0) = 0 /\
   (let res := finder_call G_far 0 0 0 pm_far in
    priority (fst res) = 3 /\
    finder_frame G_far 0 0 0 pm_far = 0 /\
    (exists earlier,
        events (snd res) = EvEvict 0 0 :: EvWrite 0 0 :: earlier) /\
    (forall q, q <> [] -> ~ reach G_far (RAM pm_far) q 0) /\
    in_memory G_far (snd res) = true)).
Proof.
  split.
  - split; [exact valid_G_small|].
    split; [concrete|].
    split.
    { apply (walking_step G_small 0 0 0 (VMinitialize G_small pm_garbage)).
      - apply walking_start; [apply reachable_init|concrete].
      - vm_compute. lia. }
    split; [concrete|].
    cbv zeta. split; [concrete|]. split; [concrete|].
    split.
    { exists (skipn 2 (events (snd (finder_call G_small 0 1 (fst small_step)
                                       (snd small_step))))).
      vm_compute. reflexivity. }
    split; [intros q; apply root_not_below|].
    split; [|concrete].
    intros q f (Hv & _ & Hw) Hl.
    destruct q as [|a [|b [|c q]]]; try discriminate Hl.
    apply Forall_cons_iff in Hv. destruct Hv as [Ha Hv].
    apply Forall_cons_iff in Hv. destruct Hv as [Hb _].
    change (PAGE_SIZE G_small) with 2 in Ha, Hb.
    assert (Ea : a = 0 \/ a = 1) by lia.
    assert (Eb : b = 0 \/ b = 1) by lia.
    destruct Ea as [-> | ->], Eb as [-> | ->]; vm_compute in Hw;
      discriminate Hw.
  - split; [exact valid_G_far|].
    split; [evaluated|].
    split; [apply walking_start; [exact reachable_pm_far|evaluated]|].
    split; [evaluated|].
    cbv zeta. split; [evaluated|]. split; [evaluated|].
    split.
    { exists (skipn 2 (events (snd (finder_call G_far 0 0 0 pm_far)))).
      vm_compute. reflexivity. }
    split; [intros q; apply root_not_below|evaluated].
Qed.

Lemma C3_witness :
  exists q g j,
    reach G_spec (RAM pm_three) q g /\
    RAM pm_three (g * PAGE_SIZE G_spec + j)
    = finder_frame G_spec 48 0 0 pm_three /\
    RAM (snd (finder_call G_spec 48 0 0 pm_three))
    = upd (RAM pm_three) (g * PAGE_SIZE G_spec + j) 0.
Proof.
  destruct (C3_three_priorities G_spec ltac:(concrete) ltac:(concrete)
              ltac:(concrete) ltac:(concrete) ltac:(concrete) ltac:(concrete)
              48 0%nat 0 pm_three
              (walking_start G_spec 48 pm_three reachable_pm_three
                 ltac:(concrete))
              ltac:(vm_compute; lia) ltac:(vm_compute; reflexivity))
    as [H _].
  cbv zeta in H.
  destruct H as [[H _]|(_ & M & _ & [(_ & H & _)|(_ & _ & H)])].
  - vm_compute in H. discriminate H.
  - vm_compute in H. discriminate H.
  - destruct H as (q & g & j & A & _ & _ & B & _ & _ & C & _).
    exists q, g, j. split; [exact A|]. split; [exact B|exact C].
Defined.

(** Each of the bounds on the number of frames and on the number of
    pages is needed to keep frame 0 from being given (C4).  In the small
    geometry the translation of address 0 right after initialisation
    calls the finder a second time, with frame 1 protected; the tree has
    no leaf and no frame is left, and the finder gives the initial
    victim, frame 0.  In the far geometry, with the two far pages in
    memory, the first call of the finder for address 0 finds every frame
    in use and both leaves at more than 2^31 pages from page 0; their
    distances are not counted as positive, and the finder gives the
    initial victim, frame 0.  Every access of these runs is inside the
    physical memory. *)
Lemma C4_counterexample :
  (valid_geometry G_small /\ NUM_PAGES G_small <= 2 ^ 31 /\
   walking G_small 0 1 (fst small_step) (snd small_step) /\
   RAM (snd small_step)
       (fst small_step * PAGE_SIZE G_small
        + nth 1 (init_offsets G_small 0) 0) = 0 /\
   finder_frame G_small 0 1 (fst small_step) (snd small_step) = 0 /\
   in_memory G_small
     (snd (finder_call G_small 0 1 (fst small_step) (snd small_step)))
   = true) /\
  (valid_geometry G_far /\
   Z.of_nat (TABLES_DEPTH G_far) < NUM_FRAMES G_far /\
   walking G_far 0 0 0 pm_far /\
   RAM pm_far (0 * PAGE_SIZE G_far + nth 0 (init_offsets G_far 0) 0) = 0 /\
   finder_frame G_far 0 0 0 pm_far = 0 /\
   in_memory G_far (snd (finder_call G_far 0 0 0 pm_far)) = true).
Proof.
  split.
  - split; [exact valid_G_small|].
    splits; try concrete.
    apply (walking_step G_small 0 0 0 (VMinitialize G_small pm_garbage)).
    + apply walking_start; [apply reachable_init|concrete].
    + vm_compute. lia.
  - split; [exact valid_G_far|].
    splits; try evaluated.
    apply walking_start; [exact reachable_pm_far|evaluated].
Qed.

Lemma C4_witness :
  finder_frame G_deep 12 1 (fst deep_step) (snd deep_step) <> 0 /\
  finder_frame G_deep 12 1 (fst deep_step) (snd deep_step) <> fst deep_step /\
  1 <= finder_frame G_deep 12 1 (fst deep_step) (snd deep_step)
    < NUM_FRAMES G_deep.
Proof.
  assert (Hr : reachable G_deep pm_deep).
  { exists pm_garbage, ops_deep. split; [concrete_ops|reflexivity]. }
  apply (C4_finder_frame_safe G_deep ltac:(concrete) ltac:(concrete)
           ltac:(concrete) ltac:(concrete)
              ltac:(concrete) ltac:(concrete) 12 1%nat
           (fst deep_step) (snd deep_step)).
  - exact (walking_step G_deep 12 0 0 pm_deep
             (walking_start G_deep 12 pm_deep Hr ltac:(concrete))
             ltac:(vm_compute; lia)).
  - vm_compute. lia.
  - vm_compute. reflexivity.
Defined.

(** Each of the bounds on the number of frames and on the number of
    pages is needed for an access to a valid address to stay inside the
    physical memory (C5).  In the small geometry, whose memory has 4
    words, after [VMwrite(0, 2)] on the initialised memory the first
    slot of the root holds the word written, 2; the first two calls of
    [VMread(0)] and of [VMwrite(0, 7)] are [PMread(0)] and [PMread(4)],
    a call outside the memory.  In the far geometry, whose memory has
    512 words, after [VMwrite(0, 9)] with the two far pages in memory
    the slot of the last table for address 0 holds 9; [VMread(0)] reads
    the six slots of the path and then the word at address 576, outside
    the memory.  The states are reached by calls that all are inside
    the memory; the log is given up to the first call outside it. *)
Lemma C5_counterexample :
  (valid_geometry G_small /\ NUM_PAGES G_small <= 2 ^ 31 /\
   reachable G_small pm_small2 /\
   in_memory G_small pm_small2 = true /\
   0 <= 0 < VIRTUAL_MEMORY_SIZE G_small /\
   NUM_FRAMES G_small * PAGE_SIZE G_small = 4 /\
   (exists later,
       events (snd (VMread G_small 0 7 pm_small2))
       = later ++ EvRead 4 :: EvRead 0 :: events pm_small2) /\
   (exists later,
       events (snd (VMwrite G_small 0 7 pm_small2))
       = later ++ EvRead 4 :: EvRead 0 :: events pm_small2) /\
   event_in_memory G_small (EvRead 0) = true /\
   event_in_memory G_small (EvRead 4) = false) /\
  (valid_geometry G_far /\
   Z.of_nat (TABLES_DEPTH G_far) < NUM_FRAMES G_far /\
   let pm := run_ops G_far [OpWrite 0 9] pm_far in
   reachable G_far pm /\
   in_memory G_far pm = true /\
   0 <= 0 < VIRTUAL_MEMORY_SIZE G_far /\
   NUM_FRAMES G_far * PAGE_SIZE G_far = 512 /\
   events (snd (VMread G_far 0 7 pm))
   = EvRead 576 :: EvRead 320 :: EvRead 256 :: EvRead 192 :: EvRead 128
     :: EvRead 64 :: EvRead 0 :: events pm /\
   forallb (event_in_memory G_far)
     [EvRead 320; EvRead 256; EvRead 192; EvRead 128; EvRead 64; EvRead 0]
   = true /\
   event_in_memory G_far (EvRead 576) = false).
Proof.
  split.
  - split; [exact valid_G_small|].
    split; [concrete|].
    split; [apply reachable_run_ops; [apply reachable_init|concrete_ops]|].
    do 3 (split; [concrete|]).
    split; [exists [EvRead 10]; concrete|].
    split; [exists [EvWrite 10 7]; concrete|].
    split; concrete.
  - split; [exact valid_G_far|].
    split; [evaluated|].
    cbv zeta.
    split; [apply reachable_run_ops;
            [exact reachable_pm_far|repeat constructor; evaluated]|].
    splits; evaluated.
Qed.

Lemma C5_witness :
  VMread G_spec 256 7 pm_three = (0, 7, pm_three) /\
  VMwrite G_spec 256 9 pm_three = (0, pm_three).
Proof.
  apply (C5_return_codes G_spec ltac:(concrete) ltac:(concrete)
           ltac:(concrete) ltac:(concrete) ltac:(concrete) ltac:(concrete)
           256 7 9 pm_three reachable_pm_three ltac:(concrete)).
  left. concrete.
Defined.

(** C6: with more than 2^31 pages [cyclic_distance] does not return
    the distance that its own comment and the specification define:
    the result is converted to [int].  With 2^33 pages, the pages 0 and
    2^32 are at distance 2^32 and the function returns 0; the pages 0
    and 2^31 + 2^10 are at distance 2^31 + 2^10 and the function
    returns a negative number. *)
Lemma C6_cyclic_distance_truncated :
  valid_geometry G_wide /\
  NUM_PAGES G_wide = 2 ^ 33 /\
  cyclic_distance G_wide 0 (2 ^ 32) = 0 /\
  cyclic G_wide 0 (2 ^ 32) = 2 ^ 32 /\
  cyclic_distance G_wide 0 (2 ^ 31 + 2 ^ 10) = - 2 ^ 31 + 2 ^ 10 /\
  cyclic G_wide 0 (2 ^ 31 + 2 ^ 10) = 2 ^ 31 + 2 ^ 10.
Proof.
  split; [exact valid_G_wide|]. splits; concrete.
Qed.

(** Each of the bounds on the number of frames and on the number of
    pages is needed for the tables to form a tree (C7).  In the tiny
    geometry, after [VMwrite(0, 1)] on the initialised memory, the first
    slot of the root and the first slot of frame 1 both hold frame 1,
    which is thus below itself.  In the far geometry, after [VMwrite(0,
    1)] with the two far pages in memory, the first slot of the root and
    the first slot of frame 5, five levels below, both hold frame 1.
    Every access of these runs is inside the physical memory. *)
Lemma C7_counterexample :
  (valid_geometry G_tiny /\ NUM_PAGES G_tiny <= 2 ^ 31 /\
   reachable G_tiny pm_tiny /\
   in_memory G_tiny pm_tiny = true /\
   ~ in_degree_le_1 G_tiny (RAM pm_tiny) /\
   ~ acyclic G_tiny (RAM pm_tiny)) /\
  (valid_geometry G_far /\
   Z.of_nat (TABLES_DEPTH G_far) < NUM_FRAMES G_far /\
   let pm := run_ops G_far [OpWrite 0 1] pm_far in
   reachable G_far pm /\
   in_memory G_far pm = true /\
   ~ in_degree_le_1 G_far (RAM pm) /\
   ~ acyclic G_far (RAM pm)).
Proof.
  split.
  - split; [exact valid_G_tiny|].
    split; [concrete|].
    split; [exists pm_garbage, [OpWrite 0 1];
            split; [concrete_ops|reflexivity]|].
    split; [concrete|].
    assert (R0 : reach G_tiny (RAM pm_tiny) [] 0).
    { unfold reach. splits; [constructor|vm_compute; lia|reflexivity]. }
    assert (R1 : reach G_tiny (RAM pm_tiny) [0] 1).
    { unfold reach. splits; [|vm_compute; lia|concrete].
      repeat constructor; vm_compute; discriminate. }
    split.
    + intros H.
      assert (T0 : table_slot G_tiny (RAM pm_tiny) 0 0 1).
      { exists []. splits; [exact R0|vm_compute; lia|lia|concrete|concrete
                           |discriminate]. }
      assert (T1 : table_slot G_tiny (RAM pm_tiny) 1 0 1).
      { exists [0]. splits; [exact R1|vm_compute; lia|lia|concrete|concrete
                            |discriminate]. }
      destruct (H 0 0 1 0 1 T0 T1) as [E _]. discriminate E.
    + intros H.
      destruct (H [0] 1 [0] R1) as [E _].
      * discriminate.
      * repeat constructor; vm_compute; discriminate.
      * vm_compute. lia.
      * apply E. concrete.
  - split; [exact valid_G_far|].
    split; [evaluated|].
    cbv zeta. set (pm := run_ops G_far [OpWrite 0 1] pm_far).
    split; [apply reachable_run_ops;
            [exact reachable_pm_far|repeat constructor; evaluated]|].
    split; [evaluated|].
    assert (R0 : reach G_far (RAM pm) [] 0).
    { unfold reach. splits; [constructor|vm_compute; lia|reflexivity]. }
    assert (R1 : reach G_far (RAM pm) [0] 1).
    { unfold reach. splits; [|vm_compute; lia|evaluated].
      repeat constructor; vm_compute; discriminate. }
    assert (R5 : reach G_far (RAM pm) [0; 0; 0; 0; 0] 5).
    { unfold reach. splits; [|vm_compute; lia|evaluated].
      repeat constructor; vm_compute; discriminate. }
    split.
    + intros H.
      assert (T0 : table_slot G_far (RAM pm) 0 0 1).
      { exists []. splits; [exact R0|vm_compute; lia|lia|evaluated|evaluated
                           |discriminate]. }
      assert (T5 : table_slot G_far (RAM pm) 5 0 1).
      { exists [0; 0; 0; 0; 0].
        splits; [exact R5|vm_compute; lia|lia|evaluated|evaluated
                |discriminate]. }
      destruct (H 0 0 5 0 1 T0 T5) as [E _]. discriminate E.
    + intros H.
      destruct (H [0] 1 [0; 0; 0; 0; 0] R1) as [E _].
      * discriminate.
      * repeat constructor; vm_compute; discriminate.
      * vm_compute. lia.
      * apply E. evaluated.
Qed.

Lemma C7_witness :
  acyclic G_deep (RAM pm_deep) /\ in_degree_le_1 G_deep (RAM pm_deep).
Proof.
  assert (Hr : reachable G_deep pm_deep).
  { exists pm_garbage, ops_deep. split; [concrete_ops|reflexivity]. }
  exact (proj1 (C7_tree_shape G_deep ltac:(concrete) ltac:(concrete)
                  ltac:(concrete) ltac:(concrete)
              ltac:(concrete) ltac:(concrete)) pm_deep Hr).
Defined.

(** Each of the bounds on the number of frames and on the number of
    pages is needed for an address never written to read 0 (C8).  In the
    tiny geometry, with an empty backing store, after [VMwrite(1, 1)]
    the read of address 7 returns 1 and gives 1: frame 1 holds the page
    of address 1 and is walked as a table at every level.  In the far
    geometry, with an empty backing store and the two far pages written,
    the read of address 2 returns 1 and gives 1: the finder evicts the
    root as page 0, and the words of the root come back as that page.
    Every access of these runs is inside the physical memory. *)
Lemma C8_counterexample :
  (valid_geometry G_tiny /\ NUM_PAGES G_tiny <= 2 ^ 31 /\
   (forall p, swapFile pm_garbage p = None) /\
   Forall wf_op [OpWrite 1 1] /\
   (forall v, ~ In (OpWrite 7 v) [OpWrite 1 1]) /\
   0 <= 7 < VIRTUAL_MEMORY_SIZE G_tiny /\
   (let pm := run_ops G_tiny [OpWrite 1 1] (VMinitialize G_tiny pm_garbage) in
    fst (VMread G_tiny 7 0 pm) = (1, 1) /\
    in_memory G_tiny (snd (VMread G_tiny 7 0 pm)) = true)) /\
  (valid_geometry G_far /\
   Z.of_nat (TABLES_DEPTH G_far) < NUM_FRAMES G_far /\
   (forall p, swapFile pm_garbage p = None) /\
   Forall wf_op ops_far /\
   (forall v, ~ In (OpWrite 2 v) ops_far) /\
   0 <= 2 < VIRTUAL_MEMORY_SIZE G_far /\
   (let pm := run_ops G_far ops_far (VMinitialize G_far pm_garbage) in
    fst (VMread G_far 2 0 pm) = (1, 1) /\
    in_memory G_far (snd (VMread G_far 2 0 pm)) = true)).
Proof.
  split.
  - split; [exact valid_G_tiny|].
    split; [concrete|].
    split; [intros p; reflexivity|].
    split; [concrete_ops|].
    split; [intros v [H|[]]; discriminate H|].
    split; [concrete|].
    cbv zeta. split; concrete.
  - split; [exact valid_G_far|].
    split; [evaluated|].
    split; [intros p; reflexivity|].
    split; [repeat constructor; evaluated|].
    split; [intros v Hin; vm_compute in Hin;
            destruct Hin as [H|[H|[]]]; discriminate H|].
    split; [evaluated|].
    cbv zeta. split; evaluated.
Qed.

Lemma C8_witness :
  fst (VMread G_spec 48 7
         (run_ops G_spec ops_three (VMinitialize G_spec pm_garbage)))
  = (1, 0).
Proof.
  apply (C8_unwritten_reads_zero G_spec ltac:(concrete) ltac:(concrete)
           ltac:(concrete) ltac:(concrete)
              ltac:(concrete) ltac:(concrete) pm_garbage ops_three 48 7).
  - intros p. reflexivity.
  - concrete_ops.
  - intros v Hin. vm_compute in Hin.
    destruct Hin as [H|[H|[H|[]]]]; discriminate H.
  - concrete.
Defined.

(** Each of the bounds on the number of frames and on the number of
    pages is needed for the slots of the tables to hold frames only
    (C9).  In the small geometry, after [VMwrite(0, 2)] on the
    initialised memory, the first slot of the root holds 2, with two
    frames in the memory.  In the far geometry, after [VMwrite(0, 9)]
    with the two far pages in memory, the first slot of frame 5, a table
    five levels below the root, holds 9, with eight frames in the
    memory.  Every access of these runs is inside the physical memory.
    *)
Lemma C9_counterexample :
  (valid_geometry G_small /\ NUM_PAGES G_small <= 2 ^ 31 /\
   reachable G_small pm_small2 /\
   in_memory G_small pm_small2 = true /\
   referenced G_small (RAM pm_small2) 2 /\
   ~ (exists k, 0 <= k < NUM_FRAMES G_small /\
                forall f, referenced G_small (RAM pm_small2) f <->
                          1 <= f <= k)) /\
  (valid_geometry G_far /\
   Z.of_nat (TABLES_DEPTH G_far) < NUM_FRAMES G_far /\
   let pm := run_ops G_far [OpWrite 0 9] pm_far in
   reachable G_far pm /\
   in_memory G_far pm = true /\
   referenced G_far (RAM pm) 9 /\
   ~ (exists k, 0 <= k < NUM_FRAMES G_far /\
                forall f, referenced G_far (RAM pm) f <-> 1 <= f <= k)).
Proof.
  split.
  - split; [exact valid_G_small|].
    split; [concrete|].
    split; [exists pm_garbage, [OpWrite 0 2];
            split; [concrete_ops|reflexivity]|].
    split; [concrete|].
    assert (R : referenced G_small (RAM pm_small2) 2).
    { exists 0, 0, [].
      splits; [|vm_compute; lia|lia|concrete|concrete|discriminate].
      unfold reach. splits; [constructor|vm_compute; lia|reflexivity]. }
    split; [exact R|].
    intros (k & Hk & H). apply H in R.
    change (NUM_FRAMES G_small) with 2 in Hk. lia.
  - split; [exact valid_G_far|].
    split; [evaluated|].
    cbv zeta. set (pm := run_ops G_far [OpWrite 0 9] pm_far).
    split; [apply reachable_run_ops;
            [exact reachable_pm_far|repeat constructor; evaluated]|].
    split; [evaluated|].
    assert (R : referenced G_far (RAM pm) 9).
    { exists 5, 0, [0; 0; 0; 0; 0].
      splits; [|vm_compute; lia|lia|evaluated|evaluated|discriminate].
      unfold reach. splits; [|vm_compute; lia|evaluated].
      repeat constructor; vm_compute; discriminate. }
    split; [exact R|].
    intros (k & Hk & H). apply H in R.
    change (NUM_FRAMES G_far) with 8 in Hk. lia.
Qed.

Lemma C9_witness :
  exists k, 0 <= k < NUM_FRAMES G_deep /\
            forall f, referenced G_deep (RAM pm_deep) f <-> 1 <= f <= k.
Proof.
  assert (Hr : reachable G_deep pm_deep).
  { exists pm_garbage, ops_deep. split; [concrete_ops|reflexivity]. }
  exact (proj1 (C9_frames_contiguous G_deep ltac:(concrete) ltac:(concrete)
                  ltac:(concrete) ltac:(concrete)
              ltac:(concrete) ltac:(concrete)) pm_deep Hr).
Defined.

Lemma C10_witness :
  VMwrite G_spec 48 9 pm_three =
  (1, PMwrite (fst (find_physical_address G_spec 48 (init_offsets G_spec 48)
                      pm_three) * PAGE_SIZE G_spec
               + nth (TABLES_DEPTH G_spec) (init_offsets G_spec 48) 0)
              9
              (snd (find_physical_address G_spec 48 (init_offsets G_spec 48)
                      pm_three))).
Proof.
  destruct (proj1 (C10_same_translation G_spec ltac:(concrete)
                     ltac:(concrete) ltac:(concrete) ltac:(concrete)
                     ltac:(concrete) ltac:(concrete))
              48 0 9 pm_three reachable_pm_three ltac:(concrete))
    as (_ & A & _).
  exact A.
Defined.

(** ** Further properties at concrete configurations *)

Lemma X1_witness :
  page_of_path G_spec 0 (init_offsets G_spec 171) = 171 /\
  page_of_path G_spec 0 (firstn (TABLES_DEPTH G_spec) (init_offsets G_spec 171))
  = Z.shiftr 171 (OFFSET_WIDTH G_spec).
Proof.
  destruct (X1_init_offsets_round_trip G_spec ltac:(concrete) ltac:(concrete)
              171 ltac:(concrete)) as (_ & _ & A & B).
  split; [exact A|exact B].
Defined.

Lemma X2_witness :
  walk G_spec (RAM (VMinitialize G_spec pm_garbage)) 0 [3] = None.
Proof.
  destruct (X2_VMinitialize_clears_root G_spec ltac:(concrete)
              ltac:(concrete) ltac:(concrete) pm_garbage)
    as (_ & _ & _ & _ & A).
  apply (A 3 []). vm_compute. split; [discriminate|reflexivity].
Defined.

Lemma X3_witness :
  cyclic_distance G_spec 1 15 <=
  cyclic_distance G_spec 1 8 + cyclic_distance G_spec 8 15.
Proof.
  destruct (X3_cyclic_distance_metric G_spec ltac:(concrete)) as [_ A].
  destruct (A 1 8 15 ltac:(concrete) ltac:(concrete) ltac:(concrete))
    as (_ & _ & B).
  exact B.
Defined.

Lemma X4_witness :
  finder_traffic G_spec
    (snd (PMread (0 * PAGE_SIZE G_spec + nth 0 (init_offsets G_spec 48) 0)
            pm_three))
    (finder_call G_spec 48 0 0 pm_three).
Proof.
  exact (proj1 (X4_finder_traffic G_spec ltac:(concrete) ltac:(concrete)
                  ltac:(concrete) ltac:(concrete) ltac:(concrete)
                  ltac:(concrete) 48 0%nat 0 pm_three
                  (walking_start G_spec 48 pm_three reachable_pm_three
                     ltac:(concrete))
                  ltac:(vm_compute; lia) ltac:(vm_compute; reflexivity))).
Defined.

Lemma X5_witness :
  fst (find_physical_address G_spec 37 (init_offsets G_spec 37) pm_three) = 3
  /\ RAM (snd (find_physical_address G_spec 37 (init_offsets G_spec 37)
                 pm_three)) = RAM pm_three.
Proof.
  destruct (X5_resident_translation G_spec ltac:(concrete) ltac:(concrete)
              ltac:(concrete) ltac:(concrete) ltac:(concrete) ltac:(concrete)
              37 3 pm_three reachable_pm_three ltac:(concrete)
              ltac:(vm_compute; reflexivity)) as (A & _ & B & _).
  split; [exact A|exact B].
Defined.

Lemma X6_witness :
  fst (VMread G_spec 32 7 pm_three) = (1, 3) /\
  RAM (snd (VMread G_spec 32 7 pm_three)) = RAM pm_three.
Proof.
  destruct (X6_resident_access G_spec ltac:(concrete) ltac:(concrete)
              ltac:(concrete) ltac:(concrete) ltac:(concrete) ltac:(concrete)
              32 7 0 3 pm_three reachable_pm_three ltac:(concrete)
              ltac:(vm_compute; reflexivity)) as (_ & _ & A & B & _).
  split; [exact A|exact B].
Defined.

Lemma X7_witness :
  fst (VMread G_spec 16 7
         (run_ops G_spec ops_three (VMinitialize G_spec pm_garbage)))
  = (1, 2).
Proof.
  destruct (X7_flat_memory G_spec ltac:(concrete) ltac:(concrete)
              ltac:(concrete) ltac:(concrete)
              ltac:(concrete) ltac:(concrete)) as [_ A].
  apply (A pm_garbage ops_three 16 7).
  - intros p. reflexivity.
  - concrete_ops.
  - concrete.
Defined.

Lemma X8_witness :
  referenced G_spec (RAM (run_op G_spec pm_three (OpRead 48))) 2.
Proof.
  apply (X8_frames_stay_referenced G_spec ltac:(concrete) ltac:(concrete)
           ltac:(concrete) ltac:(concrete)
              ltac:(concrete) ltac:(concrete) pm_three (OpRead 48) 2
           reachable_pm_three
           ltac:(vm_compute; split; [discriminate|reflexivity])).
  exists 0, 1, []. unfold reach.
  splits; [constructor|vm_compute; lia|reflexivity|vm_compute; lia|lia
          |concrete|concrete|discriminate].
Defined.

Lemma X9_witness :
  RAM (snd (VMread G_spec 50 7 (run_op G_spec pm_three (OpRead 48)))) =
  RAM (run_op G_spec pm_three (OpRead 48)).
Proof.
  destruct (X9_no_second_fault G_spec ltac:(concrete) ltac:(concrete)
              ltac:(concrete) ltac:(concrete)
              ltac:(concrete) ltac:(concrete) pm_three (OpRead 48) 48 50 7 0
              reachable_pm_three ltac:(concrete) ltac:(concrete)
              ltac:(reflexivity) ltac:(vm_compute; reflexivity)) as (A & _).
  exact A.
Defined.

Lemma X10_witness :
  fst deep_step <> finder_frame G_deep 12 1 (fst deep_step) (snd deep_step) /\
  RAM (snd (translate_step G_deep (init_offsets G_deep 12) 1
              (init_args (fst deep_step) (Z.shiftr 12 (OFFSET_WIDTH G_deep)))
              (snd deep_step)))
      (fst deep_step * PAGE_SIZE G_deep + nth 1 (init_offsets G_deep 12) 0)
  = finder_frame G_deep 12 1 (fst deep_step) (snd deep_step).
Proof.
  destruct (X10_translator_installs G_deep ltac:(concrete) ltac:(concrete)
              ltac:(concrete) ltac:(concrete)
              ltac:(concrete) ltac:(concrete) 12 1%nat
              (fst deep_step) (snd deep_step)
              (walking_step G_deep 12 0 0 pm_deep
                 (walking_start G_deep 12 pm_deep reachable_pm_deep
                    ltac:(concrete))
                 ltac:(vm_compute; lia))
              ltac:(vm_compute; lia) ltac:(vm_compute; reflexivity))
    as (_ & A & B & _).
  split; [intros E; apply A; symmetry; exact E|exact B].
Defined.

Lemma X11_witness : referenced G_spec (RAM pm_three) 3.
Proof.
  destruct (X11_eviction_only_when_full G_spec ltac:(concrete)
              ltac:(concrete) ltac:(concrete) ltac:(concrete)
              ltac:(concrete) ltac:(concrete) 48 0%nat 0
              pm_three
              (walking_start G_spec 48 pm_three reachable_pm_three
                 ltac:(concrete))
              ltac:(vm_compute; lia) ltac:(vm_compute; reflexivity)
              ltac:(vm_compute; reflexivity)) as (A & _).
  apply (A 3). vm_compute. split; [discriminate|reflexivity].
Defined.

Lemma X12_witness :
  in_memory G_spec (run_ops G_spec ops_three (VMinitialize G_spec pm_garbage))
  = true.
Proof.
  apply (X12_accesses_inside_memory G_spec ltac:(concrete) ltac:(concrete)
           ltac:(concrete) ltac:(concrete)
              ltac:(concrete) ltac:(concrete) pm_garbage ops_three).
  - reflexivity.
  - concrete_ops.
Defined.

Lemma X13_witness :
  exists q,
    reach G_spec (RAM pm_two) q
      (maxCyclicFrame (fst (finder_call G_spec 16 0 0 pm_two))) /\
    maxCyclicPage (fst (finder_call G_spec 16 0 0 pm_two))
    = page_of_path G_spec 0 q.
Proof.
  assert (Hleaf : exists q0 f0,
             reach G_spec (RAM pm_two) q0 f0 /\
             length q0 = TABLES_DEPTH G_spec).
  { exists [0], 1. split; [|reflexivity]. unfold reach.
    splits; [|vm_compute; lia|concrete].
    repeat constructor; vm_compute; discriminate. }
  destruct (X13_victim_farthest_last G_spec ltac:(concrete) ltac:(concrete)
              ltac:(concrete) ltac:(concrete) ltac:(concrete) ltac:(concrete)
              16 0%nat 0 pm_two
              (walking_start G_spec 16 pm_two reachable_pm_two
                 ltac:(concrete))
              ltac:(vm_compute; lia) ltac:(vm_compute; reflexivity)
              ltac:(vm_compute; discriminate) Hleaf)
    as (q & A & _ & B & _).
  exists q. split; [exact A|exact B].
Defined.

Lemma X14_witness : cyclic_distance G_spec 1 15 = cyclic G_spec 1 15.
Proof.
  exact (X14_cyclic_distance_formula G_spec ltac:(concrete) 1 15
           ltac:(concrete) ltac:(concrete)).
Defined.
